(** * flurs: the Evaluator protocol (src/flurs/evaluator.py)

    A shallow embedding of [Evaluator] and of the recommender interface it
    drives.  The Evaluator is stateful Python: it mutates the recommender, the
    per-user observed sets that live inside the recommender, and (through
    [np.random.shuffle]) the caller's training list.  We model it in a
    state-and-exception monad over a [World] that holds the Evaluator object,
    the environment (random source and clock) and the chronological record of
    every call made on the recommender. *)

From Stdlib Require Import QArith Lqa.
From stdpp Require Import gmap list.

Close Scope Q_scope.

(** ** Python exceptions raised by the code under study *)

Inductive exn : Type :=
| AttributeError   (* reading an attribute that was never assigned *)
| KeyError         (* [users[u]] for an unregistered [u] *)
| IndexError.      (* [np.where(...)[0][0]] on an empty match, [scores[0]] on an empty array *)

(** ** float64 values

    Percentiles are float64.  Rounding is idealised (exact rationals); what is
    kept of IEEE arithmetic is the quiet not-a-number that [0 / 0] and the
    mean of an empty array produce (numpy warns and carries on). *)

Inductive float : Type :=
| Num (q : Q)
| NaN.

(** [pos / (len(recos) - 1) * 100], with [pos] a numpy integer. *)
Definition percentile (pos len_recos : nat) : float :=
  let d := (Z.of_nat len_recos - 1)%Z in
  if decide (d = 0%Z) then NaN
  else Num (inject_Z (Z.of_nat pos) / inject_Z d * 100)%Q.

Fixpoint np_sum (l : list float) : float :=
  match l with
  | [] => Num 0
  | x :: l' =>
      match x, np_sum l' with
      | Num a, Num b => Num (a + b)%Q
      | _, _ => NaN
      end
  end.

(** [np.mean]: not-a-number on an empty array (0 / 0). *)
Definition np_mean (l : list float) : float :=
  match l with
  | [] => NaN
  | _ =>
      match np_sum l with
      | Num s => Num (s / inject_Z (Z.of_nat (length l)))%Q
      | NaN => NaN
      end
  end.

(** A number between 0 and 100. *)
Definition in_percent (x : float) : Prop :=
  ∃ q, x = Num q ∧ (0 <= q)%Q ∧ (q <= 100)%Q.

(** [np.where(recos == i)[0][0]]: position of the first occurrence. *)
Definition np_where_first (i : nat) (recos : list nat) : option nat :=
  fst <$> list_find (λ x, x = i) recos.

Declare Scope ev_scope.

Section Evaluator.

(** numpy vectors (features, contexts), feedback values, scores, the
    recommender's private parameters, and the process environment. *)
Context {Vec Val Score M G : Type}.

(** ** Events (flurs.entity, used through attribute access only) *)

Record Entity : Type := mkEntity { index : nat; feature : Vec }.

Record Event : Type :=
  mkEvent { user : Entity; item : Entity; value : Val; context : Vec }.

(** ** The recommender object

    The Evaluator reads [rec.n_item] and reads and mutates
    [rec.users[u]['observed']] directly; everything else of the recommender
    is reached through its methods. *)

Record Rec : Type :=
  mkRec { n_item : nat; users : gmap nat (gset nat); model : M }.

Definition set_users (f : gmap nat (gset nat) → gmap nat (gset nat)) (r : Rec) : Rec :=
  mkRec (n_item r) (f (users r)) (model r).

(** The methods of [self.rec] called by the Evaluator.  The optional
    argument is the one only the feature-aware variant receives. *)
Class Recommender : Type := {
  feature_recommender : bool;   (* issubclass(rec.__class__, FeatureRecommender) *)
  init_model : Rec → Rec;
  is_new_user : nat → Rec → bool;
  is_new_item : nat → Rec → bool;
  add_user : nat → option Vec → Rec → Rec;
  add_item : nat → option Vec → Rec → Rec;
  update_user_feature : nat → Vec → Rec → Rec;
  update_item_feature : nat → Vec → Rec → Rec;
  update : nat → nat → Val → option Vec → bool → Rec → Rec;
  recommend : nat → list nat → option Vec → Rec → (list nat * list Score) * Rec
}.

(** The environment: [np.random.shuffle] and [time.clock]. *)
Class Environment : Type := {
  np_random_shuffle : list Event → G → list Event * G;
  time_clock : G → Q * G
}.

Context {rcm : Recommender} {envr : Environment}.

(** ** The record of calls *)

Inductive Call : Type :=
| CInitModel
| CAddUser (u : nat) (c : option Vec)
| CAddItem (i : nat) (f : option Vec)
| CUpdateUserFeature (u : nat) (f : Vec)
| CUpdateItemFeature (i : nat) (f : Vec)
| CUpdate (u i : nat) (v : Val) (c : option Vec) (is_batch_train : bool)
| CRecommend (u : nat) (target_i_indices : list nat) (c : option Vec)
| CObserve (u i : nat)                 (* rec.users[u]['observed'].add(i) *)
| CShuffle (before after : list Event) (* np.random.shuffle(train_events) *)
| CLog (epoch : nat) (MPR : float).    (* logger.debug('epoch %2d: MPR = %f') *)

(** ** The Evaluator object and the world *)

Record EvaluatorObj : Type :=
  mkEvaluator { rec : Rec; is_feature_rec : bool; can_repeat : option bool }.

Record World : Type :=
  mkWorld { self : EvaluatorObj; env : G; calls : list Call }.

Definition Ev (A : Type) : Type := World → exn + (A * World).

Definition ret {A} (x : A) : Ev A := λ w, inr (x, w).

Definition bind {A B} (m : Ev A) (f : A → Ev B) : Ev B := λ w,
  match m w with
  | inl e => inl e
  | inr (x, w') => f x w'
  end.

Notation "x ← y ; z" := (bind y (λ x, z))
  (at level 20, y at level 100, z at level 200, only parsing) : ev_scope.
Notation "x ;; z" := (bind x (λ _, z))
  (at level 100, z at level 200, only parsing, right associativity) : ev_scope.
#[local] Open Scope ev_scope.

Definition raise {A} (e : exn) : Ev A := λ _, inl e.

Definition with_rec (f : Rec → Rec) (w : World) : World :=
  mkWorld (mkEvaluator (f (rec (self w))) (is_feature_rec (self w)) (can_repeat (self w)))
          (env w) (calls w).

Definition record (c : Call) (w : World) : World :=
  mkWorld (self w) (env w) (calls w ++ [c]).

(** A method call on [self.rec] that returns nothing. *)
Definition rec_call (c : Call) (f : Rec → Rec) : Ev unit :=
  λ w, inr (tt, record c (with_rec f w)).

Definition get_rec : Ev Rec := λ w, inr (rec (self w), w).

Definition get_is_feature_rec : Ev bool := λ w, inr (is_feature_rec (self w), w).

(** [self.can_repeat]: the attribute exists only once [set_can_repeat] ran. *)
Definition get_can_repeat : Ev bool := λ w,
  match can_repeat (self w) with
  | Some b => inr (b, w)
  | None => inl AttributeError
  end.

(** [self.rec.users[u]['observed']] *)
Definition get_observed (u : nat) : Ev (gset nat) := λ w,
  match users (rec (self w)) !! u with
  | Some s => inr (s, w)
  | None => inl KeyError
  end.

(** [self.rec.users[u]['observed'].add(i)]: the set is mutated in place. *)
Definition observed_add (u i : nat) : Ev unit := λ w,
  match users (rec (self w)) !! u with
  | Some s => inr (tt, record (CObserve u i) (with_rec (set_users <[u := s ∪ {[i]}]>) w))
  | None => inl KeyError
  end.

Definition call_recommend (u : nat) (target_i_indices : list nat) (c : option Vec)
  : Ev (list nat * list Score) := λ w,
  let out := recommend u target_i_indices c (rec (self w)) in
  inr (out.1, record (CRecommend u target_i_indices c) (with_rec (λ _, out.2) w)).

Definition shuffle (l : list Event) : Ev (list Event) := λ w,
  let out := np_random_shuffle l (env w) in
  inr (out.1, mkWorld (self w) out.2 (calls w ++ [CShuffle l out.1])).

Definition clock : Ev Q := λ w,
  let out := time_clock (env w) in
  inr (out.1, mkWorld (self w) out.2 (calls w)).

Definition logger_debug (epoch : nat) (MPR : float) : Ev unit :=
  λ w, inr (tt, record (CLog epoch MPR) w).

(** [for x in l: body x] *)
Fixpoint for_each {A} (l : list A) (body : A → Ev unit) : Ev unit :=
  match l with
  | [] => ret tt
  | x :: l' => body x ;; for_each l' body
  end.

(** ** Evaluator.__init__ and set_can_repeat *)

Definition __init__ (recommender : Rec) (g : G) : World :=
  mkWorld (mkEvaluator (init_model recommender) feature_recommender None) g [CInitModel].

Definition set_can_repeat (b : bool) : Ev unit := λ w,
  inr (tt, mkWorld (mkEvaluator (rec (self w)) (is_feature_rec (self w)) (Some b))
                   (env w) (calls w)).

(** ** The private helpers *)

Definition __update (e : Event) (is_batch_train : bool) : Ev unit :=
  feat ← get_is_feature_rec;
  if feat then
    rec_call (CUpdateUserFeature (index (user e)) (feature (user e)))
             (update_user_feature (index (user e)) (feature (user e))) ;;
    rec_call (CUpdateItemFeature (index (user e)) (feature (item e)))
             (update_item_feature (index (user e)) (feature (item e))) ;;
    rec_call (CUpdate (index (user e)) (index (item e)) (value e) (Some (context e)) is_batch_train)
             (update (index (user e)) (index (item e)) (value e) (Some (context e)) is_batch_train)
  else
    rec_call (CUpdate (index (user e)) (index (item e)) (value e) None is_batch_train)
             (update (index (user e)) (index (item e)) (value e) None is_batch_train).

Definition __recommend (e : Event) (target_i_indices : list nat)
  : Ev (list nat * list Score) :=
  feat ← get_is_feature_rec;
  if feat then
    rec_call (CUpdateUserFeature (index (user e)) (feature (user e)))
             (update_user_feature (index (user e)) (feature (user e))) ;;
    rec_call (CUpdateItemFeature (index (item e)) (feature (item e)))
             (update_item_feature (index (item e)) (feature (item e))) ;;
    call_recommend (index (user e)) target_i_indices (Some (context e))
  else
    call_recommend (index (user e)) target_i_indices None.

Definition __validate_user (e : Event) : Ev unit :=
  r ← get_rec;
  if negb (is_new_user (index (user e)) r) then ret tt
  else
    feat ← get_is_feature_rec;
    if feat then
      rec_call (CAddUser (index (user e)) (Some (context e)))
               (add_user (index (user e)) (Some (context e)))
    else
      rec_call (CAddUser (index (user e)) None) (add_user (index (user e)) None).

Definition __validate_item (e : Event) : Ev unit :=
  r ← get_rec;
  if negb (is_new_item (index (item e)) r) then ret tt
  else
    feat ← get_is_feature_rec;
    if feat then
      rec_call (CAddItem (index (item e)) (Some (feature (item e))))
               (add_item (index (item e)) (Some (feature (item e))))
    else
      rec_call (CAddItem (index (item e)) None) (add_item (index (item e)) None).

Definition __validate (e : Event) : Ev unit :=
  __validate_user e ;; __validate_item e.

(** ** batch_evaluate

    [all_items] is built once, before the loop, and [unobserved = all_items]
    binds the very same set object in every iteration: the in-place
    [-=] and [.add] act on [all_items] itself, so the loop carries it. *)

Definition candidates (can_repeat : bool) (all_items observed : gset nat) (i : nat)
  : gset nat :=
  if negb can_repeat then (all_items ∖ observed) ∪ {[i]} else all_items.

Fixpoint batch_evaluate_loop (all_items : gset nat) (test_events : list Event)
  : Ev (list float) :=
  match test_events with
  | [] => ret []
  | e :: rest =>
      b ← get_can_repeat;
      unobserved ← (if negb b then
                      observed ← get_observed (index (user e));
                      ret (candidates b all_items observed (index (item e)))
                    else ret all_items);
      out ← __recommend e (elements unobserved);
      match np_where_first (index (item e)) out.1 with
      | None => raise IndexError
      | Some pos =>
          percentiles ← batch_evaluate_loop unobserved rest;
          ret (percentile pos (length out.1) :: percentiles)
      end
  end.

Definition batch_evaluate (test_events : list Event) : Ev float :=
  r ← get_rec;
  percentiles ← batch_evaluate_loop (set_seq 0 (n_item r)) test_events;
  ret (np_mean percentiles).

(** ** batch_update

    [np.random.shuffle(train_events)] permutes the caller's list object in
    place; the function therefore hands back the final content of that
    list. *)

Fixpoint batch_update_loop (n_epoch : nat) (epochs : list nat)
    (train_events test_events : list Event) : Ev (list Event) :=
  match epochs with
  | [] => ret train_events
  | epoch :: epochs' =>
      train_events ← (if decide (n_epoch ≠ 1) then shuffle train_events
                      else ret train_events);
      for_each train_events (λ e, __update e true) ;;
      MPR ← batch_evaluate test_events;
      logger_debug (epoch + 1) MPR ;;
      batch_update_loop n_epoch epochs' train_events test_events
  end.

Definition batch_update (train_events test_events : list Event) (n_epoch : nat)
  : Ev (list Event) :=
  batch_update_loop n_epoch (seq 0 n_epoch) train_events test_events.

(** ** fit

    [fit] returns nothing in Python; here it hands back the final contents
    of the caller's two list objects, [train_events] and [test_events],
    taken to be two distinct objects (for one object passed twice, see
    [fit_at] below). *)

Definition fit (train_events test_events : list Event) (n_epoch : nat)
  : Ev (list Event * list Event) :=
  rec_call CInitModel init_model ;;
  for_each train_events (λ e,
    __validate e ;;
    observed_add (index (user e)) (index (item e))) ;;
  for_each test_events __validate ;;
  train_events ← batch_update train_events test_events n_epoch;
  for_each test_events (λ e,
    observed_add (index (user e)) (index (item e)) ;;
    __update e false) ;;
  ret (train_events, test_events).

(** ** The caller's list objects

    [train_events] and [test_events] are references to list objects that
    belong to the caller, and [np.random.shuffle(train_events)] mutates the
    object it is given.  [batch_update] and [fit] above are the calls on
    two distinct objects.  [batch_update_at] and [fit_at] are the same
    methods on references into a store [s] of list objects (object
    identity to contents), as the interpreter runs them: one object may then be passed for both parameters, and
    every loop reads the object as it is when the loop starts.  A
    reference always denotes an object of the store ([!!!] reads it). *)

Fixpoint batch_update_loop_at (n_epoch : nat) (epochs : list nat)
    (train_events test_events : nat) (s : gmap nat (list Event))
  : Ev (gmap nat (list Event)) :=
  match epochs with
  | [] => ret s
  | epoch :: epochs' =>
      s ← (if decide (n_epoch ≠ 1) then
             l ← shuffle (s !!! train_events);
             ret (<[train_events := l]> s)
           else ret s);
      for_each (s !!! train_events) (λ e, __update e true) ;;
      MPR ← batch_evaluate (s !!! test_events);
      logger_debug (epoch + 1) MPR ;;
      batch_update_loop_at n_epoch epochs' train_events test_events s
  end.

Definition batch_update_at (train_events test_events : nat) (n_epoch : nat)
    (s : gmap nat (list Event)) : Ev (gmap nat (list Event)) :=
  batch_update_loop_at n_epoch (seq 0 n_epoch) train_events test_events s.

Definition fit_at (train_events test_events : nat) (n_epoch : nat)
    (s : gmap nat (list Event)) : Ev (gmap nat (list Event)) :=
  rec_call CInitModel init_model ;;
  for_each (s !!! train_events) (λ e,
    __validate e ;;
    observed_add (index (user e)) (index (item e))) ;;
  for_each (s !!! test_events) __validate ;;
  s ← batch_update_at train_events test_events n_epoch s;
  for_each (s !!! test_events) (λ e,
    observed_add (index (user e)) (index (item e)) ;;
    __update e false) ;;
  ret s.

(** ** evaluate

    A generator: nothing runs until the caller pulls.  One pull runs one
    loop body up to its [yield], the last statement of the body. *)

Record Result : Type :=
  mkResult { top1_score : Score; rank : nat; recommend_time : Q; update_time : Q }.

Definition evaluate_body (e : Event) : Ev Result :=
  __validate e ;;
  r ← get_rec;
  b ← get_can_repeat;
  unobserved ← (if negb b then
                  observed ← get_observed (index (user e));
                  ret (candidates b (set_seq 0 (n_item r)) observed (index (item e)))
                else ret (set_seq 0 (n_item r)));
  start ← clock;
  out ← __recommend e (elements unobserved);
  now ← clock;
  let recommend_time := (now - start)%Q in
  match np_where_first (index (item e)) out.1 with
  | None => raise IndexError
  | Some rank =>
      observed_add (index (user e)) (index (item e)) ;;
      start ← clock;
      __update e false ;;
      now ← clock;
      let update_time := (now - start)%Q in
      match out.2 with
      | [] => raise IndexError
      | score0 :: _ => ret (mkResult score0 rank recommend_time update_time)
      end
  end.

Definition evaluate (test_events : list Event) : list (Ev Result) :=
  evaluate_body <$> test_events.

(** Pulling every result of a (prefix of a) generator, in order. *)
Fixpoint consume {A} (gen : list (Ev A)) : Ev (list A) :=
  match gen with
  | [] => ret []
  | step :: gen' =>
      x ← step;
      xs ← consume gen';
      ret (x :: xs)
  end.

(** ** Vocabulary for the properties *)

Definition is_registration (c : Call) : bool :=
  match c with CAddUser _ _ | CAddItem _ _ => true | _ => false end.

Definition is_refresh (c : Call) : bool :=
  match c with CUpdateUserFeature _ _ | CUpdateItemFeature _ _ => true | _ => false end.

Definition is_update (c : Call) : bool :=
  match c with CUpdate _ _ _ _ _ => true | _ => false end.

Definition is_observe (c : Call) : bool :=
  match c with CObserve _ _ => true | _ => false end.

Definition is_shuffle (c : Call) : bool :=
  match c with CShuffle _ _ => true | _ => false end.

(** The calls of one pull of [evaluate] on [e]: registrations, then the
    recommend call (with its feature refreshes), then the observed-set
    mutation, then the non-batch update (with its feature refreshes). *)
Definition serve_then_learn (e : Event) (cands : list nat) (block : list Call) : Prop :=
  ∃ reg refresh c refresh' c',
    block = reg ++ refresh
              ++ [CRecommend (index (user e)) cands c;
                  CObserve (index (user e)) (index (item e))]
              ++ refresh'
              ++ [CUpdate (index (user e)) (index (item e)) (value e) c' false]
    ∧ Forall is_registration reg ∧ Forall is_refresh refresh ∧ Forall is_refresh refresh'.

(** Bootstrap block of [fit] for a training event: registrations, then the
    observed-set mutation; never an update. *)
Definition bootstrap_block (e : Event) (block : list Call) : Prop :=
  ∃ reg, block = reg ++ [CObserve (index (user e)) (index (item e))]
         ∧ Forall is_registration reg.

(** What the Evaluator can see of the recommender's books. *)
Definition same_books (r r' : Rec) : Prop :=
  n_item r' = n_item r ∧ users r' = users r
  ∧ ∀ i, is_new_item i r' = is_new_item i r.

(** The recommender contract, bookkeeping side: a user is registered when
    [users] has an entry for it; registration creates an empty observed set,
    resp. counts one more item; nothing else touches the books. *)
Class KeepsBooks : Prop := {
  init_model_users r : users (init_model r) = ∅;
  init_model_n_item r : n_item (init_model r) = 0;
  init_model_items r i : is_new_item i (init_model r) = true;
  is_new_user_spec u r : is_new_user u r = true ↔ users r !! u = None;
  add_user_users u c r :
    is_new_user u r = true → users (add_user u c r) = <[u := ∅]> (users r);
  add_user_n_item u c r :
    is_new_user u r = true → n_item (add_user u c r) = n_item r;
  add_user_items u c r i :
    is_new_user u r = true → is_new_item i (add_user u c r) = is_new_item i r;
  add_item_users i f r :
    is_new_item i r = true → users (add_item i f r) = users r;
  add_item_n_item i f r :
    is_new_item i r = true → n_item (add_item i f r) = S (n_item r);
  add_item_items i f r j :
    is_new_item i r = true →
    is_new_item j (add_item i f r) = (is_new_item j r && bool_decide (j ≠ i));
  update_user_feature_books u f r : same_books r (update_user_feature u f r);
  update_item_feature_books i f r : same_books r (update_item_feature i f r);
  update_books u i v c b r : same_books r (update u i v c b r);
  recommend_books u cs c r : same_books r (recommend u cs c r).2
}.

(** The recommender contract, ranking side: [recommend] returns the
    candidates in some order, with as many scores. *)
Class RanksCandidates : Prop := {
  recommend_perm u cs c r : (recommend u cs c r).1.1 ≡ₚ cs;
  recommend_scores u cs c r : length (recommend u cs c r).1.2 = length cs
}.

(** [np.random.shuffle] reorders and nothing more. *)
Class ShufflePermutes : Prop :=
  shuffle_perm l g : (np_random_shuffle l g).1 ≡ₚ l.

(** Item indices are dense: the registered ones are exactly those below
    [n_item]. *)
Definition dense (r : Rec) : Prop :=
  ∀ i, is_new_item i r = false ↔ i < n_item r.


(** Two worlds that differ at most in the environment (random source and
    clock). *)
Definition low_eq (w1 w2 : World) : Prop :=
  self w1 = self w2 ∧ calls w1 = calls w2.

(** What never changes but through [set_can_repeat]. *)
Definition same_config (w w' : World) : Prop :=
  is_feature_rec (self w') = is_feature_rec (self w)
  ∧ can_repeat (self w') = can_repeat (self w).

(** The books as the Evaluator sees them, world to world. *)
Definition books_kept (w w' : World) : Prop :=
  same_books (rec (self w)) (rec (self w')).

(** The calls and the effect of [__update], in closed form. *)
Definition update_calls (feat : bool) (e : Event) (b : bool) : list Call :=
  if feat then
    [CUpdateUserFeature (index (user e)) (feature (user e));
     CUpdateItemFeature (index (user e)) (feature (item e));
     CUpdate (index (user e)) (index (item e)) (value e) (Some (context e)) b]
  else [CUpdate (index (user e)) (index (item e)) (value e) None b].

Definition update_rec (feat : bool) (e : Event) (b : bool) (r : Rec) : Rec :=
  if feat then
    update (index (user e)) (index (item e)) (value e) (Some (context e)) b
      (update_item_feature (index (user e)) (feature (item e))
         (update_user_feature (index (user e)) (feature (user e)) r))
  else update (index (user e)) (index (item e)) (value e) None b r.

(** The calls and the effect of [__recommend], in closed form. *)
Definition opt_arg {A} (feat : bool) (x : A) : option A :=
  if feat then Some x else None.

Definition recommend_calls (feat : bool) (e : Event) (cands : list nat) : list Call :=
  if feat then
    [CUpdateUserFeature (index (user e)) (feature (user e));
     CUpdateItemFeature (index (item e)) (feature (item e));
     CRecommend (index (user e)) cands (Some (context e))]
  else [CRecommend (index (user e)) cands None].

Definition recommend_pre (feat : bool) (e : Event) (r : Rec) : Rec :=
  if feat then
    update_item_feature (index (item e)) (feature (item e))
      (update_user_feature (index (user e)) (feature (user e)) r)
  else r.

Definition recommend_out (feat : bool) (e : Event) (cands : list nat) (r : Rec)
  : (list nat * list Score) * Rec :=
  recommend (index (user e)) cands (opt_arg feat (context e)) (recommend_pre feat e r).

(** The calls and the effect of [__validate], in closed form. *)
Definition validate_user_rec (feat : bool) (e : Event) (r : Rec) : Rec :=
  if is_new_user (index (user e)) r
  then add_user (index (user e)) (opt_arg feat (context e)) r else r.

Definition validate_item_rec (feat : bool) (e : Event) (r : Rec) : Rec :=
  if is_new_item (index (item e)) r
  then add_item (index (item e)) (opt_arg feat (feature (item e))) r else r.

Definition validate_rec (feat : bool) (e : Event) (r : Rec) : Rec :=
  validate_item_rec feat e (validate_user_rec feat e r).

Definition validate_calls (feat : bool) (e : Event) (r : Rec) : list Call :=
  (if is_new_user (index (user e)) r
   then [CAddUser (index (user e)) (opt_arg feat (context e))] else [])
  ++ (if is_new_item (index (item e)) (validate_user_rec feat e r)
      then [CAddItem (index (item e)) (opt_arg feat (feature (item e)))] else []).

Definition set_rec (r : Rec) (tr : list Call) (w : World) : World :=
  mkWorld (mkEvaluator r (is_feature_rec (self w)) (can_repeat (self w)))
          (env w) (calls w ++ tr).

(** The world after one reading of the clock. *)
Definition tick (w : World) : World :=
  mkWorld (self w) (time_clock (env w)).2 (calls w).

(** The candidate set built by [batch_evaluate] and [evaluate] from the
    set object [all_items]; [None] when [users[u]] raises. *)
Definition unobserved_of (b : bool) (all_items : gset nat) (r : Rec) (u i : nat)
  : option (gset nat) :=
  if b then Some all_items
  else (λ observed, candidates b all_items observed i) <$> users r !! u.

(** One pull of [evaluate], executed symbolically. *)
Definition evaluate_body_nf (e : Event) (w : World) : exn + (Result * World) :=
  let feat := is_feature_rec (self w) in
  let u := index (user e) in
  let i := index (item e) in
  let r1 := validate_rec feat e (rec (self w)) in
  match can_repeat (self w) with
  | None => inl AttributeError
  | Some b =>
      match unobserved_of b (set_seq 0 (n_item r1)) r1 u i with
      | None => inl KeyError
      | Some unobserved =>
          let out := recommend_out feat e (elements unobserved) r1 in
          match np_where_first i out.1.1 with
          | None => inl IndexError
          | Some rank =>
              match users out.2 !! u with
              | None => inl KeyError
              | Some s =>
                  match out.1.2 with
                  | [] => inl IndexError
                  | score0 :: _ =>
                      inr (mkResult score0 rank
                             ((time_clock (env (tick w))).1 - (time_clock (env w)).1)%Q
                             ((time_clock (env (tick (tick (tick w))))).1
                              - (time_clock (env (tick (tick w)))).1)%Q,
                           mkWorld
                             (mkEvaluator
                                (update_rec feat e false
                                   (set_users <[u := s ∪ {[i]}]> out.2))
                                feat (Some b))
                             (env (tick (tick (tick (tick w)))))
                             (calls w ++ validate_calls feat e (rec (self w))
                                ++ recommend_calls feat e (elements unobserved)
                                ++ [CObserve u i] ++ update_calls feat e false))
                  end
              end
          end
      end
  end.

(** One iteration of the loop of [batch_evaluate]: the event, the candidates
    handed to [recommend], the ranked output and the position found. *)
Record Scoring : Type :=
  mkScoring { sc_event : Event; sc_cands : list nat; sc_recos : list nat; sc_pos : nat }.

Definition scoring_calls (feat : bool) (s : Scoring) : list Call :=
  recommend_calls feat (sc_event s) (sc_cands s).

Definition scoring_percentile (s : Scoring) : float :=
  percentile (sc_pos s) (length (sc_recos s)).

Definition is_scoring_call (c : Call) : bool :=
  match c with
  | CUpdateUserFeature _ _ | CUpdateItemFeature _ _ | CRecommend _ _ _ => true
  | _ => false
  end.

(** The loops of [fit] and [batch_update] that cannot fault, in closed form. *)
Fixpoint updates_rec (feat : bool) (es : list Event) (b : bool) (r : Rec) : Rec :=
  match es with
  | [] => r
  | e :: es' => updates_rec feat es' b (update_rec feat e b r)
  end.

Definition updates_calls (feat : bool) (es : list Event) (b : bool) : list Call :=
  concat ((λ e, update_calls feat e b) <$> es).

Fixpoint preregister_rec (feat : bool) (es : list Event) (r : Rec) : Rec :=
  match es with
  | [] => r
  | e :: es' => preregister_rec feat es' (validate_rec feat e r)
  end.

Fixpoint preregister_calls (feat : bool) (es : list Event) (r : Rec) : list Call :=
  match es with
  | [] => []
  | e :: es' => validate_calls feat e r ++ preregister_calls feat es' (validate_rec feat e r)
  end.

(** The world after [np.random.shuffle(l)]. *)
Definition shuffled (l : list Event) (w : World) : World :=
  mkWorld (self w) (np_random_shuffle l (env w)).2
          (calls w ++ [CShuffle l (np_random_shuffle l (env w)).1]).

(** A world in which [batch_evaluate test_events] cannot fault: the repeat
    policy is set, every test user is registered and, when repeats are
    allowed, every test item index is below [n_item]. *)
Definition ready (b : bool) (test_events : list Event) (w : World) : Prop :=
  can_repeat (self w) = Some b
  ∧ (∀ e, e ∈ test_events → is_Some (users (rec (self w)) !! index (user e)))
  ∧ (b = true → ∀ e, e ∈ test_events → index (item e) < n_item (rec (self w))).


(** Two outcomes that agree up to the environment: the same exception, or
    related values in worlds that differ at most in the environment. *)
Definition agree {A B} (Rel : A → B → Prop)
    (o1 : exn + A * World) (o2 : exn + B * World) : Prop :=
  match o1, o2 with
  | inl x1, inl x2 => x1 = x2
  | inr (a, w1), inr (b, w2) => Rel a b ∧ low_eq w1 w2
  | _, _ => False
  end.

Definition indist {A B} (Rel : A → B → Prop) (m1 : Ev A) (m2 : Ev B) : Prop :=
  ∀ w1 w2, low_eq w1 w2 → agree Rel (m1 w1) (m2 w2).

(** What a caller keeps of a result when timings are set aside. *)
Definition rank_and_score (res : Result) : nat * Score :=
  (rank res, top1_score res).

(** Computations that do not look at the environment. *)
Definition low {A} (m : Ev A) : Prop := indist eq m m.

(** ** Vocabulary for further properties *)

(** The optional argument is given exactly by a feature-aware Evaluator. *)
Definition opt_matches {A} (feat : bool) (o : option A) : bool :=
  match o with Some _ => feat | None => negb feat end.

(** A call as the variant selected at construction makes it: refreshes only
    from a feature-aware Evaluator, optional arguments only from it. *)
Definition dispatch_ok (feat : bool) (c : Call) : bool :=
  match c with
  | CAddUser _ o | CAddItem _ o | CUpdate _ _ _ o _ | CRecommend _ _ o => opt_matches feat o
  | CUpdateUserFeature _ _ | CUpdateItemFeature _ _ => feat
  | _ => true
  end.

Definition recommend_user (c : Call) : option nat :=
  match c with CRecommend u _ _ => Some u | _ => None end.

Definition recommend_targets (c : Call) : option (list nat) :=
  match c with CRecommend _ cands _ => Some cands | _ => None end.

Definition log_epoch (c : Call) : option nat :=
  match c with CLog epoch _ => Some epoch | _ => None end.

Definition update_flag (c : Call) : option bool :=
  match c with CUpdate _ _ _ _ b => Some b | _ => None end.

(** The update call [__update e b] ends with. *)
Definition update_call (feat : bool) (b : bool) (e : Event) : Call :=
  CUpdate (index (user e)) (index (item e)) (value e) (opt_arg feat (context e)) b.

(** The items of the events of user [u], as a set. *)
Definition items_of (u : nat) (es : list Event) : gset nat :=
  list_to_set ((λ e, index (item e)) <$> filter (λ e, index (user e) = u) es).

(** A computation that cannot raise [AttributeError] once the repeat policy
    is set, and keeps it set. *)
Definition policy_safe {A} (m : Ev A) : Prop :=
  ∀ w, is_Some (can_repeat (self w)) →
    match m w with
    | inl x => x ≠ AttributeError
    | inr (_, w') => is_Some (can_repeat (self w'))
    end.

(** The iterations of the loop of [batch_evaluate], one after the other:
    [all_items] is the set object as the previous iteration left it, [r] the
    recommender as the previous [recommend] left it. *)
Inductive scored_from (b feat : bool) : gset nat → Rec → list Scoring → Prop :=
| scored_nil all_items r : scored_from b feat all_items r []
| scored_cons all_items r s steps unobserved :
    unobserved_of b all_items r (index (user (sc_event s))) (index (item (sc_event s)))
    = Some unobserved →
    sc_cands s = elements unobserved →
    sc_recos s = (recommend_out feat (sc_event s) (sc_cands s) r).1.1 →
    np_where_first (index (item (sc_event s))) (sc_recos s) = Some (sc_pos s) →
    scored_from b feat unobserved (recommend_out feat (sc_event s) (sc_cands s) r).2 steps →
    scored_from b feat all_items r (s :: steps).

(** The observed sets after [users[e.user.index]['observed'].add(e.item.index)]
    for a user that is registered or has just been registered, and after
    doing so for a list of events in order. *)
Definition observe_one (e : Event) (us : gmap nat (gset nat)) : gmap nat (gset nat) :=
  <[index (user e) := default ∅ (us !! index (user e)) ∪ {[index (item e)]}]> us.

Fixpoint observe_all (es : list Event) (us : gmap nat (gset nat)) : gmap nat (gset nat) :=
  match es with
  | [] => us
  | e :: es' => observe_all es' (observe_one e us)
  end.

Definition observe_pair (c : Call) : option (nat * nat) :=
  match c with CObserve u i => Some (u, i) | _ => None end.

Definition observed_pair (e : Event) : nat * nat := (index (user e), index (item e)).

(** ** Vocabulary for the caller's lists *)

Definition shuffle_of (c : Call) : option (list Event * list Event) :=
  match c with CShuffle before after => Some (before, after) | _ => None end.

(** A list shuffled again and again: every shuffle starts from what the
    previous one left, and [l'] is what the last one leaves. *)
Fixpoint shuffled_through (l : list Event) (sh : list (list Event * list Event))
    (l' : list Event) : Prop :=
  match sh with
  | [] => l' = l
  | (before, after) :: sh' => before = l ∧ shuffled_through after sh' l'
  end.

(** An update outside batch training: [update(..., is_batch_train=False)]. *)
Definition is_online_update (c : Call) : bool :=
  match c with CUpdate _ _ _ _ false => true | _ => false end.

(** ** The phases of [fit], as section 4.2 of the specification words them

    A phase takes the recommender and gives the recommender it leaves
    together with the calls it makes, or nothing when a user it has to mark
    is not registered.  "Register any new user/item" is [validate_rec] with
    [validate_calls] above, and for a whole list [preregister_rec] with
    [preregister_calls]. *)

(** "Add the item to that user's observed set". *)
Definition mark_observed (e : Event) (r : Rec) : option Rec :=
  match users r !! index (user e) with
  | Some s => Some (set_users <[index (user e) := s ∪ {[index (item e)]}]> r)
  | None => None
  end.

(** Bootstrap: per event, register what is new, then mark; no update. *)
Fixpoint bootstrap_phase (feat : bool) (es : list Event) (r : Rec)
  : option (Rec * list Call) :=
  match es with
  | [] => Some (r, [])
  | e :: es' =>
      match mark_observed e (validate_rec feat e r) with
      | None => None
      | Some r1 =>
          match bootstrap_phase feat es' r1 with
          | None => None
          | Some (r2, cs) =>
              Some (r2, validate_calls feat e r
                          ++ CObserve (index (user e)) (index (item e)) :: cs)
          end
      end
  end.

(** Fold-in: per event, mark, then one update outside batch training. *)
Fixpoint fold_in_phase (feat : bool) (es : list Event) (r : Rec)
  : option (Rec * list Call) :=
  match es with
  | [] => Some (r, [])
  | e :: es' =>
      match mark_observed e r with
      | None => None
      | Some r1 =>
          match fold_in_phase feat es' (update_rec feat e false r1) with
          | None => None
          | Some (r2, cs) =>
              Some (r2, CObserve (index (user e)) (index (item e))
                          :: update_calls feat e false ++ cs)
          end
      end
  end.

(** The five phases, one after the other. *)
Definition fit_phased (train_events test_events : list Event) (n_epoch : nat)
    (w : World) : exn + ((list Event * list Event) * World) :=
  let feat := is_feature_rec (self w) in
  match bootstrap_phase feat train_events (init_model (rec (self w))) with
  | None => inl KeyError
  | Some (r2, boot) =>
      match batch_update train_events test_events n_epoch
              (set_rec (preregister_rec feat test_events r2)
                 ([CInitModel] ++ boot ++ preregister_calls feat test_events r2) w)
      with
      | inl x => inl x
      | inr (tr, w4) =>
          match fold_in_phase feat test_events (rec (self w4)) with
          | None => inl KeyError
          | Some (r5, fold) => inr ((tr, test_events), set_rec r5 fold w4)
          end
      end
  end.

Definition add_user_of (c : Call) : option nat :=
  match c with CAddUser u _ => Some u | _ => None end.

(** ** Vocabulary for the dispatch on the variant *)

(** What the Evaluator calls at one go: an update or a recommendation
    together with the feature refreshes the selected variant puts before
    it ([update_calls], [recommend_calls]), or one call of another kind, a
    registration carrying the optional argument of the selected variant. *)
Inductive call_group (feat : bool) : list Call → Prop :=
| group_update e b : call_group feat (update_calls feat e b)
| group_recommend e cands : call_group feat (recommend_calls feat e cands)
| group_add_user u c : call_group feat [CAddUser u (opt_arg feat c)]
| group_add_item i f : call_group feat [CAddItem i (opt_arg feat f)]
| group_init_model : call_group feat [CInitModel]
| group_observe u i : call_group feat [CObserve u i]
| group_shuffle before after : call_group feat [CShuffle before after]
| group_log epoch MPR : call_group feat [CLog epoch MPR].

Definition grouped (feat : bool) (new : list Call) : Prop :=
  ∃ groups, new = concat groups ∧ Forall (call_group feat) groups.

(** A computation that, when it returns, has left the configuration alone
    and has recorded whole groups only. *)
Definition records_groups {A} (m : Ev A) : Prop :=
  ∀ w x w', m w = inr (x, w') →
    same_config w w'
    ∧ ∃ new, calls w' = calls w ++ new ∧ grouped (is_feature_rec (self w)) new.

End Evaluator.

Arguments Entity : clear implicits.
Arguments Event : clear implicits.
Arguments Rec : clear implicits.
Arguments Recommender : clear implicits.
Arguments Environment : clear implicits.
Arguments Call : clear implicits.
Arguments World : clear implicits.
Arguments Result : clear implicits.

(** ** A concrete collaborator

    A plain (or, with [feat = true], feature-aware) recommender that keeps the
    bookkeeping of the recommender base class and scores every candidate 0,
    ties broken by candidate order; an environment whose first shuffle
    reverses the list and whose clock ticks once per reading. *)

Module Baseline.

Definition Vec : Type := list Z.
Definition Val : Type := Z.
Definition Score : Type := Z.
Definition Items : Type := gset nat.      (* the registered item indices *)
Definition Env : Type := (nat * nat)%type. (* shuffles done, clock readings done *)

Definition recommender (feat : bool) : Recommender Vec Val Score Items := {|
  feature_recommender := feat;
  init_model := λ _, mkRec 0 ∅ ∅;
  is_new_user := λ u r, bool_decide (users r !! u = None);
  is_new_item := λ i r, bool_decide (i ∉ model r);
  add_user := λ u _ r, set_users <[u := ∅]> r;
  add_item := λ i _ r, mkRec (S (n_item r)) (users r) ({[i]} ∪ model r);
  update_user_feature := λ _ _ r, r;
  update_item_feature := λ _ _ r, r;
  update := λ _ _ _ _ _ r, r;
  recommend := λ _ target_i_indices _ r,
    ((target_i_indices, (λ _, 0%Z) <$> target_i_indices), r)
|}.

Definition environment : Environment Vec Val Env := {|
  np_random_shuffle := λ l g, (if Nat.even g.1 then reverse l else l, (S g.1, g.2));
  time_clock := λ g, (inject_Z (Z.of_nat g.2), (g.1, S g.2))
|}.

Definition ev (u i : nat) : Event Vec Val :=
  mkEvent (mkEntity u [Z.of_nat u]) (mkEntity i [Z.of_nat i; 7%Z]) 1%Z [].

(** A second environment: it never reorders, and its clock stands still. *)
Definition still : Environment Vec Val Env := {|
  np_random_shuffle := λ l g, (l, g);
  time_clock := λ g, (0%Q, g)
|}.

(** A freshly constructed Evaluator, and one on which [set_can_repeat(b)]
    has been called. *)
Definition fresh (feat : bool) : World Vec Val Items Env :=
  __init__ (rcm := recommender feat) (mkRec 0 ∅ ∅) (0, 0).

Definition configured (feat b : bool) : World Vec Val Items Env :=
  mkWorld (mkEvaluator (rec (self (fresh feat))) feat (Some b)) (0, 0) [CInitModel].

(** The world in which [fit [ev 0 0] [ev 0 1; ev 1 2]] calls
    [batch_evaluate]: items 0, 1, 2 and users 0, 1 are registered, user 0
    has observed item 0, user 1 nothing; repeats are not allowed. *)
Definition warm : World Vec Val Items Env :=
  mkWorld (mkEvaluator (mkRec 3 {[0 := {[0]}; 1 := ∅]} {[0; 1; 2]}) false (Some false))
          (0, 0) [].

(** [warm] with repeats allowed. *)
Definition warm_repeat : World Vec Val Items Env :=
  mkWorld (mkEvaluator (rec (self warm)) false (Some true)) (0, 0) [].

(** The caller's list objects: object 0 holds two events, object 1 one. *)
Definition lists : gmap nat (list (Event Vec Val)) :=
  {[0 := [ev 0 0; ev 0 1]; 1 := [ev 0 2]]}.

End Baseline.

Notation "x ← y ; z" := (bind y (λ x, z))
  (at level 20, y at level 100, z at level 200, only parsing) : ev_scope.
Notation "x ;; z" := (bind x (λ _, z))
  (at level 100, z at level 200, only parsing, right associativity) : ev_scope.

(** * Properties *)

(** ** Percentiles and their mean *)

Lemma percentile_in_percent pos len :
  2 ≤ len → pos < len → in_percent (percentile pos len).
Proof.
  intros Hlen Hpos. unfold percentile, in_percent.
  case_decide as Hd; [lia|]. eexists. split; [reflexivity|].
  set (d := (Z.of_nat len - 1)%Z) in *.
  assert (0 < inject_Z d)%Q as Hd0.
  { replace 0%Q with (inject_Z 0) by done. rewrite <- Zlt_Qlt. lia. }
  assert (0 <= inject_Z (Z.of_nat pos))%Q as Hp0.
  { replace 0%Q with (inject_Z 0) by done. rewrite <- Zle_Qle. lia. }
  assert (inject_Z (Z.of_nat pos) <= inject_Z d)%Q as Hpd.
  { rewrite <- Zle_Qle. lia. }
  assert (0 <= inject_Z (Z.of_nat pos) / inject_Z d)%Q as H0.
  { apply Qle_shift_div_l; [done|]. lra. }
  assert (inject_Z (Z.of_nat pos) / inject_Z d <= 1)%Q as H1.
  { apply Qle_shift_div_r; [done|]. lra. }
  split; lra.
Qed.

Lemma np_sum_in_percent (l : list float) :
  Forall in_percent l →
  ∃ s, np_sum l = Num s ∧ (0 <= s)%Q ∧ (s <= 100 * inject_Z (Z.of_nat (length l)))%Q.
Proof.
  induction 1 as [|x l (q & -> & Hq0 & Hq1) _ (s & Hs & Hs0 & Hs1)]; simpl.
  - exists 0%Q. split; [done|]. simpl length. change (inject_Z (Z.of_nat 0)) with 0%Q.
    split; lra.
  - rewrite Hs. eexists. split; [reflexivity|].
    rewrite Nat2Z.inj_succ, <- Z.add_1_r, inject_Z_plus.
    change (inject_Z 1) with 1%Q. split; lra.
Qed.

Lemma np_mean_in_percent (l : list float) :
  l ≠ [] → Forall in_percent l → in_percent (np_mean l).
Proof.
  intros Hne Hl. destruct (np_sum_in_percent l Hl) as (s & Hs & Hs0 & Hs1).
  unfold np_mean. destruct l as [|x l]; [done|]. rewrite Hs.
  eexists. split; [reflexivity|].
  set (n := inject_Z (Z.of_nat (length (x :: l)))) in *.
  assert (0 < n)%Q as Hn.
  { unfold n. replace 0%Q with (inject_Z 0) by done. rewrite <- Zlt_Qlt. simpl. lia. }
  split.
  - apply Qle_shift_div_l; [done|]. lra.
  - apply Qle_shift_div_r; [done|]. lra.
Qed.

Section Properties.

Context {Vec Val Score M G : Type}.
Context {R : Recommender Vec Val Score M} {E : Environment Vec Val G}.

#[local] Open Scope ev_scope.

Implicit Types (w : World Vec Val M G) (e : Event Vec Val)
  (es : list (Event Vec Val)) (r : Rec M).

(** ** The monad *)

Lemma bind_ok {A B} (m : Ev A) (f : A → Ev B) w y w' :
  bind m f w = inr (y, w') ↔ ∃ x w1, m w = inr (x, w1) ∧ f x w1 = inr (y, w').
Proof.
  unfold bind. split.
  - destruct (m w) as [?|[x w1]]; [discriminate | eauto].
  - intros (x & w1 & -> & Hf). exact Hf.
Qed.

Lemma bind_inr {A B} (m : Ev A) (f : A → Ev B) w x w1 :
  m w = inr (x, w1) → bind m f w = f x w1.
Proof. unfold bind. by intros ->. Qed.

Lemma bind_inl {A B} (m : Ev A) (f : A → Ev B) w x :
  m w = inl x → bind m f w = inl x.
Proof. unfold bind. by intros ->. Qed.

Lemma same_config_refl w : same_config w w.
Proof. done. Qed.

Lemma same_config_trans w1 w2 w3 :
  same_config w1 w2 → same_config w2 w3 → same_config w1 w3.
Proof. intros [] []. split; congruence. Qed.

Lemma same_books_refl r : same_books r r.
Proof. done. Qed.

Lemma same_books_trans r1 r2 r3 :
  same_books r1 r2 → same_books r2 r3 → same_books r1 r3.
Proof. intros (?&?&?) (?&?&?). repeat split; intros; congruence. Qed.

(** ** __update: total; feature refreshes, then one update call *)

Lemma __update_eq e b w :
  __update e b w =
  inr (tt, mkWorld (mkEvaluator (update_rec (is_feature_rec (self w)) e b (rec (self w)))
                                (is_feature_rec (self w)) (can_repeat (self w)))
                   (env w) (calls w ++ update_calls (is_feature_rec (self w)) e b)).
Proof.
  unfold __update, bind, get_is_feature_rec, update_calls, update_rec.
  destruct w as [[r feat cr] g tr]; simpl.
  destruct feat; simpl; unfold rec_call, record, with_rec; simpl;
    by rewrite <- ?app_assoc.
Qed.

Lemma update_calls_shape feat e b :
  ∃ refresh c,
    update_calls feat e b
    = refresh ++ [CUpdate (index (user e)) (index (item e)) (value e) c b]
    ∧ Forall is_refresh refresh.
Proof.
  destruct feat; simpl.
  - eexists [_; _], _. split; [reflexivity|]. by repeat constructor.
  - eexists [], _. split; [reflexivity|]. constructor.
Qed.

Lemma update_rec_books `{!KeepsBooks} feat e b r : same_books r (update_rec feat e b r).
Proof.
  unfold update_rec. destruct feat.
  - eapply same_books_trans; [apply update_user_feature_books|].
    eapply same_books_trans; [apply update_item_feature_books|].
    apply update_books.
  - apply update_books.
Qed.

Lemma __update_eq' e b w :
  __update e b w =
  inr (tt, set_rec (update_rec (is_feature_rec (self w)) e b (rec (self w)))
                   (update_calls (is_feature_rec (self w)) e b) w).
Proof. apply __update_eq. Qed.

(** ** __recommend: total; feature refreshes, then the recommend call *)

Lemma __recommend_eq e cands w :
  __recommend e cands w =
  inr ((recommend_out (is_feature_rec (self w)) e cands (rec (self w))).1,
       set_rec (recommend_out (is_feature_rec (self w)) e cands (rec (self w))).2
               (recommend_calls (is_feature_rec (self w)) e cands) w).
Proof.
  unfold __recommend, bind, get_is_feature_rec, recommend_calls, recommend_out,
    recommend_pre, set_rec, opt_arg.
  destruct w as [[r feat cr] g tr]; simpl.
  destruct feat; simpl; unfold rec_call, call_recommend, record, with_rec; simpl;
    by rewrite <- ?app_assoc.
Qed.

Lemma recommend_calls_shape feat e cands :
  ∃ refresh c,
    recommend_calls feat e cands = refresh ++ [CRecommend (index (user e)) cands c]
    ∧ Forall is_refresh refresh.
Proof.
  destruct feat; simpl.
  - eexists [_; _], _. split; [reflexivity|]. by repeat constructor.
  - eexists [], _. split; [reflexivity|]. constructor.
Qed.

Lemma recommend_out_books `{!KeepsBooks} feat e cands r :
  same_books r (recommend_out feat e cands r).2.
Proof.
  unfold recommend_out, recommend_pre. destruct feat.
  - eapply same_books_trans; [apply update_user_feature_books|].
    eapply same_books_trans; [apply update_item_feature_books|].
    apply recommend_books.
  - apply recommend_books.
Qed.

Lemma recommend_out_perm `{!RanksCandidates} feat e cands r :
  (recommend_out feat e cands r).1.1 ≡ₚ cands.
Proof. apply recommend_perm. Qed.

Lemma recommend_out_scores `{!RanksCandidates} feat e cands r :
  length (recommend_out feat e cands r).1.2 = length cands.
Proof. apply recommend_scores. Qed.

(** ** __validate: total; registers what is new *)

Lemma __validate_eq e w :
  __validate e w =
  inr (tt, set_rec (validate_rec (is_feature_rec (self w)) e (rec (self w)))
                   (validate_calls (is_feature_rec (self w)) e (rec (self w))) w).
Proof.
  unfold __validate, __validate_user, __validate_item, bind, get_rec,
    get_is_feature_rec, validate_calls, validate_rec, validate_user_rec,
    validate_item_rec, set_rec, opt_arg, ret.
  destruct w as [[r feat cr] g tr]; simpl.
  destruct (is_new_user (index (user e)) r) eqn:Hu; simpl.
  - destruct feat; simpl;
      (destruct (is_new_item (index (item e)) _) eqn:Hi; simpl;
       unfold rec_call, record, with_rec; simpl; by rewrite <- ?app_assoc, ?app_nil_r).
  - destruct (is_new_item (index (item e)) r) eqn:Hi; simpl.
    + destruct feat; simpl; unfold rec_call, record, with_rec; simpl; done.
    + by rewrite app_nil_r.
Qed.

Lemma validate_calls_registration feat e r :
  Forall is_registration (validate_calls feat e r).
Proof.
  unfold validate_calls. apply Forall_app. split.
  - destruct (is_new_user _ _); by repeat constructor.
  - destruct (is_new_item _ _); by repeat constructor.
Qed.

(** ** The books after validation *)

Section Books.
Context `{!KeepsBooks}.

Lemma validate_user_rec_users feat e r :
  users (validate_user_rec feat e r)
  = <[index (user e) := default ∅ (users r !! index (user e))]> (users r).
Proof.
  unfold validate_user_rec.
  destruct (is_new_user (index (user e)) r) eqn:Hu.
  - rewrite add_user_users by done.
    apply is_new_user_spec in Hu. by rewrite Hu.
  - destruct (users r !! index (user e)) as [s|] eqn:Hs.
    + simpl. by rewrite insert_id.
    + apply is_new_user_spec in Hs. congruence.
Qed.

Lemma validate_user_rec_n_item feat e r :
  n_item (validate_user_rec feat e r) = n_item r.
Proof.
  unfold validate_user_rec.
  destruct (is_new_user _ r) eqn:Hu; [by apply add_user_n_item | done].
Qed.

Lemma validate_user_rec_items feat e r j :
  is_new_item j (validate_user_rec feat e r) = is_new_item j r.
Proof.
  unfold validate_user_rec.
  destruct (is_new_user _ r) eqn:Hu; [by apply add_user_items | done].
Qed.

Lemma validate_rec_users feat e r :
  users (validate_rec feat e r)
  = <[index (user e) := default ∅ (users r !! index (user e))]> (users r).
Proof.
  unfold validate_rec, validate_item_rec.
  destruct (is_new_item _ _) eqn:Hi.
  - rewrite add_item_users by done. apply validate_user_rec_users.
  - apply validate_user_rec_users.
Qed.

Lemma validate_rec_user feat e r :
  users (validate_rec feat e r) !! index (user e)
  = Some (default ∅ (users r !! index (user e))).
Proof. rewrite validate_rec_users. apply lookup_insert_eq. Qed.

Lemma validate_rec_n_item feat e r :
  n_item (validate_rec feat e r)
  = if is_new_item (index (item e)) r then S (n_item r) else n_item r.
Proof.
  unfold validate_rec, validate_item_rec.
  rewrite validate_user_rec_items.
  destruct (is_new_item _ r) eqn:Hi.
  - rewrite add_item_n_item by by rewrite validate_user_rec_items.
    by rewrite validate_user_rec_n_item.
  - apply validate_user_rec_n_item.
Qed.

Lemma validate_rec_items feat e r j :
  is_new_item j (validate_rec feat e r)
  = is_new_item j r && bool_decide (j ≠ index (item e)).
Proof.
  unfold validate_rec, validate_item_rec.
  rewrite validate_user_rec_items.
  destruct (is_new_item (index (item e)) r) eqn:Hi.
  - rewrite add_item_items by by rewrite validate_user_rec_items.
    by rewrite validate_user_rec_items.
  - rewrite validate_user_rec_items.
    case_bool_decide as Hj; [by rewrite andb_true_r|].
    subst j. by rewrite Hi.
Qed.

Lemma validate_rec_item feat e r :
  is_new_item (index (item e)) (validate_rec feat e r) = false.
Proof.
  rewrite validate_rec_items. rewrite bool_decide_eq_false_2; [|by intros []].
  apply andb_false_r.
Qed.

(** Validation keeps the item indices dense when the event's item is known
    or carries the next free index. *)
Lemma validate_rec_dense feat e r :
  dense r → index (item e) ≤ n_item r →
  dense (validate_rec feat e r) ∧ index (item e) < n_item (validate_rec feat e r).
Proof.
  intros Hd Hle. split.
  - intros j. rewrite validate_rec_items, validate_rec_n_item.
    specialize (Hd j) as Hj. specialize (Hd (index (item e))) as Hi.
    destruct (is_new_item (index (item e)) r) eqn:Hnew.
    + assert (index (item e) = n_item r) as Heq.
      { destruct (decide (index (item e) < n_item r)) as [Hlt|]; [|lia].
        apply Hi in Hlt. congruence. }
      rewrite andb_false_iff, bool_decide_eq_false, Hj. split.
      * intros [?|Hne]; [lia|]. apply dec_stable in Hne. lia.
      * intros ?. destruct (decide (j = index (item e))); [by right; intros []|left; lia].
    + rewrite andb_false_iff, bool_decide_eq_false, Hj. split.
      * intros [?|Hne]; [done|]. apply dec_stable in Hne. subst j. by apply Hi.
      * by left.
  - rewrite validate_rec_n_item.
    destruct (is_new_item (index (item e)) r) eqn:Hnew; [lia|].
    by apply Hd.
Qed.

End Books.

(** ** Stepping through monadic code *)

Lemma bind_ret_l {A B} (x : A) (f : A → Ev B) w : bind (ret x) f w = f x w.
Proof. done. Qed.

Lemma bind_get_rec {B} (f : Rec M → Ev B) w : bind get_rec f w = f (rec (self w)) w.
Proof. done. Qed.

Lemma bind_get_is_feature_rec {B} (f : bool → Ev B) w :
  bind get_is_feature_rec f w = f (is_feature_rec (self w)) w.
Proof. done. Qed.

Lemma bind_get_can_repeat {B} (f : bool → Ev B) w b :
  can_repeat (self w) = Some b → bind get_can_repeat f w = f b w.
Proof. unfold bind, get_can_repeat. by intros ->. Qed.

Lemma bind_get_can_repeat_None {B} (f : bool → Ev B) w :
  can_repeat (self w) = None → bind get_can_repeat f w = inl AttributeError.
Proof. unfold bind, get_can_repeat. by intros ->. Qed.

Lemma bind_get_observed {B} (f : gset nat → Ev B) w u s :
  users (rec (self w)) !! u = Some s → bind (get_observed u) f w = f s w.
Proof. unfold bind, get_observed. by intros ->. Qed.

Lemma bind_get_observed_None {B} (f : gset nat → Ev B) w u :
  users (rec (self w)) !! u = None → bind (get_observed u) f w = inl KeyError.
Proof. unfold bind, get_observed. by intros ->. Qed.

Lemma bind_observed_add {B} (f : unit → Ev B) w u i s :
  users (rec (self w)) !! u = Some s →
  bind (observed_add u i) f w
  = f tt (set_rec (set_users <[u := s ∪ {[i]}]> (rec (self w))) [CObserve u i] w).
Proof. unfold bind, observed_add. by intros ->. Qed.

Lemma bind_observed_add_None {B} (f : unit → Ev B) w u i :
  users (rec (self w)) !! u = None → bind (observed_add u i) f w = inl KeyError.
Proof. unfold bind, observed_add. by intros ->. Qed.

Lemma bind_clock {B} (f : Q → Ev B) w :
  bind clock f w = f (time_clock (env w)).1 (tick w).
Proof. done. Qed.

Lemma bind___validate {B} (f : unit → Ev B) e w :
  bind (__validate e) f w
  = f tt (set_rec (validate_rec (is_feature_rec (self w)) e (rec (self w)))
                  (validate_calls (is_feature_rec (self w)) e (rec (self w))) w).
Proof. apply bind_inr, __validate_eq. Qed.

Lemma bind___update {B} (f : unit → Ev B) e b w :
  bind (__update e b) f w
  = f tt (set_rec (update_rec (is_feature_rec (self w)) e b (rec (self w)))
                  (update_calls (is_feature_rec (self w)) e b) w).
Proof. apply bind_inr, __update_eq. Qed.

Lemma bind___recommend {B} (f : list nat * list Score → Ev B) e cands w :
  bind (__recommend e cands) f w
  = f (recommend_out (is_feature_rec (self w)) e cands (rec (self w))).1
      (set_rec (recommend_out (is_feature_rec (self w)) e cands (rec (self w))).2
               (recommend_calls (is_feature_rec (self w)) e cands) w).
Proof. apply bind_inr, __recommend_eq. Qed.

Lemma bind_unobserved {B} (f : gset nat → Ev B) (b : bool) all_items u i w :
  bind (if negb b then
          bind (get_observed u) (λ observed, ret (candidates b all_items observed i))
        else ret all_items) f w
  = match unobserved_of b all_items (rec (self w)) u i with
    | Some unobserved => f unobserved w
    | None => inl KeyError
    end.
Proof.
  unfold unobserved_of. destruct b; simpl; [done|].
  unfold bind, get_observed. by destruct (users (rec (self w)) !! u).
Qed.

(** ** evaluate: one pull *)

Lemma evaluate_body_eq e w : evaluate_body e w = evaluate_body_nf e w.
Proof.
  unfold evaluate_body, evaluate_body_nf.
  rewrite bind___validate, bind_get_rec.
  destruct (can_repeat (self w)) as [b|] eqn:Hcr.
  2:{ by rewrite bind_get_can_repeat_None. }
  rewrite (bind_get_can_repeat _ _ b) by done.
  rewrite bind_unobserved. simpl.
  destruct (unobserved_of b _ _ _ _) as [unobserved|]; [|done].
  rewrite bind_clock, bind___recommend, bind_clock. simpl.
  destruct (np_where_first _ _) as [rank|]; [|done].
  destruct (users _ !! _) as [s|] eqn:Hs.
  2:{ by rewrite bind_observed_add_None. }
  rewrite (bind_observed_add _ _ _ _ s) by done.
  rewrite bind_clock, bind___update, bind_clock. simpl.
  destruct (recommend_out _ _ _ _).1.2 as [|score0 ?]; [done|].
  unfold ret, set_rec, tick. simpl. rewrite Hcr.
  by rewrite <- !app_assoc.
Qed.

(** ** Pulling from a generator *)

Lemma consume_app {A} (g1 g2 : list (Ev A)) w :
  consume (g1 ++ g2) w
  = (xs ← consume g1; ys ← consume g2; ret (xs ++ ys)) w.
Proof.
  revert w. induction g1 as [|m g1 IH]; intros w; simpl; unfold bind, ret in *.
  - destruct (consume g2 w) as [|[]]; reflexivity.
  - destruct (m w) as [|[x w1]]; [reflexivity|]. rewrite IH.
    destruct (consume g1 w1) as [|[xs w2]]; [reflexivity|].
    destruct (consume g2 w2) as [|[ys w3]]; reflexivity.
Qed.

Lemma consume_snoc_inv {A} (g : list (Ev A)) (m : Ev A) w rs' w' :
  consume (g ++ [m]) w = inr (rs', w') →
  ∃ rs x wj, rs' = rs ++ [x] ∧ consume g w = inr (rs, wj) ∧ m wj = inr (x, w').
Proof.
  rewrite consume_app. intros (rs & wj & Hg & Hm)%bind_ok.
  apply bind_ok in Hm as (ys & w2 & Hm & Hret).
  simpl in Hm. apply bind_ok in Hm as (x & w3 & Hm & Hret').
  rewrite bind_ret_l in Hret'. unfold ret in *. simplify_eq. eauto 6.
Qed.

Lemma consume_snoc {A} (g : list (Ev A)) (m : Ev A) w rs wj x w' :
  consume g w = inr (rs, wj) → m wj = inr (x, w') →
  consume (g ++ [m]) w = inr (rs ++ [x], w').
Proof.
  intros Hg Hm. rewrite consume_app.
  rewrite (bind_inr _ _ _ _ _ Hg). simpl.
  by rewrite (bind_inr _ _ _ _ _ (bind_inr _ _ _ _ _ Hm)).
Qed.

Lemma evaluate_take_S es j e :
  es !! j = Some e →
  take (S j) (evaluate es) = take j (evaluate es) ++ [evaluate_body e].
Proof.
  intros He. unfold evaluate. apply take_S_r. by rewrite list_lookup_fmap, He.
Qed.

Lemma evaluate_body_block e w res w' :
  evaluate_body e w = inr (res, w') →
  ∃ b unobserved s,
    let feat := is_feature_rec (self w) in
    let r1 := validate_rec feat e (rec (self w)) in
    let out := recommend_out feat e (elements unobserved) r1 in
    can_repeat (self w) = Some b
    ∧ unobserved_of b (set_seq 0 (n_item r1)) r1 (index (user e)) (index (item e))
      = Some unobserved
    ∧ np_where_first (index (item e)) out.1.1 = Some (rank res)
    ∧ users out.2 !! index (user e) = Some s
    ∧ head out.1.2 = Some (top1_score res)
    ∧ rec (self w')
      = update_rec feat e false
          (set_users <[index (user e) := s ∪ {[index (item e)]}]> out.2)
    ∧ same_config w w'
    ∧ calls w' = calls w ++ validate_calls feat e (rec (self w))
                   ++ recommend_calls feat e (elements unobserved)
                   ++ [CObserve (index (user e)) (index (item e))]
                   ++ update_calls feat e false.
Proof.
  rewrite evaluate_body_eq. unfold evaluate_body_nf.
  destruct (can_repeat (self w)) as [b|] eqn:Hcr; [|done].
  destruct (unobserved_of _ _ _ _ _) as [unobserved|] eqn:Hun; [|done].
  destruct (np_where_first _ _) as [rk|] eqn:Hrk; [|done].
  destruct (users _ !! _) as [s|] eqn:Hs; [|done].
  destruct (recommend_out _ _ _ _).1.2 as [|score0 ?] eqn:Hsc; [done|].
  intros [= <- <-]. exists b, unobserved, s. simpl.
  rewrite Hun, Hrk, Hs, Hsc. by repeat split.
Qed.

Lemma serve_then_learn_intro feat e r cands :
  serve_then_learn e cands
    (validate_calls feat e r ++ recommend_calls feat e cands
       ++ [CObserve (index (user e)) (index (item e))] ++ update_calls feat e false).
Proof.
  destruct (recommend_calls_shape feat e cands) as (refresh & c & -> & Hr).
  destruct (update_calls_shape feat e false) as (refresh' & c' & -> & Hr').
  exists (validate_calls feat e r), refresh, c, refresh', c'. split_and!; try done.
  - by rewrite <- !app_assoc.
  - apply validate_calls_registration.
Qed.

(** C1 — no leakage in [evaluate].  When the caller has pulled [j + 1]
    results, the world it is in was reached from the world after [j] pulls
    by the loop body of event [e = es[j]] alone, and the calls of that body
    are: registrations, the recommend call, then the mutation adding
    [e.item.index] to the observed set of [e.user.index], then the update.
    With a recommender that keeps the books, the candidates handed to
    [recommend] are computed from the observed set the user had before the
    pull ([seen]); [e.item.index] joins that set only afterwards. *)
Theorem evaluate_no_leakage es j e w rs' w' :
  es !! j = Some e →
  consume (take (S j) (evaluate es)) w = inr (rs', w') →
  ∃ rs res wj cands block,
    rs' = rs ++ [res]
    ∧ consume (take j (evaluate es)) w = inr (rs, wj)
    ∧ evaluate_body e wj = inr (res, w')
    ∧ calls w' = calls wj ++ block
    ∧ serve_then_learn e cands block
    ∧ (KeepsBooks → ∃ b,
         let seen := default ∅ (users (rec (self wj)) !! index (user e)) in
         can_repeat (self wj) = Some b
         ∧ cands = elements (candidates b (set_seq 0 (n_item (rec (self w'))))
                               seen (index (item e)))
         ∧ users (rec (self w')) !! index (user e)
           = Some (seen ∪ {[index (item e)]})).
Proof.
  intros He Hrun. rewrite (evaluate_take_S _ _ _ He) in Hrun.
  apply consume_snoc_inv in Hrun as (rs & res & wj & -> & Hpre & Hbody).
  destruct (evaluate_body_block _ _ _ _ Hbody)
    as (b & unobserved & s & Hcr & Hun & Hrk & Hs & Hsc & Hrec & Hcfg & Hcalls).
  exists rs, res, wj, (elements unobserved). eexists.
  split_and!; [done..|exact Hcalls|apply serve_then_learn_intro|].
  intros HK. exists b. simpl.
  set (feat := is_feature_rec (self wj)) in *.
  set (r1 := validate_rec feat e (rec (self wj))) in *.
  pose proof (recommend_out_books feat e (elements unobserved) r1) as (Hn & Hu & _).
  pose proof (update_rec_books feat e false
    (set_users <[index (user e) := s ∪ {[index (item e)]}]>
       (recommend_out feat e (elements unobserved) r1).2)) as (Hn' & Hu' & _).
  rewrite Hu in Hs. unfold r1 in Hs. rewrite validate_rec_user in Hs.
  injection Hs as <-.
  split_and!; [done| |].
  - rewrite Hrec, Hn'. simpl. rewrite Hn. f_equal.
    unfold unobserved_of in Hun. destruct b; simpl in *.
    + by injection Hun as <-.
    + unfold r1 in Hun at 2. rewrite validate_rec_user in Hun.
      by injection Hun as <-.
  - rewrite Hrec, Hu'. simpl. apply lookup_insert_eq.
Qed.

(** ** Positions in the ranked output *)

Lemma np_where_first_Some i (recos : list nat) pos :
  np_where_first i recos = Some pos →
  recos !! pos = Some i ∧ pos < length recos
  ∧ ∀ k, k < pos → recos !! k ≠ Some i.
Proof.
  unfold np_where_first. destruct (list_find _ recos) as [[k x]|] eqn:Hf; [|done].
  simpl. intros [= <-]. apply list_find_Some in Hf as (Hk & -> & Hmin).
  split_and!; [done|by eapply lookup_lt_Some|].
  intros j Hj Hl. by eapply Hmin.
Qed.

Lemma np_where_first_is_Some i (recos : list nat) :
  i ∈ recos → is_Some (np_where_first i recos).
Proof.
  intros Hin. unfold np_where_first.
  destruct (list_find_elem_of (λ x, x = i) recos i Hin eq_refl) as [[k x] ->].
  by eexists.
Qed.

Lemma candidates_force_included all_items observed i :
  i ∈ candidates false all_items observed i.
Proof. unfold candidates. simpl. set_solver. Qed.

(** ** evaluate: a pull that cannot fault *)

Lemma evaluate_body_runs `{!KeepsBooks, !RanksCandidates} e w b unobserved :
  let r1 := validate_rec (is_feature_rec (self w)) e (rec (self w)) in
  can_repeat (self w) = Some b →
  unobserved_of b (set_seq 0 (n_item r1)) r1 (index (user e)) (index (item e))
  = Some unobserved →
  index (item e) ∈ unobserved →
  ∃ res w', evaluate_body e w = inr (res, w').
Proof.
  intros r1 Hcr Hun Hin. rewrite evaluate_body_eq. unfold evaluate_body_nf.
  fold r1. rewrite Hcr, Hun.
  set (out := recommend_out _ e (elements unobserved) r1).
  assert (index (item e) ∈ out.1.1) as Hrecos.
  { unfold out. rewrite recommend_out_perm. by apply elem_of_elements. }
  destruct (np_where_first_is_Some _ _ Hrecos) as [rk ->].
  pose proof (recommend_out_books (is_feature_rec (self w)) e (elements unobserved) r1)
    as (_ & Hu & _).
  fold out in Hu. rewrite Hu. unfold r1 at 1. rewrite validate_rec_user.
  destruct out.1.2 as [|score0 scores] eqn:Hsc; [|by eauto].
  exfalso. apply (f_equal length) in Hsc. unfold out in Hsc.
  rewrite recommend_out_scores in Hsc. simpl in Hsc.
  apply elem_of_elements in Hin. destruct (elements unobserved); [|done].
  by apply elem_of_nil in Hin.
Qed.

Lemma evaluate_body_runs_no_repeat `{!KeepsBooks, !RanksCandidates} e w :
  can_repeat (self w) = Some false → ∃ res w', evaluate_body e w = inr (res, w').
Proof.
  intros Hcr. eapply evaluate_body_runs; [done| |].
  - unfold unobserved_of. by rewrite validate_rec_user.
  - apply candidates_force_included.
Qed.

Lemma evaluate_body_runs_repeat `{!KeepsBooks, !RanksCandidates} e w :
  can_repeat (self w) = Some true →
  dense (rec (self w)) → index (item e) ≤ n_item (rec (self w)) →
  ∃ res w', evaluate_body e w = inr (res, w').
Proof.
  intros Hcr Hd Hle. eapply evaluate_body_runs; [done|done|].
  apply elem_of_set_seq.
  destruct (validate_rec_dense (is_feature_rec (self w)) e _ Hd Hle) as [_ ?]. lia.
Qed.

(** C5 — rank bounds in [evaluate].  With a recommender that returns its
    candidates in some order: the result of pull [j] comes with a candidate
    set (the one the code builds after validating [e = es[j]]) that contains
    [e.item.index], the true item sits at position [rank] of the ranked
    output, and [rank < len(candidate set)].  The rank is well defined: with
    [can_repeat = False] a pull cannot fault, the true item being
    force-included whatever was observed; with [can_repeat = True] it cannot
    fault when item indices are dense and [e]'s item is known or the next
    free index, since validation has registered it by then. *)
Theorem evaluate_rank_bounds `{!RanksCandidates} es j e w rs' w' :
  es !! j = Some e →
  consume (take (S j) (evaluate es)) w = inr (rs', w') →
  (∃ rs res wj b unobserved recos,
     let r1 := validate_rec (is_feature_rec (self wj)) e (rec (self wj)) in
     rs' = rs ++ [res]
     ∧ consume (take j (evaluate es)) w = inr (rs, wj)
     ∧ can_repeat (self wj) = Some b
     ∧ unobserved_of b (set_seq 0 (n_item r1)) r1 (index (user e)) (index (item e))
       = Some unobserved
     ∧ recos = (recommend_out (is_feature_rec (self wj)) e (elements unobserved) r1).1.1
     ∧ index (item e) ∈ unobserved
     ∧ recos !! rank res = Some (index (item e))
     ∧ 0 ≤ rank res < size unobserved)
  ∧ (KeepsBooks → ∀ w0 e0,
       can_repeat (self w0) = Some false →
       index (item e0) ∈ default ∅ (unobserved_of false
           (set_seq 0 (n_item (validate_rec (is_feature_rec (self w0)) e0 (rec (self w0)))))
           (validate_rec (is_feature_rec (self w0)) e0 (rec (self w0)))
           (index (user e0)) (index (item e0)))
       ∧ ∃ res w1, evaluate_body e0 w0 = inr (res, w1))
  ∧ (KeepsBooks → ∀ w0 e0,
       can_repeat (self w0) = Some true →
       dense (rec (self w0)) → index (item e0) ≤ n_item (rec (self w0)) →
       ∃ res w1, evaluate_body e0 w0 = inr (res, w1)).
Proof.
  intros He Hrun. split_and!.
  - rewrite (evaluate_take_S _ _ _ He) in Hrun.
    apply consume_snoc_inv in Hrun as (rs & res & wj & -> & Hpre & Hbody).
    destruct (evaluate_body_block _ _ _ _ Hbody)
      as (b & unobserved & s & Hcr & Hun & Hrk & _).
    apply np_where_first_Some in Hrk as (Hat & Hlt & _).
    exists rs, res, wj, b, unobserved. eexists. simpl.
    split_and!; [done..| |exact Hat|lia|].
    + apply elem_of_elements. rewrite <- recommend_out_perm.
      by eapply list_elem_of_lookup_2.
    + rewrite recommend_out_perm in Hlt. done.
  - intros HK w0 e0 Hcr. split; [|by apply evaluate_body_runs_no_repeat].
    unfold unobserved_of. rewrite validate_rec_user. simpl.
    apply candidates_force_included.
  - intros HK w0 e0. apply evaluate_body_runs_repeat.
Qed.

(** ** Loops *)

Lemma for_each_inv {A} (I : World Vec Val M G → Prop) (l : list A) (body : A → Ev unit) :
  (∀ x w, x ∈ l → I w → ∃ w', body x w = inr (tt, w') ∧ I w') →
  ∀ w, I w → ∃ w', for_each l body w = inr (tt, w') ∧ I w'.
Proof.
  induction l as [|x l IH]; intros Hbody w HI; simpl.
  - by exists w.
  - destruct (Hbody x w) as (w1 & Hx & HI1); [by left|done|].
    rewrite (bind_inr _ _ _ _ _ Hx).
    apply IH; [|done]. intros y w2 Hy. apply Hbody. by right.
Qed.

Lemma for_each_app {A} (l1 l2 : list A) (body : A → Ev unit) w :
  for_each (l1 ++ l2) body w = (for_each l1 body ;; for_each l2 body) w.
Proof.
  revert w. induction l1 as [|x l1 IH]; intros w; simpl; [done|].
  unfold bind in *. destruct (body x w) as [|[[] w1]]; [reflexivity|]. apply IH.
Qed.

(** ** batch_evaluate *)

Lemma batch_evaluate_loop_unset all_items e es w :
  can_repeat (self w) = None →
  batch_evaluate_loop all_items (e :: es) w = inl AttributeError.
Proof. intros Hcr. simpl. by rewrite bind_get_can_repeat_None. Qed.

Lemma batch_evaluate_unset e es w :
  can_repeat (self w) = None → batch_evaluate (e :: es) w = inl AttributeError.
Proof.
  intros Hcr. unfold batch_evaluate. rewrite bind_get_rec.
  apply bind_inl. by apply batch_evaluate_loop_unset.
Qed.

Lemma batch_evaluate_loop_step all_items e es w b unobserved :
  can_repeat (self w) = Some b →
  unobserved_of b all_items (rec (self w)) (index (user e)) (index (item e))
  = Some unobserved →
  let feat := is_feature_rec (self w) in
  let out := recommend_out feat e (elements unobserved) (rec (self w)) in
  batch_evaluate_loop all_items (e :: es) w
  = match np_where_first (index (item e)) out.1.1 with
    | None => inl IndexError
    | Some pos =>
        (percentiles ← batch_evaluate_loop unobserved es;
         ret (percentile pos (length out.1.1) :: percentiles))
          (set_rec out.2 (recommend_calls feat e (elements unobserved)) w)
    end.
Proof.
  intros Hcr Hun. simpl.
  rewrite (bind_get_can_repeat _ _ b) by done.
  rewrite bind_unobserved, Hun, bind___recommend.
  by destruct (np_where_first _ _).
Qed.

Lemma batch_evaluate_loop_inv all_items es w ps w' :
  batch_evaluate_loop all_items es w = inr (ps, w') →
  ∃ steps,
    sc_event <$> steps = es
    ∧ ps = scoring_percentile <$> steps
    ∧ calls w' = calls w ++ concat (scoring_calls (is_feature_rec (self w)) <$> steps)
    ∧ Forall (λ s, np_where_first (index (item (sc_event s))) (sc_recos s)
                   = Some (sc_pos s)
                   ∧ (RanksCandidates → sc_recos s ≡ₚ sc_cands s)) steps
    ∧ same_config w w' ∧ env w' = env w
    ∧ (KeepsBooks → books_kept w w').
Proof.
  revert all_items w ps. induction es as [|e es IH]; intros all_items w ps.
  - simpl. intros [= <- <-]. exists []. simpl. rewrite app_nil_r.
    split_and!; try done.
  - destruct (can_repeat (self w)) as [b|] eqn:Hcr.
    2:{ by rewrite batch_evaluate_loop_unset. }
    destruct (unobserved_of b all_items (rec (self w)) (index (user e)) (index (item e)))
      as [unobserved|] eqn:Hun.
    2:{ simpl. rewrite (bind_get_can_repeat _ _ b) by done.
        by rewrite bind_unobserved, Hun. }
    rewrite (batch_evaluate_loop_step _ _ _ _ _ _ Hcr Hun). simpl.
    destruct (np_where_first _ _) as [pos|] eqn:Hpos; [|done].
    intros (ps' & w1 & Hloop & Hret)%bind_ok. unfold ret in Hret.
    injection Hret as <- <-.
    apply IH in Hloop as (steps & Hes & -> & Hcalls & Hsteps & Hcfg & Henv & Hbooks).
    set (feat := is_feature_rec (self w)) in *.
    set (out := recommend_out feat e (elements unobserved) (rec (self w))) in *.
    exists (mkScoring e (elements unobserved) out.1.1 pos :: steps).
    split_and!.
    + rewrite fmap_cons. by f_equal.
    + by rewrite fmap_cons.
    + rewrite Hcalls, fmap_cons. simpl. by rewrite <- app_assoc.
    + constructor; [|done]. simpl. split; [done|]. intros ?. apply recommend_out_perm.
    + destruct Hcfg as [H1 H2]. split; simpl in *; congruence.
    + by rewrite Henv.
    + intros HK. eapply same_books_trans; [|by apply Hbooks].
      simpl. apply recommend_out_books.
Qed.

(** ** Worlds reached by calls that cannot fault *)

Lemma set_rec_set_rec r1 tr1 r2 tr2 w :
  set_rec r2 tr2 (set_rec r1 tr1 w) = set_rec r2 (tr1 ++ tr2) w.
Proof. unfold set_rec. simpl. by rewrite app_assoc. Qed.

Lemma set_rec_id w : set_rec (rec (self w)) [] w = w.
Proof. destruct w as [[]]. unfold set_rec. simpl. by rewrite app_nil_r. Qed.

Lemma set_rec_config r tr w : same_config w (set_rec r tr w).
Proof. done. Qed.

Lemma for_each_update_eq es b w :
  for_each es (λ e, __update e b) w
  = inr (tt, set_rec (updates_rec (is_feature_rec (self w)) es b (rec (self w)))
                     (updates_calls (is_feature_rec (self w)) es b) w).
Proof.
  revert w. induction es as [|e es IH]; intros w; simpl.
  - unfold ret. by rewrite set_rec_id.
  - rewrite bind___update, IH. simpl. by rewrite set_rec_set_rec.
Qed.

Lemma updates_rec_books `{!KeepsBooks} feat es b r :
  same_books r (updates_rec feat es b r).
Proof.
  revert r. induction es as [|e es IH]; intros r; simpl; [done|].
  eapply same_books_trans; [apply update_rec_books|apply IH].
Qed.

Lemma updates_calls_updates feat es b :
  filter is_update (updates_calls feat es b)
  = (λ e, CUpdate (index (user e)) (index (item e)) (value e)
                  (opt_arg feat (context e)) b) <$> es.
Proof.
  unfold updates_calls. induction es as [|e es IH]; [done|].
  rewrite !fmap_cons. simpl. rewrite filter_app, IH. f_equal.
  by destruct feat.
Qed.

Lemma for_each_validate_eq es w :
  for_each es __validate w
  = inr (tt, set_rec (preregister_rec (is_feature_rec (self w)) es (rec (self w)))
                     (preregister_calls (is_feature_rec (self w)) es (rec (self w))) w).
Proof.
  revert w. induction es as [|e es IH]; intros w; simpl.
  - unfold ret. by rewrite set_rec_id.
  - rewrite bind___validate, IH. simpl. by rewrite set_rec_set_rec.
Qed.

(** ** batch_update *)

Lemma bind_shuffle {B} (f : list (Event Vec Val) → Ev B) l w :
  bind (shuffle l) f w = f (np_random_shuffle l (env w)).1 (shuffled l w).
Proof. done. Qed.

Lemma bind_for_each_update {B} (f : unit → Ev B) es b w :
  bind (for_each es (λ e, __update e b)) f w
  = f tt (set_rec (updates_rec (is_feature_rec (self w)) es b (rec (self w)))
                  (updates_calls (is_feature_rec (self w)) es b) w).
Proof. apply bind_inr, for_each_update_eq. Qed.

Lemma batch_update_loop_unset n epoch epochs train_events e es w :
  can_repeat (self w) = None →
  batch_update_loop n (epoch :: epochs) train_events (e :: es) w = inl AttributeError.
Proof.
  intros Hcr. cbn [batch_update_loop].
  destruct (decide (n ≠ 1)).
  - rewrite bind_shuffle, bind_for_each_update.
    apply bind_inl, batch_evaluate_unset. done.
  - rewrite bind_ret_l, bind_for_each_update.
    apply bind_inl, batch_evaluate_unset. done.
Qed.

Lemma batch_evaluate_inv test_events w MPR w' :
  batch_evaluate test_events w = inr (MPR, w') →
  same_config w w' ∧ env w' = env w ∧ (KeepsBooks → books_kept w w')
  ∧ ∃ steps, calls w' = calls w ++ concat (scoring_calls (is_feature_rec (self w)) <$> steps).
Proof.
  unfold batch_evaluate. rewrite bind_get_rec.
  intros (ps & w1 & Hloop & Hret)%bind_ok. unfold ret in Hret.
  injection Hret as <- <-.
  apply batch_evaluate_loop_inv in Hloop
    as (steps & _ & _ & Hcalls & _ & Hcfg & Henv & Hbooks).
  split_and!; eauto.
Qed.

Lemma scoring_calls_scoring feat (steps : list (Scoring (Vec:=Vec) (Val:=Val))) :
  Forall is_scoring_call (concat (scoring_calls feat <$> steps)).
Proof.
  apply Forall_concat, Forall_fmap, Forall_forall. intros s _. simpl.
  unfold scoring_calls, recommend_calls. destruct feat; by repeat constructor.
Qed.

Lemma batch_update_loop_inv n epochs train_events test_events w tr w' :
  batch_update_loop n epochs train_events test_events w = inr (tr, w') →
  same_config w w'
  ∧ (KeepsBooks → books_kept w w')
  ∧ (n = 1 ∨ epochs = [] → tr = train_events)
  ∧ (ShufflePermutes → tr ≡ₚ train_events).
Proof.
  revert train_events w. induction epochs as [|epoch epochs IH]; intros train_events w.
  - simpl. intros [= <- <-]. split_and!; done.
  - cbn [batch_update_loop]. intros (l & w1 & Hsh & Hrest)%bind_ok.
    rewrite bind_for_each_update in Hrest.
    apply bind_ok in Hrest as (MPR & w2 & Hev & Hrest).
    apply bind_ok in Hrest as ([] & w3 & Hlog & Hrest).
    injection Hlog as <-.
    apply batch_evaluate_inv in Hev as (Hcfg2 & _ & Hbooks2 & _).
    apply IH in Hrest as (Hcfg3 & Hbooks3 & Heq & Hperm).
    assert (same_config w w1 ∧ rec (self w1) = rec (self w)
            ∧ (n = 1 → l = train_events)
            ∧ (ShufflePermutes → l ≡ₚ train_events)) as (Hcfg1 & Hrec1 & Heq1 & Hperm1).
    { destruct (decide (n ≠ 1)).
      - unfold shuffle in Hsh. injection Hsh as <- <-.
        split_and!; [done|done|lia|]. intros HS. apply HS.
      - injection Hsh as <- <-. split_and!; done. }
    split_and!.
    + eapply same_config_trans; [exact Hcfg1|].
      eapply same_config_trans; [apply set_rec_config|].
      eapply same_config_trans; [exact Hcfg2|exact Hcfg3].
    + intros HK. unfold books_kept in *. rewrite <- Hrec1.
      eapply same_books_trans;
        [apply (updates_rec_books (is_feature_rec (self w1)) l true (rec (self w1)))|].
      eapply same_books_trans; [|by apply Hbooks3].
      by apply Hbooks2.
    + intros [->|?]; [|done]. rewrite Heq by by left. by apply Heq1.
    + intros HS. rewrite Hperm by done. by apply Hperm1.
Qed.

(** ** Runs that cannot fault *)

Section Runs.
Context `{!KeepsBooks, !RanksCandidates}.

Lemma ready_kept b test_events w w' :
  ready b test_events w → same_config w w' → books_kept w w' →
  ready b test_events w'.
Proof.
  intros (Hcr & Hu & Hi) [_ Hcr'] (Hn & Hus & _). split_and!.
  - congruence.
  - intros e He. rewrite Hus. by apply Hu.
  - intros Hb e He. rewrite Hn. by apply Hi.
Qed.

Lemma batch_evaluate_loop_runs b all_items test_events w :
  can_repeat (self w) = Some b →
  (∀ e, e ∈ test_events → is_Some (users (rec (self w)) !! index (user e))) →
  (b = true → ∀ e, e ∈ test_events → index (item e) ∈ all_items) →
  ∃ ps w', batch_evaluate_loop all_items test_events w = inr (ps, w').
Proof.
  revert all_items w. induction test_events as [|e es IH]; intros all_items w Hcr Hu Hi.
  - simpl. by eexists _, _.
  - destruct (Hu e) as [s Hs]; [by left|].
    assert (∃ unobserved,
      unobserved_of b all_items (rec (self w)) (index (user e)) (index (item e))
      = Some unobserved ∧ index (item e) ∈ unobserved
      ∧ (b = true → unobserved = all_items)) as (unobserved & Hun & Hin & Hall).
    { unfold unobserved_of. destruct b.
      - eexists. split_and!; [done| |done]. apply Hi; [done|by left].
      - rewrite Hs. eexists. split_and!; [done| |done].
        apply candidates_force_included. }
    rewrite (batch_evaluate_loop_step _ _ _ _ _ _ Hcr Hun). simpl.
    set (out := recommend_out _ e (elements unobserved) (rec (self w))).
    assert (index (item e) ∈ out.1.1) as Hrecos.
    { unfold out. rewrite recommend_out_perm. by apply elem_of_elements. }
    destruct (np_where_first_is_Some _ _ Hrecos) as [pos ->].
    destruct (IH unobserved
                (set_rec out.2 (recommend_calls (is_feature_rec (self w)) e
                                  (elements unobserved)) w))
      as (ps & w' & Hloop).
    + done.
    + intros e' He'. simpl.
      pose proof (recommend_out_books (is_feature_rec (self w)) e
                    (elements unobserved) (rec (self w))) as (_ & Hus & _).
      fold out in Hus. rewrite Hus. apply Hu. by right.
    + intros Hb e' He'. rewrite Hall by done. apply Hi; [done|by right].
    + rewrite (bind_inr _ _ _ _ _ Hloop). by eexists _, _.
Qed.

Lemma batch_evaluate_runs b test_events w :
  ready b test_events w →
  ∃ MPR w', batch_evaluate test_events w = inr (MPR, w').
Proof.
  intros (Hcr & Hu & Hi). unfold batch_evaluate. rewrite bind_get_rec.
  destruct (batch_evaluate_loop_runs b (set_seq 0 (n_item (rec (self w))))
              test_events w) as (ps & w' & Hloop); [done|done| |].
  - intros Hb e He. apply elem_of_set_seq. specialize (Hi Hb e He). lia.
  - rewrite (bind_inr _ _ _ _ _ Hloop). by eexists _, _.
Qed.

Lemma batch_update_loop_runs b n epochs train_events test_events w :
  ready b test_events w →
  ∃ tr w', batch_update_loop n epochs train_events test_events w = inr (tr, w')
           ∧ ready b test_events w'.
Proof.
  revert train_events w. induction epochs as [|epoch epochs IH];
    intros train_events w Hready.
  - simpl. by eexists _, _.
  - cbn [batch_update_loop].
    assert (∃ l w1, (if decide (n ≠ 1) then shuffle train_events
                     else ret train_events) w = inr (l, w1)
                    ∧ same_config w w1 ∧ rec (self w1) = rec (self w))
      as (l & w1 & Hsh & Hcfg1 & Hrec1).
    { destruct (decide (n ≠ 1)); by eexists _, _. }
    rewrite (bind_inr _ _ _ _ _ Hsh), bind_for_each_update.
    set (w2 := set_rec _ _ w1).
    assert (ready b test_events w2) as Hready2.
    { eapply ready_kept; [exact Hready| |].
      - eapply same_config_trans; [exact Hcfg1|apply set_rec_config].
      - unfold books_kept, w2. simpl. rewrite <- Hrec1. apply updates_rec_books. }
    destruct (batch_evaluate_runs _ _ _ Hready2) as (MPR & w3 & Hev).
    rewrite (bind_inr _ _ _ _ _ Hev).
    apply batch_evaluate_inv in Hev as (Hcfg3 & _ & Hbooks3 & _).
    unfold logger_debug. unfold bind at 1.
    apply IH. eapply ready_kept; [exact Hready2| |].
    + eapply same_config_trans; [exact Hcfg3|done].
    + by apply Hbooks3.
Qed.

End Runs.

(** ** fit: the bootstrap and fold-in loops *)

Lemma bootstrap_body_inv e w w' :
  (__validate e ;; observed_add (index (user e)) (index (item e))) w = inr (tt, w') →
  same_config w w'
  ∧ calls w' = calls w ++ validate_calls (is_feature_rec (self w)) e (rec (self w))
                 ++ [CObserve (index (user e)) (index (item e))].
Proof.
  rewrite bind___validate. unfold observed_add. simpl.
  destruct (users _ !! _) as [s|]; [|done]. intros [= <-].
  split; [done|]. simpl. by rewrite <- app_assoc.
Qed.

Lemma bootstrap_body_runs `{!KeepsBooks} e w :
  ∃ w', (__validate e ;; observed_add (index (user e)) (index (item e))) w = inr (tt, w')
        ∧ same_config w w'
        ∧ users (rec (self w')) !! index (user e)
          = Some (default ∅ (users (rec (self w)) !! index (user e))
                  ∪ {[index (item e)]}).
Proof.
  rewrite bind___validate. unfold observed_add. simpl.
  rewrite validate_rec_user. eexists. split_and!; [done..|]. simpl.
  apply lookup_insert_eq.
Qed.

Lemma fold_in_body_inv e w w' :
  (observed_add (index (user e)) (index (item e)) ;; __update e false) w = inr (tt, w') →
  same_config w w'
  ∧ calls w' = calls w ++ [CObserve (index (user e)) (index (item e))]
                 ++ update_calls (is_feature_rec (self w)) e false.
Proof.
  destruct (users (rec (self w)) !! index (user e)) as [s|] eqn:Hs.
  2:{ by rewrite bind_observed_add_None. }
  rewrite (bind_observed_add _ _ _ _ s) by done.
  rewrite __update_eq'. intros [= <-]. split; [done|].
  simpl. by rewrite <- app_assoc.
Qed.

Lemma fold_in_body_runs `{!KeepsBooks} e w :
  is_Some (users (rec (self w)) !! index (user e)) →
  ∃ w', (observed_add (index (user e)) (index (item e)) ;; __update e false) w
        = inr (tt, w')
        ∧ same_config w w'
        ∧ ∀ u, is_Some (users (rec (self w)) !! u) → is_Some (users (rec (self w')) !! u).
Proof.
  intros [s Hs]. rewrite (bind_observed_add _ _ _ _ s) by done.
  rewrite __update_eq'. eexists. split_and!; [done..|]. simpl.
  intros u Hu.
  pose proof (update_rec_books (is_feature_rec (self w)) e false
    (set_users <[index (user e) := s ∪ {[index (item e)]}]> (rec (self w))))
    as (_ & -> & _).
  simpl. rewrite lookup_insert. by case_decide.
Qed.

Lemma bootstrap_block_intro feat e r :
  bootstrap_block e (validate_calls feat e r ++ [CObserve (index (user e)) (index (item e))]).
Proof. eexists. split; [done|]. apply validate_calls_registration. Qed.

Lemma bind_rec_call {B} (g : unit → Ev B) c f w :
  bind (rec_call c f) g w = g tt (set_rec (f (rec (self w))) [c] w).
Proof. done. Qed.

Lemma fit_unfold train_events test_events n w out w' :
  fit train_events test_events n w = inr (out, w') ↔
  ∃ w2 w3 w4 tr,
    for_each train_events
      (λ e, __validate e ;; observed_add (index (user e)) (index (item e)))
      (set_rec (init_model (rec (self w))) [CInitModel] w) = inr (tt, w2)
    ∧ for_each test_events __validate w2 = inr (tt, w3)
    ∧ batch_update train_events test_events n w3 = inr (tr, w4)
    ∧ for_each test_events
        (λ e, observed_add (index (user e)) (index (item e)) ;; __update e false) w4
      = inr (tt, w')
    ∧ out = (tr, test_events).
Proof.
  unfold fit. rewrite bind_rec_call.
  split.
  - intros ([] & w2 & H2 & Hrest)%bind_ok.
    apply bind_ok in Hrest as ([] & w3 & H3 & Hrest).
    apply bind_ok in Hrest as (tr & w4 & H4 & Hrest).
    apply bind_ok in Hrest as ([] & w5 & H5 & Hret).
    unfold ret in Hret. injection Hret as <- <-. eauto 10.
  - intros (w2 & w3 & w4 & tr & H2 & H3 & H4 & H5 & ->).
    rewrite (bind_inr _ _ _ _ _ H2), (bind_inr _ _ _ _ _ H3),
      (bind_inr _ _ _ _ _ H4), (bind_inr _ _ _ _ _ H5). done.
Qed.

(** ** The repeat policy is never defaulted *)

Lemma evaluate_body_unset e w :
  can_repeat (self w) = None → evaluate_body e w = inl AttributeError.
Proof. intros Hcr. rewrite evaluate_body_eq. unfold evaluate_body_nf. by rewrite Hcr. Qed.

Lemma bootstrap_runs `{!KeepsBooks} train_events w :
  ∃ w', for_each train_events
          (λ e, __validate e ;; observed_add (index (user e)) (index (item e))) w
        = inr (tt, w')
        ∧ same_config w w'.
Proof.
  apply (for_each_inv (λ w', same_config w w')); [|done].
  intros e w1 _ Hcfg. destruct (bootstrap_body_runs e w1) as (w2 & Hrun & Hcfg' & _).
  exists w2. split; [done|]. by eapply same_config_trans.
Qed.

Lemma fit_unset `{!KeepsBooks} train_events e es n w :
  can_repeat (self w) = None → 1 ≤ n →
  fit train_events (e :: es) n w = inl AttributeError.
Proof.
  intros Hcr Hn. unfold fit. rewrite bind_rec_call.
  destruct (bootstrap_runs train_events
              (set_rec (init_model (rec (self w))) [CInitModel] w))
    as (w2 & H2 & [_ Hcr2]).
  rewrite (bind_inr _ _ _ _ _ H2).
  rewrite (bind_inr _ _ _ _ _ (for_each_validate_eq _ _)).
  apply bind_inl. unfold batch_update.
  destruct n as [|n]; [lia|]. simpl seq.
  apply batch_update_loop_unset. simpl in *. congruence.
Qed.

(** C10 (as amended) — a missing repeat policy is an error, not a default.
    In a world where [set_can_repeat] never ran: [fit] with a non-empty test
    set and at least one epoch, [batch_evaluate] with a non-empty test set,
    and the first pull from [evaluate] on a non-empty stream all raise
    [AttributeError].  ([fit] with zero epochs never reads the attribute.) *)
Theorem unset_can_repeat_faults train_events e es n w :
  can_repeat (self w) = None →
  (KeepsBooks → 1 ≤ n → fit train_events (e :: es) n w = inl AttributeError)
  ∧ batch_evaluate (e :: es) w = inl AttributeError
  ∧ (∀ k, consume (take (S k) (evaluate (e :: es))) w = inl AttributeError).
Proof.
  intros Hcr. split_and!.
  - intros HK Hn. by apply fit_unset.
  - by apply batch_evaluate_unset.
  - intros k. simpl. apply bind_inl. by apply evaluate_body_unset.
Qed.

(** ** Pre-registration *)

Section Preregistration.
Context `{!KeepsBooks}.

Lemma preregister_rec_users feat es r u :
  users (preregister_rec feat es r) !! u
  = if decide (u ∈ (λ e, index (user e)) <$> es)
    then Some (default ∅ (users r !! u)) else users r !! u.
Proof.
  revert r. induction es as [|e es IH]; intros r.
  - rewrite fmap_nil, decide_False; [done|apply not_elem_of_nil].
  - cbn [preregister_rec]. rewrite IH, validate_rec_users, fmap_cons.
    destruct (decide (u = index (user e))) as [->|Hne].
    + rewrite lookup_insert_eq. simpl.
      rewrite (decide_True (P := _ ∈ _ :: _)) by by left.
      by case_decide.
    + rewrite lookup_insert_ne by done.
      case_decide as Hin.
      * rewrite decide_True; [done|by right].
      * rewrite decide_False; [done|]. intros [?|?]%elem_of_cons; done.
Qed.

Lemma preregister_rec_items feat es r j :
  is_new_item j (preregister_rec feat es r)
  = is_new_item j r && bool_decide (j ∉ (λ e, index (item e)) <$> es).
Proof.
  revert r. induction es as [|e es IH]; intros r.
  - rewrite fmap_nil, bool_decide_eq_true_2; [by rewrite andb_true_r|].
    apply not_elem_of_nil.
  - cbn [preregister_rec]. rewrite IH, validate_rec_items, fmap_cons, <- andb_assoc.
    f_equal. apply eq_true_iff_eq.
    rewrite andb_true_iff, !bool_decide_eq_true, not_elem_of_cons. done.
Qed.


End Preregistration.

(** ** Empty inputs *)


Lemma bind_logger_debug {B} (f : unit → Ev B) epoch MPR w :
  bind (logger_debug epoch MPR) f w = f tt (record (CLog epoch MPR) w).
Proof. done. Qed.



(** ** A single epoch *)

Lemma filter_none {A} (P Q : A → bool) (l : list A) :
  Forall P l → (∀ x, P x → ¬ Q x) → filter Q l = [].
Proof.
  intros Hl HPQ. induction Hl as [|x l Hx _ IH]; [done|].
  rewrite filter_cons_False; [done|]. by apply HPQ.
Qed.

Lemma updates_calls_no_shuffle feat es b :
  filter is_shuffle (updates_calls feat es b) = [].
Proof.
  unfold updates_calls. induction es as [|e es IH]; [done|].
  rewrite fmap_cons. simpl. rewrite filter_app, IH. by destruct feat.
Qed.

Lemma single_epoch_block feat es (steps : list (Scoring (Vec:=Vec) (Val:=Val))) MPR :
  let block := updates_calls feat es true
                 ++ concat (scoring_calls feat <$> steps) ++ [CLog 1 MPR] in
  filter is_update block
  = (λ e, CUpdate (index (user e)) (index (item e)) (value e)
            (opt_arg feat (context e)) true) <$> es
  ∧ filter is_shuffle block = [].
Proof.
  simpl. split.
  - rewrite !filter_app, updates_calls_updates.
    rewrite (filter_none is_scoring_call is_update);
      [by rewrite app_nil_r|apply scoring_calls_scoring|intros []; simpl; tauto].
  - rewrite !filter_app, updates_calls_no_shuffle.
    rewrite (filter_none is_scoring_call is_shuffle);
      [done|apply scoring_calls_scoring|intros []; simpl; tauto].
Qed.

Lemma batch_update_single_epoch train_events test_events w tr w' :
  batch_update train_events test_events 1 w = inr (tr, w') →
  tr = train_events
  ∧ ∃ steps MPR,
      calls w' = calls w
                   ++ updates_calls (is_feature_rec (self w)) train_events true
                   ++ concat (scoring_calls (is_feature_rec (self w)) <$> steps)
                   ++ [CLog 1 MPR].
Proof.
  unfold batch_update. simpl. rewrite bind_ret_l, bind_for_each_update.
  intros (MPR & w1 & Hev & Hrest)%bind_ok.
  rewrite bind_logger_debug in Hrest. unfold ret in Hrest. injection Hrest as <- <-.
  split; [done|].
  apply batch_evaluate_inv in Hev as (_ & _ & _ & steps & Hcalls).
  exists steps, MPR. simpl. rewrite Hcalls. simpl. by rewrite <- !app_assoc.
Qed.

End Properties.

(** * Determinism of a single-epoch run *)

Section Determinism.

Context {Vec Val Score M G : Type}.
Context {R : Recommender Vec Val Score M}.

#[local] Open Scope ev_scope.

Implicit Types (w : World Vec Val M G) (e : Event Vec Val)
  (es : list (Event Vec Val)).

Lemma indist_ret {A B} (Rel : A → B → Prop) x y :
  Rel x y → indist (Vec:=Vec) (Val:=Val) (M:=M) (G:=G) Rel (ret x) (ret y).
Proof. intros HR w1 w2 Hlow. by split. Qed.

Lemma indist_bind {A1 A2 B1 B2} (RelA : A1 → A2 → Prop) (RelB : B1 → B2 → Prop)
    (m1 : Ev A1) (m2 : Ev A2) (f1 : A1 → Ev B1) (f2 : A2 → Ev B2) :
  indist (Vec:=Vec) (Val:=Val) (M:=M) (G:=G) RelA m1 m2 →
  (∀ x y, RelA x y → indist RelB (f1 x) (f2 y)) →
  indist RelB (bind m1 f1) (bind m2 f2).
Proof.
  intros Hm Hf w1 w2 Hlow. specialize (Hm w1 w2 Hlow). unfold bind, agree in *.
  destruct (m1 w1) as [x1|[a1 w1']], (m2 w2) as [x2|[a2 w2']]; try done.
  destruct Hm as [HR Hlow']. by apply Hf.
Qed.

Lemma indist_raise {A B} (Rel : A → B → Prop) x :
  indist (Vec:=Vec) (Val:=Val) (M:=M) (G:=G) Rel (raise x) (raise x).
Proof. by intros w1 w2 _. Qed.

Lemma low_bind {A B} (m : @Ev Vec Val M G A) (f : A → @Ev Vec Val M G B) :
  low m → (∀ x, low (f x)) → low (bind m f).
Proof. intros Hm Hf. eapply indist_bind; [exact Hm|]. intros x ? <-. apply Hf. Qed.

Lemma low_ret {A} (x : A) : low (Vec:=Vec) (Val:=Val) (M:=M) (G:=G) (ret x).
Proof. by apply indist_ret. Qed.

Lemma low_get_rec : low (Vec:=Vec) (Val:=Val) (G:=G) (get_rec (M:=M)).
Proof. intros w1 w2 [Hs Hc]. simpl. by rewrite Hs. Qed.

Lemma low_get_can_repeat : low (Vec:=Vec) (Val:=Val) (M:=M) (G:=G) get_can_repeat.
Proof.
  intros w1 w2 [Hs Hc]. unfold get_can_repeat. rewrite Hs.
  by destruct (can_repeat (self w2)).
Qed.

Lemma low_get_observed u : low (Vec:=Vec) (Val:=Val) (M:=M) (G:=G) (get_observed u).
Proof.
  intros w1 w2 [Hs Hc]. unfold get_observed. rewrite Hs.
  by destruct (users (rec (self w2)) !! u).
Qed.

Lemma low_eq_set_rec r tr w1 w2 :
  low_eq w1 w2 → low_eq (set_rec r tr w1) (set_rec r tr w2).
Proof. intros [Hs Hc]. split; simpl; by rewrite ?Hs, ?Hc. Qed.

Lemma low_observed_add u i : low (Vec:=Vec) (Val:=Val) (M:=M) (G:=G) (observed_add u i).
Proof.
  intros w1 w2 [Hs Hc]. unfold observed_add. rewrite Hs.
  destruct (users (rec (self w2)) !! u); [|done].
  split; [done|]. split; simpl; by rewrite ?Hs, ?Hc.
Qed.

Lemma low_logger_debug epoch MPR :
  low (Vec:=Vec) (Val:=Val) (M:=M) (G:=G) (logger_debug epoch MPR).
Proof. intros w1 w2 [Hs Hc]. split; [done|]. split; simpl; by rewrite ?Hs, ?Hc. Qed.

Lemma low_rec_call c f : low (Vec:=Vec) (Val:=Val) (M:=M) (G:=G) (rec_call c f).
Proof. intros w1 w2 [Hs Hc]. split; [done|]. split; simpl; by rewrite ?Hs, ?Hc. Qed.

Lemma low___update e b : low (G:=G) (__update e b).
Proof.
  intros w1 w2 [Hs Hc]. rewrite !__update_eq'. split; [done|].
  rewrite Hs. by apply low_eq_set_rec.
Qed.

Lemma low___recommend e cands : low (G:=G) (__recommend e cands).
Proof.
  intros w1 w2 [Hs Hc]. rewrite !__recommend_eq. rewrite Hs. split; [done|].
  by apply low_eq_set_rec.
Qed.

Lemma low___validate e : low (G:=G) (__validate e).
Proof.
  intros w1 w2 [Hs Hc]. rewrite !__validate_eq. rewrite Hs. split; [done|].
  by apply low_eq_set_rec.
Qed.

Lemma low_for_each {A} (l : list A) (body : A → @Ev Vec Val M G unit) :
  (∀ x, low (body x)) → low (for_each l body).
Proof.
  intros Hbody. induction l as [|x l IH]; simpl.
  - apply low_ret.
  - apply low_bind; [apply Hbody|]. by intros _.
Qed.

Lemma low_batch_evaluate_loop all_items es :
  low (G:=G) (batch_evaluate_loop all_items es).
Proof.
  revert all_items. induction es as [|e es IH]; intros all_items; simpl.
  - apply low_ret.
  - apply low_bind; [apply low_get_can_repeat|]. intros b.
    apply low_bind.
    { destruct b; simpl; [apply low_ret|].
      apply low_bind; [apply low_get_observed|]. intros s. apply low_ret. }
    intros unobserved. apply low_bind; [apply low___recommend|]. intros out.
    destruct (np_where_first _ _); [|apply indist_raise].
    apply low_bind; [apply IH|]. intros ps. apply low_ret.
Qed.

Lemma low_batch_evaluate es : low (G:=G) (batch_evaluate es).
Proof.
  unfold batch_evaluate. apply low_bind; [apply low_get_rec|]. intros r.
  apply low_bind; [apply low_batch_evaluate_loop|]. intros ps. apply low_ret.
Qed.

(** ** Two environments *)

Section TwoRuns.
Variables E1 E2 : Environment Vec Val G.

Lemma indist_clock :
  indist (M:=M) (λ _ _, True) (clock (envr:=E1)) (clock (envr:=E2)).
Proof. intros w1 w2 [Hs Hc]. by split. Qed.

Lemma indist_batch_update_1 train_events test_events :
  indist eq (batch_update (envr:=E1) train_events test_events 1)
            (batch_update (envr:=E2) train_events test_events 1).
Proof.
  unfold batch_update. simpl.
  apply (indist_bind eq); [by apply indist_ret|]. intros l ? <-.
  apply low_bind; [apply low_for_each; intros e; apply low___update|]. intros _.
  apply low_bind; [apply low_batch_evaluate|]. intros MPR.
  apply low_bind; [apply low_logger_debug|]. intros _. apply low_ret.
Qed.

Lemma indist_fit_1 train_events test_events :
  indist eq (fit (envr:=E1) train_events test_events 1)
            (fit (envr:=E2) train_events test_events 1).
Proof.
  unfold fit.
  apply low_bind; [apply low_rec_call|]. intros _.
  apply low_bind.
  { apply low_for_each. intros e.
    apply low_bind; [apply low___validate|]. intros _. apply low_observed_add. }
  intros _. apply low_bind; [apply low_for_each; intros e; apply low___validate|].
  intros _. apply (indist_bind eq); [apply indist_batch_update_1|].
  intros tr ? <-. apply low_bind.
  { apply low_for_each. intros e.
    apply low_bind; [apply low_observed_add|]. intros _. apply low___update. }
  intros _. apply low_ret.
Qed.

Lemma indist_evaluate_body e :
  indist (λ r1 r2, rank_and_score r1 = rank_and_score r2)
         (evaluate_body (envr:=E1) e) (evaluate_body (envr:=E2) e).
Proof.
  unfold evaluate_body.
  apply (indist_bind eq); [apply low___validate|]. intros _ ? <-.
  apply (indist_bind eq); [apply low_get_rec|]. intros r ? <-.
  apply (indist_bind eq); [apply low_get_can_repeat|]. intros b ? <-.
  apply (indist_bind eq).
  { destruct b; simpl; [apply low_ret|].
    apply low_bind; [apply low_get_observed|]. intros s. apply low_ret. }
  intros unobserved ? <-.
  apply (indist_bind (λ _ _, True)); [apply indist_clock|]. intros start1 start2 _.
  apply (indist_bind eq); [apply low___recommend|]. intros out ? <-.
  apply (indist_bind (λ _ _, True)); [apply indist_clock|]. intros now1 now2 _.
  destruct (np_where_first _ _) as [rk|]; [|apply indist_raise].
  apply (indist_bind eq); [apply low_observed_add|]. intros _ ? <-.
  apply (indist_bind (λ _ _, True)); [apply indist_clock|]. intros start1' start2' _.
  apply (indist_bind eq); [apply low___update|]. intros _ ? <-.
  apply (indist_bind (λ _ _, True)); [apply indist_clock|]. intros now1' now2' _.
  destruct out.2; [apply indist_raise|]. by apply indist_ret.
Qed.

Lemma indist_consume_evaluate es :
  indist (λ rs1 rs2, rank_and_score <$> rs1 = rank_and_score <$> rs2)
         (consume (evaluate (envr:=E1) es)) (consume (evaluate (envr:=E2) es)).
Proof.
  induction es as [|e es IH]; simpl.
  - by apply indist_ret.
  - eapply indist_bind; [apply indist_evaluate_body|]. intros r1 r2 Hr.
    eapply indist_bind; [apply IH|]. intros rs1 rs2 Hrs.
    apply indist_ret. rewrite !fmap_cons. by rewrite Hr, Hrs.
Qed.

End TwoRuns.

End Determinism.

(** * Further properties of the Evaluator *)

Section Coverage.

Context {Vec Val Score M G : Type}.
Context {R : Recommender Vec Val Score M} {E : Environment Vec Val G}.

#[local] Open Scope ev_scope.

Implicit Types (w : World Vec Val M G) (e : Event Vec Val)
  (es : list (Event Vec Val)) (r : Rec M).

(** ** Validation *)

(** X1 — [__validate] registers, once.  With a recommender that keeps the
    books, [__validate(e)] cannot fault; afterwards the user and the item of
    [e] are no longer new, and validating [e] again makes no call and leaves
    the world as it is. *)
Theorem validate_registers_once `{!KeepsBooks} e w :
  ∃ w1,
    __validate e w = inr (tt, w1)
    ∧ is_new_user (index (user e)) (rec (self w1)) = false
    ∧ is_new_item (index (item e)) (rec (self w1)) = false
    ∧ __validate e w1 = inr (tt, w1).
Proof.
  rewrite __validate_eq. eexists. split; [done|].
  set (feat := is_feature_rec (self w)).
  set (r1 := validate_rec feat e (rec (self w))).
  assert (is_new_user (index (user e)) r1 = false) as Hu.
  { apply not_true_is_false. rewrite is_new_user_spec.
    unfold r1. by rewrite validate_rec_user. }
  assert (is_new_item (index (item e)) r1 = false) as Hi.
  { apply validate_rec_item. }
  split_and!; [done..|].
  rewrite __validate_eq. simpl. fold feat r1.
  assert (validate_rec feat e r1 = r1) as ->.
  { unfold validate_rec, validate_user_rec, validate_item_rec. by rewrite Hu, Hi. }
  assert (validate_calls feat e r1 = []) as ->.
  { unfold validate_calls, validate_user_rec. by rewrite Hu, Hi. }
  f_equal. f_equal. unfold set_rec. simpl. by rewrite app_nil_r.
Qed.

(** X2 — [__validate] never erases history.  With a recommender that keeps
    the books, validating [e] keeps every user's observed set as it was,
    gives a new user the empty observed set, keeps every registered item
    registered, and raises [n_item] by one exactly when [e]'s item is new;
    [add_user] and [add_item] are called exactly when the user, resp. the
    item, is new. *)
Theorem validate_keeps_history `{!KeepsBooks} e w w1 :
  __validate e w = inr (tt, w1) →
  (∀ v s, users (rec (self w)) !! v = Some s → users (rec (self w1)) !! v = Some s)
  ∧ (users (rec (self w)) !! index (user e) = None →
     users (rec (self w1)) !! index (user e) = Some ∅)
  ∧ (∀ v, v ≠ index (user e) → users (rec (self w1)) !! v = users (rec (self w)) !! v)
  ∧ (∀ j, is_new_item j (rec (self w)) = false → is_new_item j (rec (self w1)) = false)
  ∧ n_item (rec (self w1))
    = (if is_new_item (index (item e)) (rec (self w))
       then S (n_item (rec (self w))) else n_item (rec (self w)))
  ∧ ∃ new,
      calls w1 = calls w ++ new
      ∧ ((∃ o, CAddUser (index (user e)) o ∈ new)
         ↔ is_new_user (index (user e)) (rec (self w)) = true)
      ∧ ((∃ o, CAddItem (index (item e)) o ∈ new)
         ↔ is_new_item (index (item e)) (rec (self w)) = true)
      ∧ length new ≤ 2.
Proof.
  rewrite __validate_eq. intros [= <-]. simpl.
  set (feat := is_feature_rec (self w)). set (r := rec (self w)).
  split_and!.
  - intros v s Hs. rewrite validate_rec_users.
    destruct (decide (v = index (user e))) as [->|Hne].
    + rewrite lookup_insert_eq. by rewrite Hs.
    + by rewrite lookup_insert_ne.
  - intros Hnone. rewrite validate_rec_user. by rewrite Hnone.
  - intros v Hne. rewrite validate_rec_users. by rewrite lookup_insert_ne.
  - intros j Hj. rewrite validate_rec_items. by rewrite Hj.
  - apply validate_rec_n_item.
  - exists (validate_calls feat e r). split; [done|].
    unfold validate_calls. rewrite validate_user_rec_items.
    destruct (is_new_user (index (user e)) r) eqn:Hu,
             (is_new_item (index (item e)) r) eqn:Hi; simpl;
      (split_and!; [| |lia]); (split; [|intros ?; try done; eexists]);
      try (intros [o Hin]; exfalso;
           repeat (apply elem_of_cons in Hin as [Hin|Hin]; [discriminate Hin|]);
           by apply elem_of_nil in Hin);
      try done; try (by left); by right; left.
Qed.

(** ** Once the repeat policy is set *)

Lemma policy_safe_ret {A} (x : A) : policy_safe (Vec:=Vec) (Val:=Val) (M:=M) (G:=G) (ret x).
Proof. by intros w Hw. Qed.

Lemma policy_safe_bind {A B} (m : @Ev Vec Val M G A) (f : A → @Ev Vec Val M G B) :
  policy_safe m → (∀ x, policy_safe (f x)) → policy_safe (bind m f).
Proof.
  intros Hm Hf w Hw. specialize (Hm w Hw). unfold bind.
  destruct (m w) as [x|[a w1]]; [done|]. by apply Hf.
Qed.

Lemma policy_safe_for_each {A} (l : list A) (body : A → @Ev Vec Val M G unit) :
  (∀ x, policy_safe (body x)) → policy_safe (for_each l body).
Proof.
  intros Hbody. induction l as [|x l IH]; simpl.
  - apply policy_safe_ret.
  - apply policy_safe_bind; [apply Hbody|]. by intros _.
Qed.

Lemma policy_safe_consume {A} (gen : list (@Ev Vec Val M G A)) :
  Forall policy_safe gen → policy_safe (consume gen).
Proof.
  induction 1 as [|m gen Hm _ IH]; simpl.
  - apply policy_safe_ret.
  - apply policy_safe_bind; [done|]. intros x.
    apply policy_safe_bind; [done|]. intros xs. apply policy_safe_ret.
Qed.

(** Actions that return in a world with the same policy, or raise something
    other than [AttributeError]. *)
Lemma policy_safe_kept {A} (m : @Ev Vec Val M G A) :
  (∀ w, match m w with
        | inl x => x ≠ AttributeError
        | inr (_, w') => can_repeat (self w') = can_repeat (self w)
        end) →
  policy_safe m.
Proof.
  intros Hm w Hw. specialize (Hm w). destruct (m w) as [x|[a w1]]; [done|].
  by rewrite Hm.
Qed.

Lemma policy_safe_get_can_repeat :
  policy_safe (Vec:=Vec) (Val:=Val) (M:=M) (G:=G) get_can_repeat.
Proof. intros w [b Hb]. unfold get_can_repeat. rewrite Hb. by eexists. Qed.

Lemma policy_safe_get_observed u :
  policy_safe (Vec:=Vec) (Val:=Val) (M:=M) (G:=G) (get_observed u).
Proof.
  apply policy_safe_kept. intros w. unfold get_observed.
  by destruct (users _ !! u).
Qed.

Lemma policy_safe_observed_add u i :
  policy_safe (Vec:=Vec) (Val:=Val) (M:=M) (G:=G) (observed_add u i).
Proof.
  apply policy_safe_kept. intros w. unfold observed_add.
  by destruct (users _ !! u).
Qed.

Lemma policy_safe_unobserved (b : bool) all_items u i :
  policy_safe (Vec:=Vec) (Val:=Val) (M:=M) (G:=G)
    (if negb b then
       bind (get_observed u) (λ observed, ret (candidates b all_items observed i))
     else ret all_items).
Proof.
  destruct b; simpl; [apply policy_safe_ret|].
  apply policy_safe_bind; [apply policy_safe_get_observed|]. intros s.
  apply policy_safe_ret.
Qed.

Lemma policy_safe___update e b : policy_safe (G:=G) (__update e b).
Proof. apply policy_safe_kept. intros w. by rewrite __update_eq'. Qed.

Lemma policy_safe___recommend e cands : policy_safe (G:=G) (__recommend e cands).
Proof. apply policy_safe_kept. intros w. by rewrite __recommend_eq. Qed.

Lemma policy_safe___validate e : policy_safe (G:=G) (__validate e).
Proof. apply policy_safe_kept. intros w. by rewrite __validate_eq. Qed.

Lemma policy_safe_batch_evaluate_loop all_items es :
  policy_safe (G:=G) (batch_evaluate_loop all_items es).
Proof.
  revert all_items. induction es as [|e es IH]; intros all_items; simpl.
  - apply policy_safe_ret.
  - apply policy_safe_bind; [apply policy_safe_get_can_repeat|]. intros b.
    apply policy_safe_bind; [apply policy_safe_unobserved|]. intros unobserved.
    apply policy_safe_bind; [apply policy_safe___recommend|]. intros out.
    destruct (np_where_first _ _); [|by intros w Hw].
    apply policy_safe_bind; [apply IH|]. intros ps. apply policy_safe_ret.
Qed.

Lemma policy_safe_batch_evaluate es : policy_safe (G:=G) (batch_evaluate es).
Proof.
  unfold batch_evaluate. apply policy_safe_bind; [by apply policy_safe_kept|].
  intros r. apply policy_safe_bind; [apply policy_safe_batch_evaluate_loop|].
  intros ps. apply policy_safe_ret.
Qed.

Lemma policy_safe_batch_update_loop n epochs train_events test_events :
  policy_safe (batch_update_loop n epochs train_events test_events).
Proof.
  revert train_events. induction epochs as [|epoch epochs IH]; intros train_events;
    cbn [batch_update_loop].
  - apply policy_safe_ret.
  - apply policy_safe_bind.
    { destruct (decide (n ≠ 1)); [by apply policy_safe_kept|apply policy_safe_ret]. }
    intros l. apply policy_safe_bind.
    { apply policy_safe_for_each. intros e. apply policy_safe___update. }
    intros _. apply policy_safe_bind; [apply policy_safe_batch_evaluate|]. intros MPR.
    apply policy_safe_bind; [by apply policy_safe_kept|]. intros _. apply IH.
Qed.

Lemma policy_safe_fit train_events test_events n :
  policy_safe (fit train_events test_events n).
Proof.
  unfold fit. apply policy_safe_bind; [by apply policy_safe_kept|].
  intros _. apply policy_safe_bind.
  { apply policy_safe_for_each. intros e.
    apply policy_safe_bind; [apply policy_safe___validate|]. intros _.
    apply policy_safe_observed_add. }
  intros _. apply policy_safe_bind.
  { apply policy_safe_for_each. intros e. apply policy_safe___validate. }
  intros _. apply policy_safe_bind; [apply policy_safe_batch_update_loop|]. intros tr.
  apply policy_safe_bind.
  { apply policy_safe_for_each. intros e.
    apply policy_safe_bind; [apply policy_safe_observed_add|]. intros _.
    apply policy_safe___update. }
  intros _. apply policy_safe_ret.
Qed.

Lemma policy_safe_clock : policy_safe (Vec:=Vec) (Val:=Val) (M:=M) (G:=G) clock.
Proof. by apply policy_safe_kept. Qed.

Lemma policy_safe_evaluate_body e : policy_safe (evaluate_body e).
Proof.
  unfold evaluate_body.
  apply policy_safe_bind; [apply policy_safe___validate|]. intros _.
  apply policy_safe_bind; [by apply policy_safe_kept|]. intros r.
  apply policy_safe_bind; [apply policy_safe_get_can_repeat|]. intros b.
  apply policy_safe_bind; [apply policy_safe_unobserved|]. intros unobserved.
  apply policy_safe_bind; [apply policy_safe_clock|]. intros start.
  apply policy_safe_bind; [apply policy_safe___recommend|]. intros out.
  apply policy_safe_bind; [apply policy_safe_clock|]. intros now.
  destruct (np_where_first _ _); [|by intros w Hw].
  apply policy_safe_bind; [apply policy_safe_observed_add|]. intros _.
  apply policy_safe_bind; [apply policy_safe_clock|]. intros start'.
  apply policy_safe_bind; [apply policy_safe___update|]. intros _.
  apply policy_safe_bind; [apply policy_safe_clock|]. intros now'.
  destruct out.2; [by intros w Hw|apply policy_safe_ret].
Qed.

Lemma policy_safe_no_attr {A} (m : @Ev Vec Val M G A) w :
  policy_safe m → is_Some (can_repeat (self w)) → m w ≠ inl AttributeError.
Proof. intros Hm Hw Hrun. specialize (Hm w Hw). by rewrite Hrun in Hm. Qed.

(** X4 — [set_can_repeat] settles the policy.  [set_can_repeat(b)] stores
    [b] (overwriting any earlier value) and touches nothing else; from then
    on neither [fit], nor [batch_evaluate], nor any number of pulls from
    [evaluate] raises [AttributeError]. *)
Theorem set_can_repeat_settles b w train_events test_events n es k :
  ∃ w1,
    set_can_repeat b w = inr (tt, w1)
    ∧ can_repeat (self w1) = Some b
    ∧ rec (self w1) = rec (self w)
    ∧ is_feature_rec (self w1) = is_feature_rec (self w)
    ∧ calls w1 = calls w ∧ env w1 = env w
    ∧ fit train_events test_events n w1 ≠ inl AttributeError
    ∧ batch_evaluate test_events w1 ≠ inl AttributeError
    ∧ consume (take k (evaluate es)) w1 ≠ inl AttributeError.
Proof.
  eexists. split; [reflexivity|]. split_and!; try done.
  - apply policy_safe_no_attr; [apply policy_safe_fit|by eexists].
  - apply policy_safe_no_attr; [apply policy_safe_batch_evaluate|by eexists].
  - apply policy_safe_no_attr; [|by eexists].
    apply policy_safe_consume, Forall_take. unfold evaluate.
    apply Forall_fmap, Forall_forall. intros e _. apply policy_safe_evaluate_body.
Qed.

(** ** batch_evaluate, iteration by iteration *)

Lemma batch_evaluate_loop_scored b all_items es w ps w' :
  can_repeat (self w) = Some b →
  batch_evaluate_loop all_items es w = inr (ps, w') →
  ∃ steps,
    scored_from b (is_feature_rec (self w)) all_items (rec (self w)) steps
    ∧ sc_event <$> steps = es
    ∧ ps = scoring_percentile <$> steps
    ∧ calls w' = calls w ++ concat (scoring_calls (is_feature_rec (self w)) <$> steps).
Proof.
  revert all_items w ps. induction es as [|e es IH]; intros all_items w ps Hcr.
  - simpl. intros [= <- <-]. exists []. rewrite app_nil_r. split_and!; try done.
    constructor.
  - destruct (unobserved_of b all_items (rec (self w)) (index (user e)) (index (item e)))
      as [unobserved|] eqn:Hun.
    2:{ simpl. rewrite (bind_get_can_repeat _ _ b) by done.
        by rewrite bind_unobserved, Hun. }
    rewrite (batch_evaluate_loop_step _ _ _ _ _ _ Hcr Hun). simpl.
    destruct (np_where_first _ _) as [pos|] eqn:Hpos; [|done].
    intros (ps' & w1 & Hloop & Hret)%bind_ok. unfold ret in Hret.
    injection Hret as <- <-.
    apply IH in Hloop as (steps & Hsc & Hes & -> & Hcalls); [|done].
    set (feat := is_feature_rec (self w)) in *.
    set (out := recommend_out feat e (elements unobserved) (rec (self w))) in *.
    exists (mkScoring e (elements unobserved) out.1.1 pos :: steps).
    split_and!.
    + by econstructor.
    + rewrite fmap_cons. by f_equal.
    + by rewrite fmap_cons.
    + rewrite Hcalls, fmap_cons. simpl. by rewrite <- app_assoc.
Qed.

Lemma scoring_calls_users feat (steps : list (Scoring (Vec:=Vec) (Val:=Val))) :
  omap recommend_user (concat (scoring_calls feat <$> steps))
  = (λ s, index (user (sc_event s))) <$> steps.
Proof.
  induction steps as [|s steps IH]; [done|].
  rewrite !fmap_cons. simpl. rewrite omap_app, IH. by destruct feat.
Qed.

Lemma scoring_calls_targets feat (steps : list (Scoring (Vec:=Vec) (Val:=Val))) :
  omap recommend_targets (concat (scoring_calls feat <$> steps)) = sc_cands <$> steps.
Proof.
  induction steps as [|s steps IH]; [done|].
  rewrite !fmap_cons. simpl. rewrite omap_app, IH. by destruct feat.
Qed.

(** X5 — [batch_evaluate] only looks.  A successful [batch_evaluate] makes
    one [recommend] call per test event, in order and for that event's
    user, and besides feature refreshes no other call: no registration, no
    update, no observed-set mutation.  It leaves the configuration and the
    environment alone, and with a recommender that keeps the books the
    observed sets, the registrations and [n_item] are as before. *)
Theorem batch_evaluate_only_looks test_events w MPR w' :
  batch_evaluate test_events w = inr (MPR, w') →
  same_config w w' ∧ env w' = env w
  ∧ (KeepsBooks → books_kept w w')
  ∧ ∃ new,
      calls w' = calls w ++ new
      ∧ Forall is_scoring_call new
      ∧ omap recommend_user new = (λ e, index (user e)) <$> test_events.
Proof.
  unfold batch_evaluate. rewrite bind_get_rec.
  intros (ps & w1 & Hloop & Hret)%bind_ok. unfold ret in Hret.
  injection Hret as <- <-.
  apply batch_evaluate_loop_inv in Hloop
    as (steps & Hes & _ & Hcalls & _ & Hcfg & Henv & Hbooks).
  split_and!; [done..|]. eexists. split; [exact Hcalls|].
  split; [apply scoring_calls_scoring|].
  rewrite scoring_calls_users, <- Hes, <- list_fmap_compose. done.
Qed.

(** ** batch_evaluate: which exception, and when *)

Lemma np_where_first_None i (recos : list nat) :
  i ∉ recos → np_where_first i recos = None.
Proof.
  intros Hnin. unfold np_where_first.
  destruct (list_find _ recos) as [[k x]|] eqn:Hf; [|done].
  apply list_find_Some in Hf as (Hk & -> & _).
  exfalso. apply Hnin. by eapply list_elem_of_lookup_2.
Qed.

Lemma batch_evaluate_loop_no_repeat `{!KeepsBooks, !RanksCandidates} all_items es w :
  can_repeat (self w) = Some false →
  match batch_evaluate_loop all_items es w with
  | inr _ => ∀ e, e ∈ es → is_Some (users (rec (self w)) !! index (user e))
  | inl x => x = KeyError
             ∧ ∃ e, e ∈ es ∧ users (rec (self w)) !! index (user e) = None
  end.
Proof.
  revert all_items w. induction es as [|e es IH]; intros all_items w Hcr.
  - simpl. intros e He. by apply elem_of_nil in He.
  - destruct (users (rec (self w)) !! index (user e)) as [obs|] eqn:Hobs.
    2:{ simpl. rewrite (bind_get_can_repeat _ _ false) by done.
        rewrite bind_unobserved. unfold unobserved_of. rewrite Hobs. simpl.
        split; [done|]. exists e. split; [by left|done]. }
    assert (unobserved_of false all_items (rec (self w)) (index (user e))
              (index (item e))
            = Some (candidates false all_items obs (index (item e)))) as Hun.
    { unfold unobserved_of. by rewrite Hobs. }
    rewrite (batch_evaluate_loop_step _ _ _ _ _ _ Hcr Hun). simpl.
    set (unobserved := candidates false all_items obs (index (item e))).
    set (out := recommend_out _ e (elements unobserved) (rec (self w))).
    assert (index (item e) ∈ out.1.1) as Hrecos.
    { unfold out. rewrite recommend_out_perm. apply elem_of_elements.
      apply candidates_force_included. }
    destruct (np_where_first_is_Some _ _ Hrecos) as [pos ->].
    set (w2 := set_rec _ _ w).
    assert (users (rec (self w2)) = users (rec (self w))) as Hus.
    { pose proof (recommend_out_books (is_feature_rec (self w)) e
                    (elements unobserved) (rec (self w))) as (_ & Hus & _).
      exact Hus. }
    specialize (IH unobserved w2 Hcr). unfold bind.
    destruct (batch_evaluate_loop unobserved es w2) as [x|[ps w3]].
    + destruct IH as (-> & e' & He' & Hnone). split; [done|].
      exists e'. split; [by right|]. by rewrite <- Hus.
    + intros e' [->|He']%elem_of_cons; [by rewrite Hobs|].
      rewrite <- Hus. by apply IH.
Qed.

Lemma batch_evaluate_loop_repeat `{!RanksCandidates} all_items es w :
  can_repeat (self w) = Some true →
  match batch_evaluate_loop all_items es w with
  | inr _ => ∀ e, e ∈ es → index (item e) ∈ all_items
  | inl x => x = IndexError ∧ ∃ e, e ∈ es ∧ index (item e) ∉ all_items
  end.
Proof.
  revert w. induction es as [|e es IH]; intros w Hcr.
  - simpl. intros e He. by apply elem_of_nil in He.
  - assert (unobserved_of true all_items (rec (self w)) (index (user e))
              (index (item e)) = Some all_items) as Hun by done.
    rewrite (batch_evaluate_loop_step _ _ _ _ _ _ Hcr Hun). simpl.
    set (out := recommend_out _ e (elements all_items) (rec (self w))).
    destruct (decide (index (item e) ∈ all_items)) as [Hin|Hnin].
    + assert (index (item e) ∈ out.1.1) as Hrecos.
      { unfold out. rewrite recommend_out_perm. by apply elem_of_elements. }
      destruct (np_where_first_is_Some _ _ Hrecos) as [pos ->].
      set (w2 := set_rec _ _ w). specialize (IH w2 Hcr). unfold bind.
      destruct (batch_evaluate_loop all_items es w2) as [x|[ps w3]].
      * destruct IH as (-> & e' & He' & Hnone). split; [done|].
        exists e'. split; [by right|done].
      * intros e' [->|He']%elem_of_cons; [done|]. by apply IH.
    + rewrite np_where_first_None.
      * split; [done|]. exists e. split; [by left|done].
      * unfold out. rewrite recommend_out_perm. by rewrite elem_of_elements.
Qed.

(** X6 — [batch_evaluate] without repeats faults only on an unknown user.
    With [can_repeat = False] and a recommender that meets its contract,
    [batch_evaluate] succeeds when every test user is registered, and raises
    [KeyError] (and nothing else) when some test user is not; the true item
    being force-included, it is always found in the ranking. *)
Theorem batch_evaluate_no_repeat_outcome `{!KeepsBooks, !RanksCandidates} test_events w :
  can_repeat (self w) = Some false →
  ((∃ MPR w', batch_evaluate test_events w = inr (MPR, w'))
   ↔ ∀ e, e ∈ test_events → is_Some (users (rec (self w)) !! index (user e)))
  ∧ (batch_evaluate test_events w = inl KeyError
     ↔ ∃ e, e ∈ test_events ∧ users (rec (self w)) !! index (user e) = None)
  ∧ batch_evaluate test_events w ≠ inl IndexError
  ∧ batch_evaluate test_events w ≠ inl AttributeError.
Proof.
  intros Hcr.
  pose proof (batch_evaluate_loop_no_repeat
                (set_seq 0 (n_item (rec (self w)))) test_events w Hcr) as Hloop.
  unfold batch_evaluate. rewrite bind_get_rec. unfold bind.
  destruct (batch_evaluate_loop _ test_events w) as [x|[ps w1]].
  - destruct Hloop as (-> & e & He & Hnone). split_and!; try done.
    + split; [by intros (? & ? & ?)|]. intros Hall.
      destruct (Hall e He) as [? ?]. congruence.
    + split; [|done]. intros _. eauto.
  - split_and!; try done.
    + split; [done|]. intros _. by eexists _, _.
    + split; [done|]. intros (e & He & Hnone).
      destruct (Hloop e He) as [? ?]. congruence.
Qed.

(** X7 — [batch_evaluate] with repeats faults only on an item index out of
    range.  With [can_repeat = True] the observed sets are not consulted
    (an unregistered user is no fault of the Evaluator's): [batch_evaluate]
    succeeds when every test item index is below [n_item], and raises
    [IndexError] (and nothing else) when one is not. *)
Theorem batch_evaluate_repeat_outcome `{!RanksCandidates} test_events w :
  can_repeat (self w) = Some true →
  ((∃ MPR w', batch_evaluate test_events w = inr (MPR, w'))
   ↔ ∀ e, e ∈ test_events → index (item e) < n_item (rec (self w)))
  ∧ (batch_evaluate test_events w = inl IndexError
     ↔ ∃ e, e ∈ test_events ∧ n_item (rec (self w)) ≤ index (item e))
  ∧ batch_evaluate test_events w ≠ inl KeyError
  ∧ batch_evaluate test_events w ≠ inl AttributeError.
Proof.
  intros Hcr.
  pose proof (batch_evaluate_loop_repeat
                (set_seq 0 (n_item (rec (self w)))) test_events w Hcr) as Hloop.
  unfold batch_evaluate. rewrite bind_get_rec. unfold bind.
  destruct (batch_evaluate_loop _ test_events w) as [x|[ps w1]].
  - destruct Hloop as (-> & e & He & Hnin). rewrite elem_of_set_seq in Hnin.
    split_and!; try done.
    + split; [by intros (? & ? & ?)|]. intros Hall. specialize (Hall e He). lia.
    + split; [|done]. intros _. exists e. split; [done|lia].
  - split_and!; try done.
    + split; [|intros _; by eexists _, _].
      intros _ e He. specialize (Hloop e He). apply elem_of_set_seq in Hloop. lia.
    + split; [done|]. intros (e & He & Hge).
      specialize (Hloop e He). apply elem_of_set_seq in Hloop. lia.
Qed.

(** ** batch_evaluate: the candidates of each event *)

Lemma scored_from_repeat feat all_items r (steps : list (Scoring (Vec:=Vec) (Val:=Val))) :
  scored_from true feat all_items r steps →
  Forall (λ s, sc_cands s = elements all_items) steps.
Proof.
  induction 1 as [|all_items r s steps unobserved Hun Hc _ _ _ IH]; [done|].
  unfold unobserved_of in Hun. injection Hun as <-. by constructor.
Qed.

Lemma scored_from_no_repeat `{!KeepsBooks} feat all_items r
    (steps : list (Scoring (Vec:=Vec) (Val:=Val))) :
  scored_from false feat all_items r steps →
  Forall (λ s, ∃ observed,
            users r !! index (user (sc_event s)) = Some observed
            ∧ ∀ c, c ∈ sc_cands s →
                c = index (item (sc_event s))
                ∨ ((c ∉ observed)
                   ∧ (c ∈ all_items
                      ∨ c ∈ (λ s', index (item (sc_event s'))) <$> steps))) steps.
Proof.
  induction 1 as [|all_items r s steps unobserved Hun Hc _ _ _ IH]; [done|].
  unfold unobserved_of in Hun.
  destruct (users r !! index (user (sc_event s))) as [obs|] eqn:Hobs; [|done].
  injection Hun as <-. constructor.
  - exists obs. split; [done|]. intros c Hin. rewrite Hc in Hin.
    apply elem_of_elements in Hin. unfold candidates in Hin. simpl in Hin.
    apply elem_of_union in Hin as [Hin|Hin].
    + apply elem_of_difference in Hin as [Hall Hno]. right. split; [done|by left].
    + apply elem_of_singleton in Hin as ->. by left.
  - pose proof (recommend_out_books feat (sc_event s) (sc_cands s) r) as (_ & Hus & _).
    eapply Forall_impl; [exact IH|]. intros s' (obs' & Hobs' & Hcs).
    exists obs'. rewrite Hus in Hobs'. split; [done|].
    intros c Hin. destruct (Hcs c Hin) as [->|[Hno Hwhere]]; [by left|].
    right. split; [done|]. rewrite fmap_cons.
    destruct Hwhere as [Hin'|Hin']; [|right; by right].
    unfold candidates in Hin'. simpl in Hin'.
    apply elem_of_union in Hin' as [Hin'|Hin'].
    + apply elem_of_difference in Hin' as [Hall _]. by left.
    + apply elem_of_singleton in Hin' as ->. right. by left.
Qed.

(** Each iteration works on what the previous one left. *)
Lemma scored_from_chain b feat all_items r (steps : list (Scoring (Vec:=Vec) (Val:=Val))) :
  scored_from b feat all_items r steps →
  ∀ k s s', steps !! k = Some s → steps !! S k = Some s' →
    ∀ c, c ∈ sc_cands s' → c ∈ sc_cands s ∨ c = index (item (sc_event s')).
Proof.
  induction 1 as [|all_items r s0 steps unobserved Hun Hc _ _ Hrest IH]; [done|].
  intros [|k] s s' Hs Hs' c Hin; simpl in *.
  - injection Hs as <-. inversion Hrest as [|? ? ? ? unobserved' Hun' Hc' _ _ _]; subst;
      [done|]. simpl in Hs'. injection Hs' as <-.
    rewrite Hc' in Hin. apply elem_of_elements in Hin.
    rewrite Hc, elem_of_elements. unfold unobserved_of in Hun'.
    destruct b.
    + injection Hun' as <-. by left.
    + destruct (users _ !! _) as [obs|]; [|done]. simpl in Hun'. injection Hun' as <-.
      unfold candidates in Hin. simpl in Hin.
      apply elem_of_union in Hin as [Hin|Hin].
      * apply elem_of_difference in Hin as [? _]. by left.
      * apply elem_of_singleton in Hin as ->. by right.
  - by eapply IH.
Qed.

(** X8 — with repeats allowed, every test event is ranked over all items.
    With [can_repeat = True] the target list of every [recommend] call of a
    successful [batch_evaluate] is the whole of [range(n_item)], as it was
    when [batch_evaluate] was entered. *)
Theorem batch_evaluate_repeat_targets test_events w MPR w' :
  can_repeat (self w) = Some true →
  batch_evaluate test_events w = inr (MPR, w') →
  ∃ new,
    calls w' = calls w ++ new
    ∧ omap recommend_targets new
      = (λ _, elements (set_seq 0 (n_item (rec (self w))) : gset nat)) <$> test_events.
Proof.
  intros Hcr. unfold batch_evaluate. rewrite bind_get_rec.
  intros (ps & w1 & Hloop & Hret)%bind_ok. unfold ret in Hret.
  injection Hret as <- <-.
  apply (batch_evaluate_loop_scored true) in Hloop
    as (steps & Hsc & Hes & _ & Hcalls); [|done].
  eexists. split; [exact Hcalls|].
  rewrite scoring_calls_targets, <- Hes, <- list_fmap_compose.
  apply Forall_fmap_ext. by apply scored_from_repeat in Hsc.
Qed.

(** X9 — without repeats, nothing observed is ranked but the true item, and
    the universe never grows back.  With [can_repeat = False] and a
    recommender that keeps the books, in a successful [batch_evaluate]: a
    candidate handed to [recommend] for a test event is the event's own
    item, or an item its user has not observed that is below [n_item] or is
    the item of some test event; and the candidates of an event are among
    those of the previous event, its own item apart. *)
Theorem batch_evaluate_no_repeat_targets `{!KeepsBooks} test_events w MPR w' :
  can_repeat (self w) = Some false →
  batch_evaluate test_events w = inr (MPR, w') →
  ∃ new targets,
    calls w' = calls w ++ new
    ∧ targets = omap recommend_targets new
    ∧ Forall2 (λ e cands, ∃ observed,
                 users (rec (self w)) !! index (user e) = Some observed
                 ∧ ∀ c, c ∈ cands →
                     c = index (item e)
                     ∨ ((c ∉ observed)
                        ∧ (c < n_item (rec (self w))
                           ∨ c ∈ (λ e', index (item e')) <$> test_events)))
        test_events targets
    ∧ ∀ k e' cands cands',
        targets !! k = Some cands → targets !! S k = Some cands' →
        test_events !! S k = Some e' →
        ∀ c, c ∈ cands' → c ∈ cands ∨ c = index (item e').
Proof.
  intros Hcr. unfold batch_evaluate. rewrite bind_get_rec.
  intros (ps & w1 & Hloop & Hret)%bind_ok. unfold ret in Hret.
  injection Hret as <- <-.
  apply (batch_evaluate_loop_scored false) in Hloop
    as (steps & Hsc & Hes & _ & Hcalls); [|done].
  eexists _, _. split; [exact Hcalls|]. split; [reflexivity|].
  rewrite scoring_calls_targets, <- Hes. split.
  - apply Forall2_fmap, Forall2_same_length_lookup. split; [done|].
    intros k s s' Hs Hs'. rewrite Hs in Hs'. injection Hs' as <-.
    apply scored_from_no_repeat in Hsc. rewrite Forall_forall in Hsc.
    destruct (Hsc s) as (obs & Hobs & Hcs); [by eapply list_elem_of_lookup_2|].
    exists obs. split; [done|]. intros c Hin.
    destruct (Hcs c Hin) as [->|[Hno Hwhere]]; [by left|]. right. split; [done|].
    destruct Hwhere as [Hall|Hitem].
    + left. apply elem_of_set_seq in Hall. lia.
    + right. by rewrite <- list_fmap_compose.
  - intros k e' cands cands' Hk HSk He' c Hin.
    apply list_lookup_fmap_Some in Hk as (s & -> & Hs).
    apply list_lookup_fmap_Some in HSk as (s' & -> & Hs').
    apply list_lookup_fmap_Some in He' as (s'' & -> & Hs'').
    rewrite Hs' in Hs''. injection Hs'' as <-.
    by eapply scored_from_chain.
Qed.

(** ** Percentiles: the degenerate case and the end points *)

Lemma np_sum_NaN (l : list float) : np_sum l = NaN ↔ NaN ∈ l.
Proof.
  induction l as [|x l IH]; simpl.
  - split; [done|]. intros Hin. by apply elem_of_nil in Hin.
  - rewrite elem_of_cons. destruct x as [a|].
    + destruct (np_sum l) as [b|] eqn:Hs.
      * split; [done|]. intros [?|Hin]; [done|]. apply IH in Hin. done.
      * split; [|done]. intros _. right. by apply IH.
    + split; [|done]. intros _. by left.
Qed.

Lemma np_mean_NaN (l : list float) : np_mean l = NaN ↔ l = [] ∨ NaN ∈ l.
Proof.
  unfold np_mean. destruct l as [|x l]; [by split; [left|]|].
  destruct (np_sum (x :: l)) as [s|] eqn:Hs.
  - split; [done|]. intros [?|Hin]; [done|]. apply np_sum_NaN in Hin. congruence.
  - split; [|done]. intros _. right. by apply np_sum_NaN.
Qed.

Lemma percentile_NaN pos len : percentile pos len = NaN ↔ len = 1.
Proof.
  unfold percentile. case_decide as Hd.
  - split; [|done]. intros _. lia.
  - split; [done|]. intros ->. by destruct Hd.
Qed.

(** X10 — a single candidate makes the MPR not-a-number.  Given a
    recommender that returns its candidates in some order, the value
    returned by [batch_evaluate] is NaN exactly when the test set is empty
    (the mean of nothing) or some test event was ranked over a single
    candidate ([0 / 0] in the percentile); it is never an exception. *)
Theorem batch_evaluate_nan `{!RanksCandidates} test_events w MPR w' :
  batch_evaluate test_events w = inr (MPR, w') →
  ∃ new,
    calls w' = calls w ++ new
    ∧ (MPR = NaN
       ↔ test_events = []
         ∨ ∃ cands, cands ∈ omap recommend_targets new ∧ length cands = 1).
Proof.
  unfold batch_evaluate. rewrite bind_get_rec.
  intros (ps & w1 & Hloop & Hret)%bind_ok. unfold ret in Hret.
  injection Hret as <- <-.
  apply batch_evaluate_loop_inv in Hloop
    as (steps & Hes & -> & Hcalls & Hsteps & _).
  eexists. split; [exact Hcalls|].
  rewrite scoring_calls_targets, np_mean_NaN, <- Hes.
  rewrite Forall_forall in Hsteps.
  split; intros [Hnil|Hsome].
  - left. apply fmap_nil_inv in Hnil. by subst.
  - right. apply list_elem_of_fmap in Hsome as (s & Hnan & Hs).
    symmetry in Hnan. apply percentile_NaN in Hnan.
    exists (sc_cands s). split; [apply list_elem_of_fmap; eauto|].
    destruct (Hsteps s Hs) as [_ Hp]. by rewrite <- Hp.
  - left. apply fmap_nil_inv in Hnil. by subst.
  - right. destruct Hsome as (cands & Hin & Hlen).
    apply list_elem_of_fmap in Hin as (s & -> & Hs).
    apply list_elem_of_fmap. exists s. split; [|done].
    symmetry. apply percentile_NaN.
    destruct (Hsteps s Hs) as [_ Hp]. by rewrite Hp.
Qed.

(** X11 — the end points of the percentile.  Over at least two candidates,
    a true item ranked first has percentile 0, one ranked last has
    percentile 100, and a better rank never has the higher percentile. *)
Theorem percentile_end_points pos pos' len :
  2 ≤ len → pos ≤ pos' → pos' < len →
  ∃ q0 q q' q1,
    percentile 0 len = Num q0 ∧ percentile pos len = Num q
    ∧ percentile pos' len = Num q' ∧ percentile (len - 1) len = Num q1
    ∧ (q0 == 0)%Q ∧ (q <= q')%Q ∧ (q1 == 100)%Q.
Proof.
  intros Hlen Hpos Hpos'. unfold percentile.
  case_decide as Hd; [lia|]. eexists _, _, _, _. split_and!; try reflexivity.
  - set (d := (Z.of_nat len - 1)%Z) in *.
    assert (0 < inject_Z d)%Q as Hd0.
    { replace 0%Q with (inject_Z 0) by done. rewrite <- Zlt_Qlt. lia. }
    assert (inject_Z (Z.of_nat pos) <= inject_Z (Z.of_nat pos'))%Q as Hle.
    { rewrite <- Zle_Qle. lia. }
    apply Qmult_le_compat_r; [|done]. unfold Qdiv.
    apply Qmult_le_compat_r; [done|]. apply Qlt_le_weak, Qinv_lt_0_compat. done.
  - replace (Z.of_nat (len - 1)) with (Z.of_nat len - 1)%Z by lia.
    set (d := (Z.of_nat len - 1)%Z) in *.
    assert (¬ (inject_Z d == 0)%Q) as Hd0.
    { replace 0%Q with (inject_Z 0) by done. rewrite inject_Z_injective. done. }
    field. done.
Qed.

(** ** batch_update: what every epoch does *)

Lemma omap_none {A B} (P : A → bool) (f : A → option B) (l : list A) :
  Forall P l → (∀ x, P x → f x = None) → omap f l = [].
Proof.
  intros Hl HP. induction Hl as [|x l Hx _ IH]; [done|].
  simpl. by rewrite (HP x Hx).
Qed.

Lemma updates_calls_updating feat es b :
  Forall (λ c, is_update c || is_refresh c) (updates_calls feat es b).
Proof.
  unfold updates_calls. apply Forall_concat, Forall_fmap, Forall_forall.
  intros e _. simpl. destruct feat; by repeat constructor.
Qed.

Lemma updates_calls_flags feat es b :
  omap update_flag (updates_calls feat es b) = (λ _, b) <$> es.
Proof.
  unfold updates_calls. induction es as [|e es IH]; [done|].
  rewrite !fmap_cons. simpl. rewrite omap_app, IH. by destruct feat.
Qed.

Lemma concat_replicate_perm {A} k (l l' : list A) :
  l ≡ₚ l' → concat (replicate k l) ≡ₚ concat (replicate k l').
Proof.
  intros Hp. induction k as [|k IH]; [done|]. simpl. by apply Permutation_app.
Qed.

Lemma filter_all {A} (P : A → bool) (l : list A) : Forall P l → filter P l = l.
Proof.
  induction 1 as [|x l Hx _ IH]; [done|]. rewrite filter_cons_True by done.
  by rewrite IH.
Qed.

Lemma fmap_const_replicate {A B} (y : B) (l : list A) :
  (λ _, y) <$> l = replicate (length l) y.
Proof. induction l as [|x l IH]; [done|]. rewrite fmap_cons, IH. done. Qed.

Lemma batch_update_loop_epochs n epochs train_events test_events w tr w' :
  batch_update_loop n epochs train_events test_events w = inr (tr, w') →
  ∃ new,
    calls w' = calls w ++ new
    ∧ omap log_epoch new = (λ epoch, epoch + 1) <$> epochs
    ∧ omap observe_pair new = []
    ∧ length (filter is_shuffle new) = (if decide (n ≠ 1) then length epochs else 0)
    ∧ omap recommend_user new
      = concat (replicate (length epochs) ((λ e, index (user e)) <$> test_events))
    ∧ (ShufflePermutes →
       omap update_flag new
       = replicate (length epochs * length train_events) true
       ∧ filter is_update new
         ≡ₚ concat (replicate (length epochs)
                      (update_call (is_feature_rec (self w)) true <$> train_events))).
Proof.
  revert train_events w. induction epochs as [|epoch epochs IH]; intros train_events w.
  - simpl. intros [= <- <-]. exists []. rewrite app_nil_r. split_and!; try done.
    by case_decide.
  - cbn [batch_update_loop]. intros (l & w1 & Hsh & Hrest)%bind_ok.
    rewrite bind_for_each_update in Hrest.
    apply bind_ok in Hrest as (MPR & w2 & Hev & Hrest).
    rewrite bind_logger_debug in Hrest.
    assert (∃ sh, calls w1 = calls w ++ sh ∧ self w1 = self w
                  ∧ Forall is_shuffle sh
                  ∧ length sh = (if decide (n ≠ 1) then 1 else 0)
                  ∧ (ShufflePermutes → l ≡ₚ train_events))
      as (sh & Hc1 & Hself1 & Hsh1 & Hlen1 & Hperm1).
    { destruct (decide (n ≠ 1)).
      - unfold shuffle in Hsh. injection Hsh as <- <-. eexists [_].
        split_and!; try done; try (by repeat constructor).
      - injection Hsh as <- <-. exists []. rewrite app_nil_r. by split_and!. }
    unfold batch_evaluate in Hev. rewrite bind_get_rec in Hev.
    apply bind_ok in Hev as (ps & w2' & Hloop & Hret). unfold ret in Hret.
    injection Hret as <- <-.
    apply batch_evaluate_loop_inv in Hloop
      as (steps & Hes & _ & Hc2 & _ & [Hfeat2 _] & _).
    simpl in Hc2, Hfeat2. rewrite Hself1 in Hc2, Hfeat2.
    apply IH in Hrest as (new' & Hc3 & Hlog & Hobs & Hshuf & Hrec & Hupd).
    simpl in Hc3. simpl in Hupd. rewrite Hfeat2 in Hupd.
    set (feat := is_feature_rec (self w)) in *.
    set (ups := updates_calls feat l true) in *.
    set (sc := concat (scoring_calls feat <$> steps)) in *.
    exists (sh ++ ups ++ sc ++ [CLog (epoch + 1) (np_mean ps)] ++ new').
    assert (Forall is_scoring_call sc) as Hsc by apply scoring_calls_scoring.
    assert (Forall (λ c, is_update c || is_refresh c) ups) as Hups
      by apply updates_calls_updating.
    split_and!.
    + rewrite Hc3, Hc2, Hc1. by rewrite <- !app_assoc.
    + rewrite !omap_app, Hlog, fmap_cons.
      rewrite (omap_none is_shuffle log_epoch sh),
        (omap_none _ log_epoch ups Hups),
        (omap_none is_scoring_call log_epoch sc); try done; by intros [].
    + rewrite !omap_app, Hobs.
      rewrite (omap_none is_shuffle observe_pair sh),
        (omap_none _ observe_pair ups Hups),
        (omap_none is_scoring_call observe_pair sc); try done; by intros [].
    + rewrite !filter_app, !length_app, Hshuf.
      rewrite (filter_none _ is_shuffle ups Hups),
        (filter_none is_scoring_call is_shuffle sc Hsc);
        [|intros []; simpl; tauto..].
      rewrite (filter_all is_shuffle sh Hsh1), Hlen1. simpl.
      case_decide; simpl; lia.
    + rewrite !omap_app, Hrec.
      rewrite (omap_none is_shuffle recommend_user sh),
        (omap_none _ recommend_user ups Hups); try done; try by intros [].
      unfold sc. rewrite scoring_calls_users. simpl.
      by rewrite <- Hes, <- list_fmap_compose.
    + intros HS. destruct (Hupd HS) as [Hfl Hpm]. specialize (Hperm1 HS). split.
      * rewrite !omap_app, Hfl.
        rewrite (omap_none is_shuffle update_flag sh),
          (omap_none is_scoring_call update_flag sc); try done; try by intros [].
        unfold ups. rewrite updates_calls_flags, fmap_const_replicate. simpl.
        rewrite <- replicate_add, Hperm1. done.
      * rewrite !filter_app, Hpm.
        rewrite (filter_none is_shuffle is_update sh),
          (filter_none is_scoring_call is_update sc); try done;
          try (intros []; simpl; tauto).
        unfold ups. rewrite updates_calls_updates. simpl.
        apply Permutation_app; [by apply fmap_Permutation|].
        apply concat_replicate_perm. by apply fmap_Permutation.
Qed.

(** X12 — what [batch_update] does in every epoch.  A successful
    [batch_update] over [n_epoch] epochs logs one MPR per epoch, numbered
    1 to [n_epoch]; it shuffles once per epoch, or never when
    [n_epoch = 1]; in every epoch it asks for one recommendation per test
    event, in order; and, the shuffle only reordering, it updates the model
    once per epoch with every training event, always with
    [is_batch_train = True]. *)
Theorem batch_update_epochs train_events test_events n w tr w' :
  batch_update train_events test_events n w = inr (tr, w') →
  ∃ new,
    calls w' = calls w ++ new
    ∧ omap log_epoch new = seq 1 n
    ∧ length (filter is_shuffle new) = (if decide (n ≠ 1) then n else 0)
    ∧ omap recommend_user new
      = concat (replicate n ((λ e, index (user e)) <$> test_events))
    ∧ (ShufflePermutes →
       omap update_flag new = replicate (n * length train_events) true
       ∧ filter is_update new
         ≡ₚ concat (replicate n
                      (update_call (is_feature_rec (self w)) true <$> train_events))).
Proof.
  intros Hrun. apply batch_update_loop_epochs in Hrun
    as (new & Hc & Hlog & _ & Hsh & Hrec & Hupd).
  rewrite length_seq in *. exists new. split_and!; try done.
  rewrite Hlog, <- fmap_S_seq. apply list_fmap_ext. intros _ k _. lia.
Qed.

(** ** Observed sets, event after event *)

Lemma items_of_nil u : items_of (Vec:=Vec) (Val:=Val) u [] = ∅.
Proof. done. Qed.

Lemma items_of_cons u e es :
  items_of u (e :: es)
  = (if decide (index (user e) = u) then {[index (item e)]} else ∅) ∪ items_of u es.
Proof.
  unfold items_of. rewrite filter_cons. case_decide.
  - rewrite fmap_cons. simpl. done.
  - set_solver.
Qed.

Lemma items_of_app u es1 es2 :
  items_of u (es1 ++ es2) = items_of u es1 ∪ items_of u es2.
Proof.
  unfold items_of. rewrite filter_app, fmap_app, list_to_set_app_L. done.
Qed.

Lemma items_of_not_user u es :
  u ∉ (λ e, index (user e)) <$> es → items_of u es = ∅.
Proof.
  induction es as [|e es IH]; [done|].
  rewrite fmap_cons, not_elem_of_cons. intros [Hne Hnin].
  rewrite items_of_cons, decide_False by done. rewrite IH by done. set_solver.
Qed.

Lemma observe_all_lookup es (us : gmap nat (gset nat)) u :
  observe_all es us !! u
  = if decide (u ∈ (λ e, index (user e)) <$> es)
    then Some (default ∅ (us !! u) ∪ items_of u es) else us !! u.
Proof.
  revert us. induction es as [|e es IH]; intros us.
  - rewrite fmap_nil, decide_False; [done|apply not_elem_of_nil].
  - cbn [observe_all]. rewrite IH, fmap_cons, items_of_cons. unfold observe_one.
    destruct (decide (u = index (user e))) as [->|Hne].
    + rewrite lookup_insert_eq. simpl.
      rewrite (decide_True (P := _ ∈ _ :: _)) by by left.
      rewrite (decide_True (P := _ = _)) by done.
      case_decide as Hin; f_equal.
      * by rewrite (assoc_L (∪)).
      * rewrite (items_of_not_user _ es) by done. by rewrite (right_id_L ∅ (∪)).
    + rewrite lookup_insert_ne by done.
      rewrite (decide_False (P := _ = _)) by done.
      case_decide as Hin.
      * rewrite decide_True by by right. f_equal. set_solver.
      * rewrite decide_False; [done|]. intros [?|?]%elem_of_cons; done.
Qed.

Lemma observe_all_app es1 es2 (us : gmap nat (gset nat)) :
  observe_all (es1 ++ es2) us = observe_all es2 (observe_all es1 us).
Proof. revert us. induction es1 as [|e es1 IH]; intros us; [done|]. apply IH. Qed.

Lemma bootstrap_body_users `{!KeepsBooks} e w w' :
  (__validate e ;; observed_add (index (user e)) (index (item e))) w = inr (tt, w') →
  users (rec (self w')) = observe_one e (users (rec (self w)))
  ∧ n_item (rec (self w'))
    = (if is_new_item (index (item e)) (rec (self w))
       then S (n_item (rec (self w))) else n_item (rec (self w))).
Proof.
  rewrite bind___validate. unfold observed_add. simpl.
  rewrite validate_rec_user. intros [= <-]. simpl.
  rewrite validate_rec_users, validate_rec_n_item. split; [|done].
  unfold observe_one. by rewrite insert_insert_eq.
Qed.

Lemma fold_in_body_users `{!KeepsBooks} e w w' :
  (observed_add (index (user e)) (index (item e)) ;; __update e false) w = inr (tt, w') →
  users (rec (self w')) = observe_one e (users (rec (self w)))
  ∧ n_item (rec (self w')) = n_item (rec (self w)).
Proof.
  destruct (users (rec (self w)) !! index (user e)) as [s|] eqn:Hs.
  2:{ by rewrite bind_observed_add_None. }
  rewrite (bind_observed_add _ _ _ _ s) by done.
  rewrite __update_eq'. intros [= <-]. simpl.
  pose proof (update_rec_books (is_feature_rec (self w)) e false
    (set_users <[index (user e) := s ∪ {[index (item e)]}]> (rec (self w))))
    as (Hn & Hus & _).
  rewrite Hn, Hus. simpl. unfold observe_one. by rewrite Hs.
Qed.

Lemma for_each_users (body : Event Vec Val → @Ev Vec Val M G unit) es w w' :
  (∀ e w1 w2, body e w1 = inr (tt, w2) →
     users (rec (self w2)) = observe_one e (users (rec (self w1)))) →
  for_each es body w = inr (tt, w') →
  users (rec (self w')) = observe_all es (users (rec (self w))).
Proof.
  intros Hbody. revert w. induction es as [|e es IH]; intros w; simpl.
  - by intros [= <-].
  - intros ([] & w1 & He & Hes)%bind_ok.
    rewrite (IH _ Hes). by rewrite (Hbody _ _ _ He).
Qed.

(** X13 — the observed sets [fit] leaves behind.  With a recommender that
    keeps the books, after a successful [fit] the registered users are
    exactly the users of the training and test events, and the observed set
    of each is exactly the set of items of its training and test events:
    nothing of the observed history from before [fit] survives. *)
Theorem fit_observed `{!KeepsBooks} train_events test_events n w out w' :
  fit train_events test_events n w = inr (out, w') →
  ∀ u,
    users (rec (self w')) !! u
    = if decide (u ∈ (λ e, index (user e)) <$> train_events ++ test_events)
      then Some (items_of u train_events ∪ items_of u test_events)
      else None.
Proof.
  intros (w2 & w3 & w4 & tr & H2 & H3 & H4 & H5 & _)%fit_unfold u.
  apply (for_each_users _ _ _ _
           ltac:(intros e w1 w1' Hb; by apply bootstrap_body_users in Hb as [? _]))
    in H2.
  rewrite for_each_validate_eq in H3. injection H3 as <-.
  apply batch_update_loop_inv in H4 as (_ & Hbooks & _).
  destruct (Hbooks _) as (_ & Hus4 & _).
  apply (for_each_users _ _ _ _
           ltac:(intros e w1 w1' Hb; by apply fold_in_body_users in Hb as [? _]))
    in H5.
  rewrite H5, Hus4. simpl. rewrite observe_all_lookup, preregister_rec_users, H2.
  rewrite observe_all_lookup. simpl. rewrite init_model_users, lookup_empty. simpl.
  rewrite fmap_app.
  destruct (decide (u ∈ (λ e, index (user e)) <$> train_events)) as [Htr|Htr],
           (decide (u ∈ (λ e, index (user e)) <$> test_events)) as [Hte|Hte]; simpl.
  - rewrite decide_True by (apply elem_of_app; by left). f_equal. set_solver.
  - rewrite decide_True by (apply elem_of_app; by left). f_equal.
    rewrite (items_of_not_user u test_events) by done. set_solver.
  - rewrite decide_True by (apply elem_of_app; by right). f_equal.
    rewrite (items_of_not_user u train_events) by done. set_solver.
  - rewrite decide_False; [done|]. intros [?|?]%elem_of_app; done.
Qed.

(** ** fit: marks and updates *)

Lemma bootstrap_blocks_marks es (blocks : list (list (Call Vec Val))) :
  Forall2 bootstrap_block es blocks →
  omap observe_pair (concat blocks) = observed_pair <$> es
  ∧ omap update_flag (concat blocks) = []
  ∧ filter is_update (concat blocks) = [].
Proof.
  induction 1 as [|e block es blocks (reg & -> & Hreg) _ (IH1 & IH2 & IH3)]; [done|].
  rewrite fmap_cons. cbn [concat]. rewrite !omap_app, !filter_app, IH1, IH2, IH3.
  rewrite (omap_none is_registration observe_pair reg),
    (omap_none is_registration update_flag reg),
    (filter_none is_registration is_update reg); try done;
    try (by intros []); intros []; simpl; tauto.
Qed.

Lemma preregister_calls_registration feat es r :
  Forall is_registration (preregister_calls feat es r).
Proof.
  revert r. induction es as [|e es IH]; intros r; simpl; [done|].
  apply Forall_app. split; [apply validate_calls_registration|apply IH].
Qed.

Lemma bootstrap_calls es w w' :
  for_each es (λ e, __validate e ;; observed_add (index (user e)) (index (item e))) w
  = inr (tt, w') →
  same_config w w'
  ∧ ∃ blocks, calls w' = calls w ++ concat blocks ∧ Forall2 bootstrap_block es blocks.
Proof.
  revert w. induction es as [|e es IH]; intros w; cbn [for_each].
  - intros [= <-]. split; [done|]. exists []. simpl. by rewrite app_nil_r.
  - intros ([] & w1 & He & Hes)%bind_ok.
    apply bootstrap_body_inv in He as (Hcfg & Hc).
    apply IH in Hes as (Hcfg' & blocks & Hc' & Hblocks).
    split; [by eapply same_config_trans|].
    exists ((validate_calls (is_feature_rec (self w)) e (rec (self w))
               ++ [CObserve (index (user e)) (index (item e))]) :: blocks).
    split.
    + rewrite Hc', Hc. cbn [concat]. by rewrite <- !app_assoc.
    + constructor; [|done]. apply bootstrap_block_intro.
Qed.

Lemma fold_in_calls es w w' :
  for_each es (λ e, observed_add (index (user e)) (index (item e)) ;; __update e false) w
  = inr (tt, w') →
  same_config w w'
  ∧ calls w' = calls w
                 ++ concat ((λ e, CObserve (index (user e)) (index (item e))
                                  :: update_calls (is_feature_rec (self w)) e false)
                            <$> es).
Proof.
  revert w. induction es as [|e es IH]; intros w; cbn [for_each].
  - intros [= <-]. split; [done|]. rewrite fmap_nil. simpl. by rewrite app_nil_r.
  - intros ([] & w1 & He & Hes)%bind_ok.
    apply fold_in_body_inv in He as (Hcfg & Hc).
    apply IH in Hes as (Hcfg' & Hc'). split; [by eapply same_config_trans|].
    destruct Hcfg as [Hfeat _]. rewrite Hc', Hc, Hfeat, fmap_cons. simpl.
    by rewrite <- app_assoc.
Qed.

Lemma fold_in_calls_marks feat es :
  let new := concat ((λ e, CObserve (index (user e)) (index (item e))
                           :: update_calls feat e false) <$> es) in
  omap observe_pair new = observed_pair <$> es
  ∧ omap update_flag new = replicate (length es) false
  ∧ filter is_update new = update_call feat false <$> es.
Proof.
  cbv zeta. induction es as [|e es (IH1 & IH2 & IH3)]; [done|].
  rewrite !fmap_cons. cbn [concat length replicate].
  rewrite !omap_app, !filter_app, IH1, IH2, IH3.
  destruct feat; split_and!; reflexivity.
Qed.

(** ** Runs to completion *)

(** X15 — without repeats [fit] cannot fault.  With [can_repeat = False] and
    a recommender that meets its contract, [fit] returns for any training
    events, any test events and any number of epochs: every user it looks
    up has been registered by then, and the true item of a test event is
    always among its candidates. *)
Theorem fit_runs_no_repeat `{!KeepsBooks, !RanksCandidates}
    train_events test_events n w :
  can_repeat (self w) = Some false →
  ∃ out w', fit train_events test_events n w = inr (out, w')
            ∧ can_repeat (self w') = Some false.
Proof.
  intros Hcr.
  set (w1 := set_rec (init_model (rec (self w))) [CInitModel] w).
  destruct (bootstrap_runs train_events w1) as (w2 & H2 & [_ Hcr2]).
  pose proof (for_each_validate_eq test_events w2) as H3.
  set (w3 := set_rec _ _ w2) in H3.
  assert (ready false test_events w3) as Hready.
  { split_and!; [simpl in *; congruence| |done].
    intros e He. simpl. rewrite preregister_rec_users.
    rewrite decide_True by (apply list_elem_of_fmap; eauto). by eexists. }
  destruct (batch_update_loop_runs false n (seq 0 n) train_events test_events w3 Hready)
    as (tr & w4 & H4 & (Hcr4 & Hus4 & _)).
  destruct (for_each_inv
              (λ w0, can_repeat (self w0) = Some false
                     ∧ ∀ e, e ∈ test_events →
                         is_Some (users (rec (self w0)) !! index (user e)))
              test_events
              (λ e, observed_add (index (user e)) (index (item e)) ;; __update e false))
    with (w := w4) as (w' & H5 & Hcr5 & _).
  { intros e w0 He [Hcr0 HI].
    destruct (fold_in_body_runs e w0) as (w0' & Hrun & [_ Hcfg] & Hkeep);
      [by apply HI|]. exists w0'. split; [done|]. split; [congruence|].
    intros e' He'. by apply Hkeep, HI. }
  { done. }
  exists (tr, test_events), w'. split; [|done].
  apply fit_unfold. exists w2, w3, w4, tr. by split_and!.
Qed.

Lemma consume_runs {A} (I : World Vec Val M G → Prop) (gen : list (@Ev Vec Val M G A)) :
  (∀ m, m ∈ gen → ∀ w, I w → ∃ x w', m w = inr (x, w') ∧ I w') →
  ∀ w, I w → ∃ xs w', consume gen w = inr (xs, w') ∧ I w' ∧ length xs = length gen.
Proof.
  induction gen as [|m gen IH]; intros Hgen w HI; simpl.
  - by exists [], w.
  - destruct (Hgen m (list_elem_of_here _ _) w HI) as (x & w1 & Hm & HI1).
    destruct (IH (λ m' Hm', Hgen m' (list_elem_of_further _ _ _ Hm')) w1 HI1)
      as (xs & w' & Hrun & HI' & Hlen).
    exists (x :: xs), w'. rewrite (bind_inr _ _ _ _ _ Hm), (bind_inr _ _ _ _ _ Hrun).
    split_and!; [done..|]. simpl. by rewrite Hlen.
Qed.

(** X16 — without repeats the whole stream is served.  With
    [can_repeat = False] and a recommender that meets its contract, pulling
    from [evaluate] never faults: any number of pulls returns, with exactly
    one result per event pulled. *)
Theorem evaluate_runs_no_repeat `{!KeepsBooks, !RanksCandidates} es k w :
  can_repeat (self w) = Some false →
  ∃ rs w', consume (take k (evaluate es)) w = inr (rs, w')
           ∧ length rs = k `min` length es
           ∧ can_repeat (self w') = Some false.
Proof.
  intros Hcr.
  destruct (consume_runs (λ w0, can_repeat (self w0) = Some false)
              (take k (evaluate es))) with (w := w) as (rs & w' & Hrun & Hcr' & Hlen).
  - intros m Hm w0 Hcr0. apply elem_of_take in Hm as (j & Hm & _).
    unfold evaluate in Hm. apply list_lookup_fmap_Some in Hm as (e & -> & _).
    destruct (evaluate_body_runs_no_repeat e w0 Hcr0) as (res & w1 & Hrun).
    exists res, w1. split; [done|].
    apply evaluate_body_block in Hrun as (? & ? & ? & _ & _ & _ & _ & _ & _ & [_ Hcfg] & _).
    congruence.
  - done.
  - exists rs, w'. split_and!; [done| |done].
    rewrite Hlen, length_take. unfold evaluate. by rewrite length_fmap.
Qed.

Lemma evaluate_body_users `{!KeepsBooks} e w res w' :
  evaluate_body e w = inr (res, w') →
  users (rec (self w')) = observe_one e (users (rec (self w)))
  ∧ n_item (rec (self w'))
    = (if is_new_item (index (item e)) (rec (self w))
       then S (n_item (rec (self w))) else n_item (rec (self w))).
Proof.
  intros (b & unobserved & s & _ & _ & _ & Hs & _ & Hrec & _)%evaluate_body_block.
  cbv zeta in *.
  destruct (update_rec_books (is_feature_rec (self w)) e false
              (set_users <[index (user e) := s ∪ {[index (item e)]}]>
                 (recommend_out (is_feature_rec (self w)) e (elements unobserved)
                    (validate_rec (is_feature_rec (self w)) e (rec (self w)))).2))
    as (Hn & Hu & _).
  destruct (recommend_out_books (is_feature_rec (self w)) e (elements unobserved)
              (validate_rec (is_feature_rec (self w)) e (rec (self w))))
    as (Hn' & Hu' & _).
  rewrite Hrec, Hn, Hu. simpl. rewrite Hn', Hu', validate_rec_n_item.
  split; [|done].
  rewrite Hu', validate_rec_user in Hs. injection Hs as <-.
  rewrite validate_rec_users. unfold observe_one. by rewrite insert_insert_eq.
Qed.

Lemma consume_users `{!KeepsBooks} es w rs w' :
  consume (evaluate es) w = inr (rs, w') →
  length rs = length es
  ∧ users (rec (self w')) = observe_all es (users (rec (self w)))
  ∧ n_item (rec (self w)) ≤ n_item (rec (self w'))
  ∧ n_item (rec (self w')) ≤ n_item (rec (self w)) + length es.
Proof.
  revert w rs. induction es as [|e es IH]; intros w rs.
  - intros [= <- <-]. simpl. split_and!; [done..|lia|lia].
  - unfold evaluate. rewrite fmap_cons. cbn [consume].
    intros (res & w1 & He & Hrest)%bind_ok.
    apply bind_ok in Hrest as (rs' & w2 & Hes & [= <- <-]).
    apply evaluate_body_users in He as [Hu Hn].
    apply IH in Hes as (Hlen & Hu' & Hlo & Hhi).
    cbn [observe_all length]. rewrite Hu', Hu, Hlen. split_and!; [done..| |].
    + destruct (is_new_item _ _); lia.
    + destruct (is_new_item _ _); lia.
Qed.

(** X17 — what the stream has learnt after [k] pulls.  With a recommender
    that keeps its books, [k] successful pulls from [evaluate] give one
    result per event pulled; a user of a pulled event has, as observed set,
    what it had before together with the items of its pulled events; every
    other user is as before (registered or not); and the number of items
    has grown by at most one per pull. *)
Theorem evaluate_observed `{!KeepsBooks} es k w rs w' :
  consume (take k (evaluate es)) w = inr (rs, w') →
  length rs = k `min` length es
  ∧ (∀ u, users (rec (self w')) !! u
          = if decide (u ∈ (λ e, index (user e)) <$> take k es)
            then Some (default ∅ (users (rec (self w)) !! u) ∪ items_of u (take k es))
            else users (rec (self w)) !! u)
  ∧ n_item (rec (self w)) ≤ n_item (rec (self w'))
  ∧ n_item (rec (self w')) ≤ n_item (rec (self w)) + length rs.
Proof.
  unfold evaluate. rewrite <- fmap_take. intros Hrun.
  apply consume_users in Hrun as (Hlen & Hu & Hlo & Hhi).
  rewrite length_take in Hlen. split_and!; [done| |done|].
  - intros u. rewrite Hu. apply observe_all_lookup.
  - rewrite length_take in Hhi. lia.
Qed.

Lemma consume_first {A} (m : @Ev Vec Val M G A) w :
  consume [m] w = match m w with inl x => inl x | inr (a, w') => inr ([a], w') end.
Proof. simpl. unfold bind, ret. by destruct (m w) as [x|[a w']]. Qed.

(** X18 — with repeats, a pull faults on an item index out of range.  With
    [can_repeat = True] and a recommender that meets its contract, the
    first pull from [evaluate] succeeds exactly when the event's item index
    is below the number of items counted once the event is validated (one
    more than before if the item is new); otherwise it raises IndexError,
    since the item is then missing from the recommendation list.  So a new
    item whose index lies above the current count cannot be evaluated. *)
Theorem evaluate_repeat_outcome `{!KeepsBooks, !RanksCandidates} e es w :
  can_repeat (self w) = Some true →
  let r := rec (self w) in
  let known := if is_new_item (index (item e)) r then S (n_item r) else n_item r in
  ((∃ res w', consume (take 1 (evaluate (e :: es))) w = inr ([res], w'))
     ↔ index (item e) < known)
  ∧ (consume (take 1 (evaluate (e :: es))) w = inl IndexError
     ↔ known ≤ index (item e)).
Proof.
  intros Hcr r known. unfold evaluate. rewrite fmap_cons. cbn [take].
  rewrite take_0, consume_first.
  set (r1 := validate_rec (is_feature_rec (self w)) e r).
  assert (n_item r1 = known) as Hn by apply validate_rec_n_item.
  destruct (decide (index (item e) < known)) as [Hlt|Hge].
  - destruct (evaluate_body_runs e w true (set_seq 0 (n_item r1)))
      as (res & w' & Hrun); [done|done|apply elem_of_set_seq; fold r1; lia|].
    rewrite Hrun. split; split; try done; try lia. by exists res, w'.
  - assert (evaluate_body e w = inl IndexError) as Hrun.
    { rewrite evaluate_body_eq. unfold evaluate_body_nf. rewrite Hcr.
      unfold unobserved_of. fold r r1.
      rewrite np_where_first_None; [done|].
      rewrite recommend_out_perm, elem_of_elements, elem_of_set_seq. lia. }
    rewrite Hrun. split; split; try done; try lia. by intros (? & ? & ?).
Qed.

End Coverage.

(** * The caller's list objects *)

Section Callers.

Context {Vec Val Score M G : Type}.
Context {R : Recommender Vec Val Score M} {E : Environment Vec Val G}.

#[local] Open Scope ev_scope.

Implicit Types (w : World Vec Val M G) (e : Event Vec Val)
  (es : list (Event Vec Val)) (s : gmap nat (list (Event Vec Val))).

(** ** Two distinct objects: the by-reference methods are [batch_update]
    and [fit] *)

Lemma batch_update_loop_at_distinct n epochs train test s w tr te :
  s !! train = Some tr → s !! test = Some te → train ≠ test →
  batch_update_loop_at n epochs train test s w
  = match batch_update_loop n epochs tr te w with
    | inl x => inl x
    | inr (l, w') => inr (<[train := l]> s, w')
    end.
Proof.
  revert s w tr. induction epochs as [|epoch epochs IH]; intros s w tr Htr Hte Hne.
  - cbn [batch_update_loop_at batch_update_loop]. unfold ret. cbn beta iota.
    by rewrite insert_id.
  - cbn [batch_update_loop_at batch_update_loop].
    rewrite (lookup_total_correct _ _ _ Htr).
    destruct (decide (n ≠ 1)).
    + unfold bind at 1. unfold bind at 1. unfold shuffle at 1. unfold ret at 1.
      rewrite bind_shuffle.
      rewrite lookup_total_insert_eq, lookup_total_insert_ne by done.
      rewrite (lookup_total_correct _ _ _ Hte).
      rewrite !bind_for_each_update.
      unfold bind at 1 3. unfold shuffled. cbn [self env].
      destruct (batch_evaluate te _) as [x|[MPR w2]]; [done|].
      rewrite !bind_logger_debug.
      erewrite IH; [|apply lookup_insert_eq|by rewrite lookup_insert_ne|done].
      destruct (batch_update_loop _ _ _ _ _) as [x|[l w3]]; [done|].
      by rewrite insert_insert_eq.
    + rewrite !bind_ret_l, (lookup_total_correct _ _ _ Htr),
        (lookup_total_correct _ _ _ Hte), !bind_for_each_update.
      unfold bind at 1 3.
      destruct (batch_evaluate te _) as [x|[MPR w2]]; [done|].
      rewrite !bind_logger_debug. by erewrite IH.
Qed.

Lemma fit_at_unfold train test n s w s' w' :
  fit_at train test n s w = inr (s', w') ↔
  ∃ w2 w3 w4,
    for_each (s !!! train)
      (λ e, __validate e ;; observed_add (index (user e)) (index (item e)))
      (set_rec (init_model (rec (self w))) [CInitModel] w) = inr (tt, w2)
    ∧ for_each (s !!! test) __validate w2 = inr (tt, w3)
    ∧ batch_update_at train test n s w3 = inr (s', w4)
    ∧ for_each (s' !!! test)
        (λ e, observed_add (index (user e)) (index (item e)) ;; __update e false) w4
      = inr (tt, w').
Proof.
  unfold fit_at. rewrite bind_rec_call. split.
  - intros ([] & w2 & H2 & Hrest)%bind_ok.
    apply bind_ok in Hrest as ([] & w3 & H3 & Hrest).
    apply bind_ok in Hrest as (s1 & w4 & H4 & Hrest).
    apply bind_ok in Hrest as ([] & w5 & H5 & Hret).
    unfold ret in Hret. injection Hret as <- <-. eauto 10.
  - intros (w2 & w3 & w4 & H2 & H3 & H4 & H5).
    rewrite (bind_inr _ _ _ _ _ H2), (bind_inr _ _ _ _ _ H3),
      (bind_inr _ _ _ _ _ H4), (bind_inr _ _ _ _ _ H5). done.
Qed.

(** On two distinct objects [fit_at] runs as [fit] on their contents, and
    stores what [fit] hands back. *)
Lemma fit_at_distinct train test n s w tr te :
  s !! train = Some tr → s !! test = Some te → train ≠ test →
  fit_at train test n s w
  = match fit tr te n w with
    | inl x => inl x
    | inr (out, w') => inr (<[train := out.1]> s, w')
    end.
Proof.
  intros Htr Hte Hne. unfold fit_at, fit, batch_update_at, batch_update.
  rewrite (lookup_total_correct _ _ _ Htr), (lookup_total_correct _ _ _ Hte).
  rewrite !bind_rec_call. unfold bind, ret.
  destruct (for_each tr _ _) as [x|[[] w2]]; [done|].
  destruct (for_each te _ w2) as [x|[[] w3]]; [done|].
  rewrite (batch_update_loop_at_distinct _ _ _ _ _ _ _ _ Htr Hte Hne).
  destruct (batch_update_loop _ _ _ _ _) as [x|[l w4]]; [done|].
 
  rewrite lookup_total_insert_ne by done. rewrite (lookup_total_correct _ _ _ Hte).
  by destruct (for_each te _ w4) as [x|[[] w5]].
Qed.

(** ** What the loops do to the objects *)

Lemma updates_calls_batch feat es :
  filter is_online_update (updates_calls feat es true) = [].
Proof.
  unfold updates_calls. induction es as [|e es IH]; [done|].
  rewrite fmap_cons. simpl. rewrite filter_app, IH. by destruct feat.
Qed.

Lemma batch_update_loop_at_inv n epochs train test s w s' w' :
  batch_update_loop_at n epochs train test s w = inr (s', w') →
  same_config w w'
  ∧ (∀ l, l ≠ train → s' !! l = s !! l)
  ∧ (n = 1 ∨ epochs = [] → s' = s)
  ∧ (ShufflePermutes → s' !!! train ≡ₚ s !!! train)
  ∧ ∃ new,
      calls w' = calls w ++ new
      ∧ shuffled_through (s !!! train) (omap shuffle_of new) (s' !!! train)
      ∧ length (omap shuffle_of new) = (if decide (n ≠ 1) then length epochs else 0)
      ∧ omap observe_pair new = []
      ∧ (ShufflePermutes →
         omap update_flag new = replicate (length epochs * length (s !!! train)) true)
      ∧ (n = 1 →
         filter is_update new
         = concat (replicate (length epochs)
                     (update_call (is_feature_rec (self w)) true <$> s !!! train)))
      ∧ filter is_online_update new = [].
Proof.
  revert s w. induction epochs as [|epoch epochs IH]; intros s w.
  - cbn [batch_update_loop_at]. intros [= <- <-]. split_and!; try done.
    exists []. rewrite app_nil_r. split_and!; try done. by case_decide.
  - cbn [batch_update_loop_at]. intros (s1 & w1 & Hsh & Hrest)%bind_ok.
    rewrite bind_for_each_update in Hrest.
    apply bind_ok in Hrest as (MPR & w2 & Hev & Hrest).
    rewrite bind_logger_debug in Hrest.
    assert (∃ sh, calls w1 = calls w ++ sh ∧ self w1 = self w
                  ∧ Forall is_shuffle sh
                  ∧ omap shuffle_of sh
                    = (if decide (n ≠ 1) then [(s !!! train, s1 !!! train)] else [])
                  ∧ (∀ l, l ≠ train → s1 !! l = s !! l)
                  ∧ (n = 1 → s1 = s)
                  ∧ (ShufflePermutes → s1 !!! train ≡ₚ s !!! train))
      as (sh & Hc1 & Hself1 & Hsh1 & Hshs & Hst1 & Heq1 & Hperm1).
    { destruct (decide (n ≠ 1)).
      - apply bind_ok in Hsh as (l & w0 & Hsh & Hret). unfold shuffle in Hsh.
        injection Hsh as <- <-. unfold ret in Hret. injection Hret as <- <-.
        eexists [_]. rewrite lookup_total_insert_eq.
        split_and!; [done|done|by repeat constructor|done| |lia|].
        + intros l Hl. by rewrite lookup_insert_ne.
        + intros HS. apply HS.
      - injection Hsh as <- <-. exists []. rewrite app_nil_r. by split_and!. }
    apply batch_evaluate_inv in Hev as ([Hfeat2 Hcr2] & _ & _ & steps & Hc2).
    simpl in Hc2, Hfeat2, Hcr2. rewrite Hself1 in Hc2, Hfeat2, Hcr2.
    apply IH in Hrest
      as ([Hfeat3 Hcr3] & Hst3 & Heq3 & Hperm3 & new' & Hc3 & Hthr & Hlen & Hobs
          & Hfl & Hup & Hon).
    simpl in Hc3, Hfeat3, Hcr3, Hup. rewrite Hfeat2 in Hup.
    assert (same_config w w') as Hcfg by (split; congruence).
    set (feat := is_feature_rec (self w)) in *.
    set (ups := updates_calls feat (s1 !!! train) true) in *.
    set (sc := concat (scoring_calls feat <$> steps)) in *.
    assert (Forall is_scoring_call sc) as Hsc by apply scoring_calls_scoring.
    assert (Forall (λ c, is_update c || is_refresh c) ups) as Hups
      by apply updates_calls_updating.
    split_and!.
    + done.
    + intros l Hl. rewrite Hst3 by done. by apply Hst1.
    + intros [->|?]; [|done]. rewrite Heq3 by by left. by apply Heq1.
    + intros HS. rewrite Hperm3 by done. by apply Hperm1.
    + exists (sh ++ ups ++ sc ++ [CLog (epoch + 1) MPR] ++ new').
      split_and!.
      * rewrite Hc3, Hc2, Hc1. by rewrite <- !app_assoc.
      * rewrite !omap_app, Hshs.
        rewrite (omap_none _ shuffle_of ups Hups),
          (omap_none is_scoring_call shuffle_of sc Hsc); try by intros [].
        simpl. destruct (decide (n ≠ 1)); simpl; [by split|].
        rewrite Heq1 in Hthr by lia. done.
      * rewrite !omap_app, !length_app, Hshs, Hlen.
        rewrite (omap_none _ shuffle_of ups Hups),
          (omap_none is_scoring_call shuffle_of sc Hsc); try by intros [].
        by destruct (decide (n ≠ 1)).
      * rewrite !omap_app, Hobs.
        rewrite (omap_none is_shuffle observe_pair sh),
          (omap_none _ observe_pair ups Hups),
          (omap_none is_scoring_call observe_pair sc); try done; by intros [].
      * intros HS. rewrite !omap_app, (Hfl HS).
        rewrite (omap_none is_shuffle update_flag sh),
          (omap_none is_scoring_call update_flag sc); try done; try by intros [].
        unfold ups. rewrite updates_calls_flags, fmap_const_replicate. simpl.
        rewrite <- replicate_add, (Hperm1 HS). done.
      * intros Hn. rewrite !filter_app, (Hup Hn).
        rewrite (filter_none is_shuffle is_update sh),
          (filter_none is_scoring_call is_update sc); try done;
          try (intros []; simpl; tauto).
        unfold ups. rewrite updates_calls_updates, (Heq1 Hn). done.
      * rewrite !filter_app, Hon.
        rewrite (filter_none is_shuffle is_online_update sh),
          (filter_none is_scoring_call is_online_update sc); try done;
          try (intros []; simpl; tauto).
        unfold ups. by rewrite updates_calls_batch.
Qed.

Lemma bootstrap_blocks_quiet es (blocks : list (list (Call Vec Val))) :
  Forall2 bootstrap_block es blocks →
  Forall (λ c, is_registration c || is_observe c) (concat blocks).
Proof.
  intros Hb. apply Forall_concat. induction Hb as [|e block es blocks (reg & -> & Hreg) _ IH];
    constructor; [|done].
  apply Forall_app. split; [|by repeat constructor].
  eapply Forall_impl; [exact Hreg|]. intros c Hc. by destruct c.
Qed.

Lemma fold_in_calls_quiet feat es :
  Forall (λ c, is_observe c || is_update c || is_refresh c)
    (concat ((λ e, CObserve (index (user e)) (index (item e))
                   :: update_calls feat e false) <$> es)).
Proof.
  apply Forall_concat, Forall_fmap, Forall_forall. intros e _. simpl.
  destruct feat; by repeat constructor.
Qed.

Lemma fold_in_calls_online feat es :
  filter is_online_update
    (concat ((λ e, CObserve (index (user e)) (index (item e))
                   :: update_calls feat e false) <$> es))
  = update_call feat false <$> es.
Proof.
  induction es as [|e es IH]; [done|].
  rewrite !fmap_cons. cbn [concat]. rewrite filter_app, IH. by destruct feat.
Qed.

(** The calls of a successful [fit_at], phase by phase. *)
Lemma fit_at_calls train test n s w s' w' :
  fit_at train test n s w = inr (s', w') →
  ∃ w3 w4 boot pre bu,
    batch_update_loop_at n (seq 0 n) train test s w3 = inr (s', w4)
    ∧ is_feature_rec (self w3) = is_feature_rec (self w)
    ∧ calls w4 = calls w3 ++ bu
    ∧ calls w'
      = calls w ++ [CInitModel] ++ concat boot ++ pre ++ bu
          ++ concat ((λ e, CObserve (index (user e)) (index (item e))
                           :: update_calls (is_feature_rec (self w)) e false)
                     <$> s' !!! test)
    ∧ Forall2 bootstrap_block (s !!! train) boot
    ∧ Forall is_registration pre.
Proof.
  intros (w2 & w3 & w4 & H2 & H3 & H4 & H5)%fit_at_unfold.
  apply bootstrap_calls in H2 as ([Hfeat2 _] & boot & Hc2 & Hboot).
  rewrite for_each_validate_eq in H3. injection H3 as <-.
  pose proof H4 as H4'. unfold batch_update_at in H4'.
  apply batch_update_loop_at_inv in H4'
    as ([Hfeat4 _] & _ & _ & _ & bu & Hc4 & _).
  apply fold_in_calls in H5 as (_ & Hc5).
  simpl in *.
  exists (set_rec (preregister_rec (is_feature_rec (self w2)) (s !!! test) (rec (self w2)))
            (preregister_calls (is_feature_rec (self w2)) (s !!! test) (rec (self w2)))
            w2),
    w4, boot,
    (preregister_calls (is_feature_rec (self w2)) (s !!! test) (rec (self w2))), bu.
  split_and!; [exact H4|done|exact Hc4| |done|].
  - rewrite Hc5, Hc4, Hfeat4. simpl. rewrite Hc2, Hfeat2. simpl.
    by rewrite <- !app_assoc.
  - apply preregister_calls_registration.
Qed.

(** C9 (as amended) — [fit] and the caller's list objects.  [fit] changes
    no list object but the one passed as [train_events].  That one is left
    as it is when [n_epoch <= 1]; with more epochs it is shuffled in place
    once per epoch, each shuffle starting from what the previous one left,
    and it ends as a permutation of what was supplied.  So [test_events]
    is left unchanged when it is another object; when the same object is
    passed for both parameters it is the shuffled list. *)
Theorem fit_shuffles_in_place train test n s w s' w' :
  fit_at train test n s w = inr (s', w') →
  (∀ l, l ≠ train → s' !! l = s !! l)
  ∧ (n ≤ 1 → s' = s)
  ∧ (ShufflePermutes → s' !!! train ≡ₚ s !!! train)
  ∧ ∃ new,
      calls w' = calls w ++ new
      ∧ length (omap shuffle_of new) = (if decide (n ≤ 1) then 0 else n)
      ∧ shuffled_through (s !!! train) (omap shuffle_of new) (s' !!! train).
Proof.
  intros (w3 & w4 & boot & pre & bu & H4 & _ & Hbu & Hc & Hboot & Hpre)%fit_at_calls.
  apply batch_update_loop_at_inv in H4
    as (_ & Hst & Heq & Hperm & bu' & Hbu' & Hthr & Hlen & _).
  rewrite Hbu in Hbu'. apply app_inv_head in Hbu' as <-.
  split_and!; [done| |done|].
  - intros Hn. apply Heq. destruct n as [|[|n]]; [by right|by left|lia].
  - eexists. split; [exact Hc|].
    pose proof (bootstrap_blocks_quiet _ _ Hboot) as Hq.
    assert (omap shuffle_of
              ([CInitModel] ++ concat boot ++ pre ++ bu
                 ++ concat ((λ e, CObserve (index (user e)) (index (item e))
                                  :: update_calls (is_feature_rec (self w)) e false)
                            <$> s' !!! test))
            = omap shuffle_of bu) as ->.
    { rewrite !omap_app.
      rewrite (omap_none _ shuffle_of (concat boot) Hq),
        (omap_none _ shuffle_of pre Hpre),
        (omap_none _ shuffle_of _ (fold_in_calls_quiet _ _)); try by intros [].
      simpl. by rewrite app_nil_r. }
    split; [|done]. rewrite Hlen, length_seq.
    destruct (decide (n ≠ 1)), (decide (n ≤ 1)); lia.
Qed.

(** X14 — [fit] marks every event once and updates in two regimes.  A
    successful [fit] adds to the observed sets once per training event, in
    the supplied order (bootstrap), then once per test event, in the order
    the test list has when [batch_update] is over (fold-in): the supplied
    order when the list is another object than [train_events] or there is
    at most one epoch, the shuffled order when one object was passed for
    both.  The updates outside batch training are those of the fold-in, one
    per test event in that same order.  The shuffle only reordering, the
    update calls are [n_epoch] times the number of training events with
    [is_batch_train = True], followed by one per test event with
    [is_batch_train = False]; with a single epoch they are the training
    events' and then the test events', in the supplied order. *)
Theorem fit_marks_and_updates train test n s w s' w' :
  fit_at train test n s w = inr (s', w') →
  ∃ new,
    calls w' = calls w ++ new
    ∧ omap observe_pair new = observed_pair <$> (s !!! train ++ s' !!! test)
    ∧ filter is_online_update new
      = update_call (is_feature_rec (self w)) false <$> s' !!! test
    ∧ (test ≠ train ∨ n ≤ 1 → s' !!! test = s !!! test)
    ∧ (ShufflePermutes →
       s' !!! test ≡ₚ s !!! test
       ∧ omap update_flag new
         = replicate (n * length (s !!! train)) true
             ++ replicate (length (s !!! test)) false)
    ∧ (n = 1 →
       filter is_update new
       = (update_call (is_feature_rec (self w)) true <$> s !!! train)
           ++ (update_call (is_feature_rec (self w)) false <$> s !!! test)).
Proof.
  intros (w3 & w4 & boot & pre & bu & H4 & Hfeat3 & Hbu & Hc & Hboot & Hpre)%fit_at_calls.
  apply batch_update_loop_at_inv in H4
    as (_ & Hst & Heq & Hperm & bu' & Hbu' & _ & _ & Hobs & Hfl & Hup & Hon).
  rewrite Hbu in Hbu'. apply app_inv_head in Hbu' as <-.
  rewrite Hfeat3 in Hup. rewrite length_seq in Hfl, Hup.
  set (feat := is_feature_rec (self w)) in *.
  destruct (bootstrap_blocks_marks _ _ Hboot) as (Hb1 & Hb2 & Hb3).
  pose proof (bootstrap_blocks_quiet _ _ Hboot) as Hq.
  destruct (fold_in_calls_marks feat (s' !!! test)) as (Hf1 & Hf2 & Hf3).
  cbv zeta in Hf1, Hf2, Hf3.
  assert (test ≠ train ∨ n ≤ 1 → s' !!! test = s !!! test) as Hsame.
  { intros [Hne|Hn].
    - by rewrite !lookup_total_alt, Hst.
    - rewrite Heq; [done|]. destruct n as [|[|n]]; [by right|by left|lia]. }
  assert (ShufflePermutes → s' !!! test ≡ₚ s !!! test) as Hpt.
  { intros HS. destruct (decide (test = train)) as [->|Hne]; [by apply Hperm|].
    rewrite Hsame; [done|by left]. }
  eexists. split; [exact Hc|]. split_and!.
  - rewrite !omap_app, Hb1, Hobs, Hf1.
    rewrite (omap_none is_registration observe_pair pre Hpre) by by intros [].
    simpl. by rewrite fmap_app.
  - rewrite !filter_app, Hon, fold_in_calls_online.
    rewrite (filter_none _ is_online_update (concat boot) Hq),
      (filter_none is_registration is_online_update pre Hpre);
      try (intros []; simpl; tauto).
    done.
  - done.
  - intros HS. split; [by apply Hpt|].
    rewrite !omap_app, Hb2, (Hfl HS), Hf2, (Hpt HS).
    rewrite (omap_none is_registration update_flag pre Hpre) by by intros [].
    done.
  - intros Hn. rewrite !filter_app, Hb3, (Hup Hn), Hf3.
    rewrite filter_cons_False by (simpl; tauto). rewrite filter_nil.
    rewrite (filter_none is_registration is_update pre Hpre)
      by (intros []; simpl; tauto).
    rewrite Hsame by (right; lia). subst n. simpl. by rewrite app_nil_r.
Qed.

End Callers.

(** * The protocol, phase by phase *)

Section Protocol.

Context {Vec Val Score M G : Type}.
Context {R : Recommender Vec Val Score M} {E : Environment Vec Val G}.

#[local] Open Scope ev_scope.

Implicit Types (w : World Vec Val M G) (e : Event Vec Val)
  (es : list (Event Vec Val)) (r : Rec M).

(** ** fit *)

Lemma bootstrap_phase_eq es w :
  for_each es (λ e, __validate e ;; observed_add (index (user e)) (index (item e))) w
  = match bootstrap_phase (is_feature_rec (self w)) es (rec (self w)) with
    | None => inl KeyError
    | Some (r2, cs) => inr (tt, set_rec r2 cs w)
    end.
Proof.
  revert w. induction es as [|e es IH]; intros w; cbn [for_each bootstrap_phase].
  - unfold ret. by rewrite set_rec_id.
  - unfold bind at 1. rewrite bind___validate. unfold observed_add, mark_observed.
    cbn [self rec set_rec].
    destruct (users (validate_rec _ e (rec (self w))) !! index (user e)) as [s|]; [|done].
    rewrite IH. cbn [self rec is_feature_rec record with_rec set_rec].
    destruct (bootstrap_phase _ es _) as [[r2 cs]|]; [|done].
    unfold set_rec. cbn. by rewrite <- !app_assoc.
Qed.

Lemma fold_in_phase_eq es w :
  for_each es (λ e, observed_add (index (user e)) (index (item e)) ;; __update e false) w
  = match fold_in_phase (is_feature_rec (self w)) es (rec (self w)) with
    | None => inl KeyError
    | Some (r2, cs) => inr (tt, set_rec r2 cs w)
    end.
Proof.
  revert w. induction es as [|e es IH]; intros w; cbn [for_each fold_in_phase].
  - unfold ret. by rewrite set_rec_id.
  - unfold bind at 1. unfold mark_observed.
    destruct (users (rec (self w)) !! index (user e)) as [s|] eqn:Hs.
    2:{ by rewrite bind_observed_add_None. }
    rewrite (bind_observed_add _ _ _ _ s) by done. rewrite __update_eq'.
    rewrite IH. cbn [self rec is_feature_rec set_rec].
    destruct (fold_in_phase _ es _) as [[r2 cs]|]; [|done].
    unfold set_rec. cbn. by rewrite <- !app_assoc.
Qed.

Lemma fit_phased_eq train_events test_events n w :
  fit train_events test_events n w = fit_phased train_events test_events n w.
Proof.
  unfold fit, fit_phased. rewrite bind_rec_call. unfold bind at 1.
  rewrite bootstrap_phase_eq. cbn [self rec is_feature_rec set_rec].
  destruct (bootstrap_phase _ train_events _) as [[r2 boot]|]; [|done].
  rewrite (bind_inr _ _ _ _ _ (for_each_validate_eq _ _)).
  rewrite !set_rec_set_rec. cbn [self rec is_feature_rec set_rec].
  unfold bind at 1.
  destruct (batch_update _ _ _ _) as [x|[tr w4]] eqn:H4; [done|].
  apply batch_update_loop_inv in H4 as ([Hfeat _] & _).
  unfold bind. rewrite fold_in_phase_eq, Hfeat. cbn [self is_feature_rec set_rec].
  by destruct (fold_in_phase _ test_events _) as [[r5 fold]|].
Qed.

Lemma mark_observed_users `{!KeepsBooks} feat e r r1 :
  mark_observed e (validate_rec feat e r) = Some r1 →
  users r1 = observe_one e (users r).
Proof.
  unfold mark_observed. rewrite validate_rec_user. intros [= <-]. simpl.
  rewrite validate_rec_users. unfold observe_one. by rewrite insert_insert_eq.
Qed.

Lemma validate_calls_add_user feat e r :
  omap add_user_of (validate_calls feat e r)
  = if is_new_user (index (user e)) r then [index (user e)] else [].
Proof.
  unfold validate_calls. rewrite omap_app.
  destruct (is_new_user _ r); simpl; by destruct (is_new_item _ _).
Qed.

Lemma bootstrap_phase_calls feat es r r2 boot :
  bootstrap_phase feat es r = Some (r2, boot) →
  Forall (λ c, is_registration c || is_observe c) boot
  ∧ omap observe_pair boot = observed_pair <$> es.
Proof.
  revert r boot. induction es as [|e es IH]; intros r boot; cbn [bootstrap_phase].
  - by intros [= <- <-].
  - destruct (mark_observed _ _) as [r1|]; [|done].
    destruct (bootstrap_phase feat es r1) as [[r2' cs]|] eqn:Hes; [|done].
    intros [= <- <-]. destruct (IH _ _ Hes) as [Hq Hm].
    pose proof (validate_calls_registration feat e r) as Hreg. split.
    + apply Forall_app. split.
      * eapply Forall_impl; [exact Hreg|]. intros c Hc. by destruct c.
      * by constructor.
    + rewrite omap_app, fmap_cons.
      rewrite (omap_none is_registration observe_pair _ Hreg) by by intros [].
      cbn [omap list_omap observe_pair app]. by rewrite <- Hm.
Qed.

Lemma bootstrap_phase_users `{!KeepsBooks} feat es r r2 boot :
  bootstrap_phase feat es r = Some (r2, boot) →
  users r2 = observe_all es (users r).
Proof.
  revert r boot. induction es as [|e es IH]; intros r boot; cbn [bootstrap_phase].
  - by intros [= <- <-].
  - destruct (mark_observed _ _) as [r1|] eqn:Hm; [|done].
    destruct (bootstrap_phase feat es r1) as [[r2' cs]|] eqn:Hes; [|done].
    intros [= <- <-]. cbn [observe_all].
    by rewrite (IH _ _ Hes), (mark_observed_users _ _ _ _ Hm).
Qed.

Lemma bootstrap_phase_runs `{!KeepsBooks} feat es r :
  is_Some (bootstrap_phase feat es r).
Proof.
  revert r. induction es as [|e es IH]; intros r; cbn [bootstrap_phase]; [done|].
  unfold mark_observed. rewrite validate_rec_user.
  destruct (IH (set_users <[index (user e)
                            := default ∅ (users r !! index (user e)) ∪ {[index (item e)]}]>
                  (validate_rec feat e r))) as [[r2 cs] ->].
  done.
Qed.

Lemma observe_one_lookup_None e (us : gmap nat (gset nat)) u :
  observe_one e us !! u = None ↔ u ≠ index (user e) ∧ us !! u = None.
Proof.
  unfold observe_one. destruct (decide (u = index (user e))) as [->|Hne].
  - rewrite lookup_insert_eq. naive_solver.
  - rewrite lookup_insert_ne by done. naive_solver.
Qed.

Lemma bootstrap_phase_add_users `{!KeepsBooks} feat es r r2 boot :
  bootstrap_phase feat es r = Some (r2, boot) →
  NoDup (omap add_user_of boot)
  ∧ ∀ u, u ∈ omap add_user_of boot
         ↔ u ∈ (λ e, index (user e)) <$> es ∧ users r !! u = None.
Proof.
  revert r boot. induction es as [|e es IH]; intros r boot; cbn [bootstrap_phase].
  - intros [= <- <-]. split; [constructor|]. intros u. simpl.
    rewrite !elem_of_nil. naive_solver.
  - destruct (mark_observed _ _) as [r1|] eqn:Hm; [|done].
    destruct (bootstrap_phase feat es r1) as [[r2' cs]|] eqn:Hes; [|done].
    intros [= <- <-]. destruct (IH _ _ Hes) as [Hnd Hin].
    apply mark_observed_users in Hm.
    assert (∀ u, u ∈ omap add_user_of cs
                 ↔ u ∈ (λ e, index (user e)) <$> es
                   ∧ u ≠ index (user e) ∧ users r !! u = None) as Hin'.
    { intros u. by rewrite Hin, Hm, observe_one_lookup_None. }
    rewrite omap_app, validate_calls_add_user. cbn [omap add_user_of].
    rewrite fmap_cons. split.
    + destruct (is_new_user _ r); simpl; [|done].
      constructor; [|done]. rewrite Hin'. naive_solver.
    + intros u. rewrite elem_of_app, Hin', elem_of_cons.
      destruct (is_new_user (index (user e)) r) eqn:Hnew.
      * apply is_new_user_spec in Hnew. rewrite list_elem_of_singleton.
        destruct (decide (u = index (user e))); naive_solver.
      * assert (users r !! index (user e) ≠ None) as Hreg.
        { rewrite <- is_new_user_spec. congruence. }
        rewrite elem_of_nil.
        destruct (decide (u = index (user e))); naive_solver.
Qed.

Lemma preregister_add_users `{!KeepsBooks} feat es r :
  NoDup (omap add_user_of (preregister_calls feat es r))
  ∧ ∀ u, u ∈ omap add_user_of (preregister_calls feat es r)
         ↔ u ∈ (λ e, index (user e)) <$> es ∧ users r !! u = None.
Proof.
  revert r. induction es as [|e es IH]; intros r; cbn [preregister_calls].
  - split; [constructor|]. intros u. simpl. rewrite !elem_of_nil. naive_solver.
  - destruct (IH (validate_rec feat e r)) as [Hnd Hin].
    assert (∀ u, u ∈ omap add_user_of (preregister_calls feat es (validate_rec feat e r))
                 ↔ u ∈ (λ e, index (user e)) <$> es
                   ∧ u ≠ index (user e) ∧ users r !! u = None) as Hin'.
    { intros u. rewrite Hin, validate_rec_users.
      destruct (decide (u = index (user e))) as [->|Hne].
      - rewrite lookup_insert_eq. naive_solver.
      - rewrite lookup_insert_ne by done. naive_solver. }
    rewrite omap_app, validate_calls_add_user, fmap_cons. split.
    + destruct (is_new_user _ r); simpl; [|done].
      constructor; [|done]. rewrite Hin'. naive_solver.
    + intros u. rewrite elem_of_app, Hin', elem_of_cons.
      destruct (is_new_user (index (user e)) r) eqn:Hnew.
      * apply is_new_user_spec in Hnew. rewrite list_elem_of_singleton.
        destruct (decide (u = index (user e))); naive_solver.
      * assert (users r !! index (user e) ≠ None) as Hreg.
        { rewrite <- is_new_user_spec. congruence. }
        rewrite elem_of_nil.
        destruct (decide (u = index (user e))); naive_solver.
Qed.

Lemma fold_in_phase_calls feat es r r5 fold :
  fold_in_phase feat es r = Some (r5, fold) →
  fold = concat ((λ e, CObserve (index (user e)) (index (item e))
                       :: update_calls feat e false) <$> es).
Proof.
  revert r fold. induction es as [|e es IH]; intros r fold; cbn [fold_in_phase].
  - by intros [= <- <-].
  - destruct (mark_observed _ _) as [r1|]; [|done].
    destruct (fold_in_phase feat es _) as [[r2' cs]|] eqn:Hes; [|done].
    intros [= <- <-]. rewrite fmap_cons. cbn [concat]. by rewrite (IH _ _ Hes).
Qed.

Lemma fold_in_phase_users `{!KeepsBooks} feat es r r5 fold :
  fold_in_phase feat es r = Some (r5, fold) →
  users r5 = observe_all es (users r).
Proof.
  revert r fold. induction es as [|e es IH]; intros r fold; cbn [fold_in_phase].
  - by intros [= <- <-].
  - unfold mark_observed.
    destruct (users r !! index (user e)) as [s|] eqn:Hs; [|done].
    destruct (fold_in_phase feat es _) as [[r2' cs]|] eqn:Hes; [|done].
    intros [= <- <-]. cbn [observe_all]. rewrite (IH _ _ Hes).
    destruct (update_rec_books feat e false
                (set_users <[index (user e) := s ∪ {[index (item e)]}]> r))
      as (_ & -> & _).
    simpl. unfold observe_one. by rewrite Hs.
Qed.

(** C4 — the phases of [fit].  [fit] is its five phases run one after the
    other: (1) [init_model]; (2) bootstrap, where every training event has
    its user and its item registered if they are new and is then marked
    observed, with no update call; (3) pre-registration, where every test
    event has its user and item registered if new, and nothing is marked;
    (4) [batch_update]; (5) fold-in, where every test event is marked
    observed and then updated once outside batch training.  With a
    recommender that keeps its books, bootstrap cannot fault, the observed
    sets are what the marks make them, pre-registration leaves every test
    user and item registered, and each user of the two lists is registered
    exactly once. *)
Theorem fit_phases train_events test_events n w :
  fit train_events test_events n w = fit_phased train_events test_events n w
  ∧ (∀ feat r r2 boot,
       bootstrap_phase feat train_events r = Some (r2, boot) →
       Forall (λ c, is_registration c || is_observe c) boot
       ∧ omap observe_pair boot = observed_pair <$> train_events
       ∧ (KeepsBooks → users r2 = observe_all train_events (users r)))
  ∧ (∀ feat r,
       Forall is_registration (preregister_calls feat test_events r)
       ∧ (KeepsBooks → ∀ u,
            users (preregister_rec feat test_events r) !! u
            = if decide (u ∈ (λ e, index (user e)) <$> test_events)
              then Some (default ∅ (users r !! u)) else users r !! u)
       ∧ (KeepsBooks → ∀ e, e ∈ test_events →
            is_new_user (index (user e)) (preregister_rec feat test_events r) = false
            ∧ is_new_item (index (item e)) (preregister_rec feat test_events r)
              = false))
  ∧ (∀ feat r r5 fold,
       fold_in_phase feat test_events r = Some (r5, fold) →
       omap observe_pair fold = observed_pair <$> test_events
       ∧ filter is_update fold = update_call feat false <$> test_events
       ∧ Forall (λ c, is_observe c || is_update c || is_refresh c) fold
       ∧ (KeepsBooks → users r5 = observe_all test_events (users r)))
  ∧ (KeepsBooks → ∀ feat r0,
       ∃ r2 boot,
         bootstrap_phase feat train_events (init_model r0) = Some (r2, boot)
         ∧ NoDup (omap add_user_of (boot ++ preregister_calls feat test_events r2))
         ∧ ∀ u, u ∈ omap add_user_of (boot ++ preregister_calls feat test_events r2)
                ↔ u ∈ (λ e, index (user e)) <$> train_events ++ test_events).
Proof.
  split_and!.
  - apply fit_phased_eq.
  - intros feat r r2 boot Hb. destruct (bootstrap_phase_calls _ _ _ _ _ Hb) as [Hq Hm].
    split_and!; [done..|]. intros HK. by eapply bootstrap_phase_users.
  - intros feat r. split_and!.
    + apply preregister_calls_registration.
    + intros HK u. apply preregister_rec_users.
    + intros HK e He. split.
      * apply not_true_is_false. rewrite is_new_user_spec, preregister_rec_users.
        rewrite decide_True by (apply list_elem_of_fmap; eauto). done.
      * rewrite preregister_rec_items.
        rewrite bool_decide_eq_false_2; [apply andb_false_r|].
        intros Hn. apply Hn. apply list_elem_of_fmap. eauto.
  - intros feat r r5 fold Hf. pose proof (fold_in_phase_calls _ _ _ _ _ Hf) as ->.
    destruct (fold_in_calls_marks feat test_events) as (H1 & _ & H3).
    split_and!; [exact H1|exact H3|apply fold_in_calls_quiet|].
    intros HK. by eapply fold_in_phase_users.
  - intros HK feat r0.
    destruct (bootstrap_phase_runs feat train_events (init_model r0)) as [[r2 boot] Hb].
    exists r2, boot. split; [done|].
    destruct (bootstrap_phase_add_users _ _ _ _ _ Hb) as [Hnd1 Hin1].
    destruct (preregister_add_users feat test_events r2) as [Hnd2 Hin2].
    pose proof (bootstrap_phase_users _ _ _ _ _ Hb) as Hus.
    rewrite init_model_users in Hus.
    assert (∀ u, users r2 !! u = None ↔ u ∉ (λ e, index (user e)) <$> train_events)
      as Hreg.
    { intros u. rewrite Hus, observe_all_lookup. case_decide; naive_solver. }
    rewrite omap_app. split.
    + apply NoDup_app. split_and!; [done| |done].
      intros u [Hu _]%Hin1 [_ Hn]%Hin2. by apply Hreg in Hn.
    + intros u. rewrite elem_of_app, Hin1, Hin2, Hreg, init_model_users, lookup_empty,
        fmap_app, elem_of_app.
      destruct (decide (u ∈ (λ e, index (user e)) <$> train_events)); naive_solver.
Qed.

(** ** batch_evaluate *)

Lemma scored_from_positions `{!RanksCandidates} b feat all_items r
    (steps : list (Scoring (Vec:=Vec) (Val:=Val))) :
  scored_from b feat all_items r steps →
  Forall (λ s, length (sc_recos s) = length (sc_cands s)
               ∧ sc_recos s !! sc_pos s = Some (index (item (sc_event s)))
               ∧ (∀ k, k < sc_pos s →
                    sc_recos s !! k ≠ Some (index (item (sc_event s))))
               ∧ sc_pos s < length (sc_cands s)) steps.
Proof.
  induction 1 as [|all_items r s steps unobserved Hun Hc Hr Hpos _ IH]; constructor;
    [|done].
  assert (length (sc_recos s) = length (sc_cands s)) as Hlen.
  { rewrite Hr. apply Permutation_length, recommend_out_perm. }
  apply np_where_first_Some in Hpos as (Hat & Hlt & Hmin).
  split_and!; [done..|lia].
Qed.

(** The iterations are determined by the events. *)
Lemma scored_from_unique b feat all_items r
    (steps steps' : list (Scoring (Vec:=Vec) (Val:=Val))) :
  scored_from b feat all_items r steps →
  scored_from b feat all_items r steps' →
  sc_event <$> steps = sc_event <$> steps' →
  steps = steps'.
Proof.
  intros H. revert steps'.
  induction H as [|all_items r s steps unobserved Hun Hc Hr Hpos Hrest IH];
    intros steps' H' Hev.
  - by destruct steps'.
  - destruct steps' as [|s' steps']; [done|].
    rewrite !fmap_cons in Hev. injection Hev as Hev1 Hev2.
    inversion H' as [|? ? ? ? unobserved' Hun' Hc' Hr' Hpos' Hrest']; subst.
    destruct s as [e c rc p], s' as [e' c' rc' p']; simpl in *. subst e'.
    rewrite Hun in Hun'. injection Hun' as <-. subst c c' rc rc'.
    rewrite Hpos in Hpos'. injection Hpos' as <-.
    f_equal. by apply IH.
Qed.

Lemma np_sum_Num (qs : list Q) : np_sum (Num <$> qs) = Num (foldr Qplus 0%Q qs).
Proof. induction qs as [|q qs IH]; [done|]. rewrite fmap_cons. simpl. by rewrite IH. Qed.

Lemma np_mean_Num (qs : list Q) :
  qs ≠ [] →
  np_mean (Num <$> qs)
  = Num (foldr Qplus 0%Q qs / inject_Z (Z.of_nat (length qs)))%Q.
Proof.
  intros Hne. unfold np_mean. rewrite np_sum_Num, length_fmap.
  by destruct qs.
Qed.

(** C6 — Mean Percentile Rank.  A successful [batch_evaluate] scores the
    test events one after the other; the ranked output of an event is what
    [recommend] returned for its candidates, and [pos] is the first
    position of the true item in it: the iterations are determined by the
    test events and the repeat policy.  With a recommender that returns its
    candidates in some order, the value returned is the mean of the
    percentiles [pos / (len(candidates) - 1) * 100] (not-a-number for a
    single candidate); for a non-empty test set whose candidate sets all
    have at least two elements it is the sum of these percentiles divided
    by the number of test events, and lies in [0, 100]. *)
Theorem batch_evaluate_mpr `{!RanksCandidates} test_events w MPR w' :
  batch_evaluate test_events w = inr (MPR, w') →
  let pct := λ s : Scoring,
    (inject_Z (Z.of_nat (sc_pos s))
     / inject_Z (Z.of_nat (length (sc_cands s)) - 1) * 100)%Q in
  ∃ steps,
    sc_event <$> steps = test_events
    ∧ (∀ b, can_repeat (self w) = Some b →
         scored_from b (is_feature_rec (self w)) (set_seq 0 (n_item (rec (self w))))
           (rec (self w)) steps)
    ∧ (can_repeat (self w) = None → test_events = [])
    ∧ (∀ b steps',
         scored_from b (is_feature_rec (self w)) (set_seq 0 (n_item (rec (self w))))
           (rec (self w)) steps' →
         can_repeat (self w) = Some b → sc_event <$> steps' = test_events →
         steps' = steps)
    ∧ Forall (λ s, length (sc_recos s) = length (sc_cands s)
                   ∧ sc_recos s !! sc_pos s = Some (index (item (sc_event s)))
                   ∧ (∀ k, k < sc_pos s →
                        sc_recos s !! k ≠ Some (index (item (sc_event s))))
                   ∧ sc_pos s < length (sc_cands s)) steps
    ∧ MPR = np_mean ((λ s, if decide (length (sc_cands s) = 1) then NaN
                           else Num (pct s)) <$> steps)
    ∧ (test_events ≠ [] → Forall (λ s, 2 ≤ length (sc_cands s)) steps →
       MPR = Num (foldr Qplus 0%Q (pct <$> steps)
                  / inject_Z (Z.of_nat (length test_events)))%Q
       ∧ in_percent MPR).
Proof.
  intros Hrun pct. unfold batch_evaluate in Hrun. rewrite bind_get_rec in Hrun.
  apply bind_ok in Hrun as (ps & w1 & Hloop & Hret). unfold ret in Hret.
  injection Hret as <- <-.
  assert (∃ b steps,
            scored_from b (is_feature_rec (self w)) (set_seq 0 (n_item (rec (self w))))
              (rec (self w)) steps
            ∧ (∀ b', can_repeat (self w) = Some b' →
                 scored_from b' (is_feature_rec (self w))
                   (set_seq 0 (n_item (rec (self w)))) (rec (self w)) steps)
            ∧ (can_repeat (self w) = None → test_events = [])
            ∧ sc_event <$> steps = test_events
            ∧ ps = scoring_percentile <$> steps)
    as (b & steps & Hsc & Hscb & Hnone & Hes & ->).
  { destruct (can_repeat (self w)) as [b|] eqn:Hcr.
    - destruct (batch_evaluate_loop_scored _ _ _ _ _ _ Hcr Hloop)
        as (steps & Hsc & Hes & Hps & _).
      exists b, steps. split_and!; [done| |done|done|done]. by intros b' [= <-].
    - destruct test_events as [|e es].
      + injection Hloop as <- <-. exists false, [].
        split_and!; [constructor|intros; constructor|done..].
      + by rewrite batch_evaluate_loop_unset in Hloop. }
  pose proof (scored_from_positions _ _ _ _ _ Hsc) as Hpos.
  assert (scoring_percentile <$> steps
          = (λ s, if decide (length (sc_cands s) = 1) then NaN else Num (pct s))
              <$> steps) as Heq.
  { apply Forall_fmap_ext. eapply Forall_impl; [exact Hpos|].
    intros s (Hlen & _ & _ & Hlt). unfold scoring_percentile, percentile.
    rewrite Hlen. repeat case_decide; try done; lia. }
  exists steps. split_and!; [done|done|done| |done|by rewrite Heq|].
  { intros b' steps' Hsc' Hcr' Hes'. symmetry.
    eapply scored_from_unique; [by apply Hscb|exact Hsc'|congruence]. }
  intros Hne Hsize.
  assert ((λ s, if decide (length (sc_cands s) = 1) then NaN else Num (pct s)) <$> steps
          = Num <$> (pct <$> steps)) as Heq2.
  { rewrite <- list_fmap_compose. apply Forall_fmap_ext.
    eapply Forall_impl; [exact Hsize|]. intros s Hs. cbv beta in Hs. simpl.
    rewrite decide_False; [done|lia]. }
  assert (steps ≠ []) as Hne'.
  { intros ->. by apply Hne. }
  split.
  - rewrite Heq, Heq2, np_mean_Num.
    + by rewrite <- Hes, !length_fmap.
    + intros Hnil. by apply fmap_nil_inv in Hnil.
  - apply np_mean_in_percent.
    + intros Hnil. by apply fmap_nil_inv in Hnil.
    + apply Forall_fmap. apply Forall_forall. intros s Hs. simpl.
      rewrite Forall_forall in Hpos. rewrite Forall_forall in Hsize.
      destruct (Hpos s Hs) as (Hlen & _ & _ & Hlt). specialize (Hsize s Hs).
      unfold scoring_percentile. rewrite Hlen. by apply percentile_in_percent.
Qed.

(** ** The variant is applied to whole groups of calls *)

Lemma grouped_nil feat : grouped (Vec:=Vec) (Val:=Val) feat [].
Proof. by exists []. Qed.

Lemma grouped_app feat (new1 new2 : list (Call Vec Val)) :
  grouped feat new1 → grouped feat new2 → grouped feat (new1 ++ new2).
Proof.
  intros (g1 & -> & H1) (g2 & -> & H2). exists (g1 ++ g2).
  split; [by rewrite concat_app|by apply Forall_app].
Qed.

Lemma grouped_one feat (group : list (Call Vec Val)) :
  call_group feat group → grouped feat group.
Proof. intros Hg. exists [group]. simpl. rewrite app_nil_r. by repeat constructor. Qed.

Lemma grouped_validate_calls feat e r : grouped feat (validate_calls feat e r).
Proof.
  unfold validate_calls. apply grouped_app.
  - destruct (is_new_user _ _); [apply grouped_one; constructor|apply grouped_nil].
  - destruct (is_new_item _ _); [apply grouped_one; constructor|apply grouped_nil].
Qed.

Lemma groups_ret {A} (x : A) :
  records_groups (Vec:=Vec) (Val:=Val) (M:=M) (G:=G) (ret x).
Proof.
  intros w y w' [= _ <-]. split; [done|]. exists []. rewrite app_nil_r.
  split; [done|apply grouped_nil].
Qed.

Lemma groups_bind {A B} (m : @Ev Vec Val M G A) (f : A → @Ev Vec Val M G B) :
  records_groups m → (∀ x, records_groups (f x)) → records_groups (bind m f).
Proof.
  intros Hm Hf w y w' (x & w1 & H1 & H2)%bind_ok.
  destruct (Hm _ _ _ H1) as (Hcfg1 & new1 & Hc1 & HP1).
  destruct (Hf _ _ _ _ H2) as (Hcfg2 & new2 & Hc2 & HP2).
  split; [by eapply same_config_trans|].
  exists (new1 ++ new2). split; [by rewrite Hc2, Hc1, app_assoc|].
  apply grouped_app; [done|]. destruct Hcfg1 as [<- _]. done.
Qed.

Lemma groups_for_each {A} (l : list A) (body : A → @Ev Vec Val M G unit) :
  (∀ x, records_groups (body x)) → records_groups (for_each l body).
Proof.
  intros Hbody. induction l as [|x l IH]; simpl.
  - apply groups_ret.
  - apply groups_bind; [apply Hbody|]. by intros _.
Qed.

Lemma groups_consume {A} (gen : list (@Ev Vec Val M G A)) :
  Forall records_groups gen → records_groups (consume gen).
Proof.
  induction 1 as [|m gen Hm _ IH]; simpl.
  - apply groups_ret.
  - apply groups_bind; [done|]. intros x.
    apply groups_bind; [done|]. intros xs. apply groups_ret.
Qed.

Lemma groups_silent {A} (m : @Ev Vec Val M G A) :
  (∀ w x w', m w = inr (x, w') → self w' = self w ∧ calls w' = calls w) →
  records_groups m.
Proof.
  intros Hm w x w' Hrun. destruct (Hm _ _ _ Hrun) as [Hs Hc].
  split; [by unfold same_config; rewrite Hs|].
  exists []. rewrite app_nil_r. split; [done|apply grouped_nil].
Qed.

Lemma groups_set_rec {A} (m : @Ev Vec Val M G A) :
  (∀ w x w', m w = inr (x, w') →
     ∃ r tr, w' = set_rec r tr w ∧ grouped (is_feature_rec (self w)) tr) →
  records_groups m.
Proof.
  intros Hm w x w' Hrun. destruct (Hm _ _ _ Hrun) as (r & tr & -> & HP).
  split; [done|]. by exists tr.
Qed.

Lemma groups_get_rec : records_groups (Vec:=Vec) (Val:=Val) (G:=G) (get_rec (M:=M)).
Proof. apply groups_silent. by intros w x w' [= _ <-]. Qed.

Lemma groups_get_can_repeat :
  records_groups (Vec:=Vec) (Val:=Val) (M:=M) (G:=G) get_can_repeat.
Proof.
  apply groups_silent. intros w x w'. unfold get_can_repeat.
  destruct (can_repeat (self w)); [|done]. by intros [= _ <-].
Qed.

Lemma groups_get_observed u :
  records_groups (Vec:=Vec) (Val:=Val) (M:=M) (G:=G) (get_observed u).
Proof.
  apply groups_silent. intros w x w'. unfold get_observed.
  destruct (users _ !! u); [|done]. by intros [= _ <-].
Qed.

Lemma groups_clock : records_groups (Vec:=Vec) (Val:=Val) (M:=M) (G:=G) clock.
Proof. apply groups_silent. by intros w x w' [= _ <-]. Qed.

Lemma groups_unobserved (b : bool) all_items u i :
  records_groups (Vec:=Vec) (Val:=Val) (M:=M) (G:=G)
    (if negb b then
       bind (get_observed u) (λ observed, ret (candidates b all_items observed i))
     else ret all_items).
Proof.
  destruct b; simpl; [apply groups_ret|].
  apply groups_bind; [apply groups_get_observed|]. intros s. apply groups_ret.
Qed.

Lemma groups___update e b : records_groups (G:=G) (__update e b).
Proof.
  apply groups_set_rec. intros w x w'. rewrite __update_eq'. intros [= _ <-].
  eexists _, _. split; [done|]. apply grouped_one. constructor.
Qed.

Lemma groups___recommend e cands : records_groups (G:=G) (__recommend e cands).
Proof.
  apply groups_set_rec. intros w x w'. rewrite __recommend_eq. intros [= _ <-].
  eexists _, _. split; [done|]. apply grouped_one. constructor.
Qed.

Lemma groups___validate e : records_groups (G:=G) (__validate e).
Proof.
  apply groups_set_rec. intros w [] w'. rewrite __validate_eq. intros [= <-].
  eexists _, _. split; [done|]. apply grouped_validate_calls.
Qed.

Lemma groups_observed_add u i :
  records_groups (Vec:=Vec) (Val:=Val) (M:=M) (G:=G) (observed_add u i).
Proof.
  apply groups_set_rec. intros w [] w'. unfold observed_add.
  destruct (users _ !! u) as [s|]; [|done]. intros [= <-].
  eexists _, [_]. split; [reflexivity|]. apply grouped_one. constructor.
Qed.

Lemma groups_logger_debug epoch MPR :
  records_groups (Vec:=Vec) (Val:=Val) (M:=M) (G:=G) (logger_debug epoch MPR).
Proof.
  intros w [] w' [= <-]. split; [done|]. exists [CLog epoch MPR].
  split; [done|]. apply grouped_one. constructor.
Qed.

Lemma groups_shuffle l : records_groups (M:=M) (shuffle l).
Proof.
  intros w x w' [= <- <-]. split; [done|]. eexists [_].
  split; [done|]. apply grouped_one. constructor.
Qed.

Lemma groups_batch_evaluate_loop all_items es :
  records_groups (G:=G) (batch_evaluate_loop all_items es).
Proof.
  revert all_items. induction es as [|e es IH]; intros all_items; simpl.
  - apply groups_ret.
  - apply groups_bind; [apply groups_get_can_repeat|]. intros b.
    apply groups_bind; [apply groups_unobserved|]. intros unobserved.
    apply groups_bind; [apply groups___recommend|]. intros out.
    destruct (np_where_first _ _); [|by intros w x w'].
    apply groups_bind; [apply IH|]. intros ps. apply groups_ret.
Qed.

Lemma groups_batch_evaluate es : records_groups (G:=G) (batch_evaluate es).
Proof.
  unfold batch_evaluate. apply groups_bind; [apply groups_get_rec|]. intros r.
  apply groups_bind; [apply groups_batch_evaluate_loop|]. intros ps.
  apply groups_ret.
Qed.

Lemma groups_batch_update_loop n epochs train_events test_events :
  records_groups (batch_update_loop n epochs train_events test_events).
Proof.
  revert train_events. induction epochs as [|epoch epochs IH]; intros train_events;
    cbn [batch_update_loop].
  - apply groups_ret.
  - apply groups_bind.
    { destruct (decide (n ≠ 1)); [apply groups_shuffle|apply groups_ret]. }
    intros l. apply groups_bind.
    { apply groups_for_each. intros e. apply groups___update. }
    intros _. apply groups_bind; [apply groups_batch_evaluate|]. intros MPR.
    apply groups_bind; [apply groups_logger_debug|]. intros _. apply IH.
Qed.

Lemma groups_fit train_events test_events n :
  records_groups (fit train_events test_events n).
Proof.
  unfold fit. apply groups_bind.
  { intros w [] w' [= <-]. split; [done|]. exists [CInitModel]. split; [done|].
    apply grouped_one. constructor. }
  intros _. apply groups_bind.
  { apply groups_for_each. intros e.
    apply groups_bind; [apply groups___validate|]. intros _.
    apply groups_observed_add. }
  intros _. apply groups_bind.
  { apply groups_for_each. intros e. apply groups___validate. }
  intros _. apply groups_bind; [apply groups_batch_update_loop|]. intros tr.
  apply groups_bind.
  { apply groups_for_each. intros e.
    apply groups_bind; [apply groups_observed_add|]. intros _.
    apply groups___update. }
  intros _. apply groups_ret.
Qed.

Lemma groups_evaluate_body e : records_groups (evaluate_body e).
Proof.
  unfold evaluate_body.
  apply groups_bind; [apply groups___validate|]. intros _.
  apply groups_bind; [apply groups_get_rec|]. intros r.
  apply groups_bind; [apply groups_get_can_repeat|]. intros b.
  apply groups_bind; [apply groups_unobserved|]. intros unobserved.
  apply groups_bind; [apply groups_clock|]. intros start.
  apply groups_bind; [apply groups___recommend|]. intros out.
  apply groups_bind; [apply groups_clock|]. intros now.
  destruct (np_where_first _ _); [|by intros w x w'].
  apply groups_bind; [apply groups_observed_add|]. intros _.
  apply groups_bind; [apply groups_clock|]. intros start'.
  apply groups_bind; [apply groups___update|]. intros _.
  apply groups_bind; [apply groups_clock|]. intros now'.
  destruct out.2; [by intros w x w'|apply groups_ret].
Qed.

(** A group obeys the variant call by call. *)
Lemma call_group_dispatch feat (group : list (Call Vec Val)) :
  call_group feat group → Forall (dispatch_ok feat) group.
Proof. intros []; destruct feat; by repeat constructor. Qed.

Lemma grouped_dispatch feat (new : list (Call Vec Val)) :
  grouped feat new → Forall (dispatch_ok feat) new.
Proof.
  intros (groups & -> & Hg). apply Forall_concat.
  eapply Forall_impl; [exact Hg|]. apply call_group_dispatch.
Qed.

Lemma groups_dispatch {A} (m : @Ev Vec Val M G A) w x w' :
  records_groups m → m w = inr (x, w') →
  same_config w w'
  ∧ ∃ new, calls w' = calls w ++ new
           ∧ Forall (dispatch_ok (is_feature_rec (self w))) new
           ∧ grouped (is_feature_rec (self w)) new.
Proof.
  intros Hm Hrun. destruct (Hm _ _ _ Hrun) as (Hcfg & new & Hc & Hg).
  split; [done|]. exists new. split_and!; [done| |done]. by apply grouped_dispatch.
Qed.

(** X3 — the variant is chosen once.  Whatever [fit], [batch_evaluate] or
    any number of pulls from [evaluate] do, they leave [is_feature_rec] and
    [can_repeat] as they were, and every call they make on the recommender
    is the selected variant's.  Call by call: a plain Evaluator never
    refreshes features and never passes a context or feature argument, a
    feature-aware one always passes it.  Group by group: the calls are a
    sequence of whole groups, an update or a recommendation never coming
    alone from a feature-aware Evaluator but right after its two feature
    refreshes ([update_calls], [recommend_calls]), and always alone from a
    plain one. *)
Theorem evaluator_dispatch train_events test_events n es k w :
  (∀ out w', fit train_events test_events n w = inr (out, w') →
     same_config w w'
     ∧ ∃ new, calls w' = calls w ++ new
              ∧ Forall (dispatch_ok (is_feature_rec (self w))) new
              ∧ grouped (is_feature_rec (self w)) new)
  ∧ (∀ MPR w', batch_evaluate test_events w = inr (MPR, w') →
       same_config w w'
       ∧ ∃ new, calls w' = calls w ++ new
                ∧ Forall (dispatch_ok (is_feature_rec (self w))) new
                ∧ grouped (is_feature_rec (self w)) new)
  ∧ (∀ rs w', consume (take k (evaluate es)) w = inr (rs, w') →
       same_config w w'
       ∧ ∃ new, calls w' = calls w ++ new
                ∧ Forall (dispatch_ok (is_feature_rec (self w))) new
                ∧ grouped (is_feature_rec (self w)) new).
Proof.
  split_and!.
  - intros out w'. apply groups_dispatch, groups_fit.
  - intros MPR w'. apply groups_dispatch, groups_batch_evaluate.
  - intros rs w'. apply groups_dispatch, groups_consume, Forall_take. unfold evaluate.
    apply Forall_fmap, Forall_forall. intros e _. apply groups_evaluate_body.
Qed.

(** ** Runs that return *)

Lemma fit_total_no_repeat `{!KeepsBooks, !RanksCandidates}
    train_events test_events n w :
  can_repeat (self w) = Some false →
  ∃ out w', fit train_events test_events n w = inr (out, w')
            ∧ can_repeat (self w') = Some false.
Proof.
  intros Hcr.
  set (w1 := set_rec (init_model (rec (self w))) [CInitModel] w).
  destruct (bootstrap_runs train_events w1) as (w2 & H2 & [_ Hcr2]).
  pose proof (for_each_validate_eq test_events w2) as H3.
  set (w3 := set_rec _ _ w2) in H3.
  assert (ready false test_events w3) as Hready.
  { split_and!; [simpl in *; congruence| |done].
    intros e He. simpl. rewrite preregister_rec_users.
    rewrite decide_True by (apply list_elem_of_fmap; eauto). by eexists. }
  destruct (batch_update_loop_runs false n (seq 0 n) train_events test_events w3 Hready)
    as (tr & w4 & H4 & (Hcr4 & Hus4 & _)).
  destruct (for_each_inv
              (λ w0, can_repeat (self w0) = Some false
                     ∧ ∀ e, e ∈ test_events →
                         is_Some (users (rec (self w0)) !! index (user e)))
              test_events
              (λ e, observed_add (index (user e)) (index (item e)) ;; __update e false))
    with (w := w4) as (w' & H5 & Hcr5 & _).
  { intros e w0 He [Hcr0 HI].
    destruct (fold_in_body_runs e w0) as (w0' & Hrun & [_ Hcfg] & Hkeep);
      [by apply HI|]. exists w0'. split; [done|]. split; [congruence|].
    intros e' He'. by apply Hkeep, HI. }
  { done. }
  exists (tr, test_events), w'. split; [|done].
  apply fit_unfold. exists w2, w3, w4, tr. by split_and!.
Qed.

Lemma consume_evaluate_total `{!KeepsBooks, !RanksCandidates} es w :
  can_repeat (self w) = Some false →
  ∃ rs w', consume (evaluate es) w = inr (rs, w') ∧ length rs = length es.
Proof.
  revert w. induction es as [|e es IH]; intros w Hcr.
  - by exists [], w.
  - destruct (evaluate_body_runs_no_repeat e w Hcr) as (res & w1 & Hrun).
    pose proof Hrun as Hb.
    apply evaluate_body_block in Hb
      as (? & ? & ? & _ & _ & _ & _ & _ & _ & [_ Hcfg] & _).
    destruct (IH w1) as (rs & w' & Hrest & Hlen); [congruence|].
    exists (res :: rs), w'. unfold evaluate. rewrite fmap_cons. cbn [consume].
    rewrite (bind_inr _ _ _ _ _ Hrun). fold (evaluate es).
    rewrite (bind_inr _ _ _ _ _ Hrest). split; [done|]. simpl. by rewrite Hlen.
Qed.

(** One epoch of [batch_update], executed symbolically: the updates of the
    training events in the supplied order, then the evaluation, then the
    log; the environment is not looked at before the evaluation. *)
Lemma batch_update_one_epoch train_events test_events w :
  batch_update train_events test_events 1 w
  = match batch_evaluate test_events
            (set_rec (updates_rec (is_feature_rec (self w)) train_events true
                        (rec (self w)))
               (updates_calls (is_feature_rec (self w)) train_events true) w)
    with
    | inl x => inl x
    | inr (MPR, w') => inr (train_events, record (CLog 1 MPR) w')
    end.
Proof.
  unfold batch_update. cbn [seq batch_update_loop].
  rewrite decide_False by lia. rewrite bind_ret_l, bind_for_each_update.
  unfold bind at 1. destruct (batch_evaluate _ _) as [x|[MPR w']]; [done|].
  by rewrite bind_logger_debug.
Qed.

End Protocol.

(** * A single epoch is reproducible *)

Section Reproducible.

Context {Vec Val Score M G : Type}.
Context {R : Recommender Vec Val Score M}.
Variables E1 E2 : Environment Vec Val G.

#[local] Open Scope ev_scope.

Implicit Types (w : World Vec Val M G) (e : Event Vec Val)
  (es : list (Event Vec Val)).

(** C7 — determinism of a single epoch.  With [n_epoch = 1],
    [batch_update] is: the updates of [train_events], every one with
    [is_batch_train = True] and in the supplied order, then the evaluation
    on [test_events], then the log; no shuffle is made, [train_events] is
    handed back as supplied, and the call returns whenever the evaluation
    cannot fault.  Consequently two runs of [fit] followed by [evaluate]
    that start from the same Evaluator, with whatever random source and
    clock, end alike: with the same exception or with the same sequence of
    (rank, top-1 score); and with a recommender that meets its contract and
    repeats not allowed, both runs return one result per event. *)
Theorem single_epoch_deterministic train_events test_events es w w1 w2 :
  low_eq w1 w2 →
  let feat := is_feature_rec (self w) in
  let trained := set_rec (updates_rec feat train_events true (rec (self w)))
                   (updates_calls feat train_events true) w in
  batch_update (envr:=E1) train_events test_events 1 w
  = match batch_evaluate test_events trained with
    | inl x => inl x
    | inr (MPR, w') => inr (train_events, record (CLog 1 MPR) w')
    end
  ∧ env trained = env w
  ∧ filter is_update (updates_calls feat train_events true)
    = (λ e, CUpdate (index (user e)) (index (item e)) (value e)
              (opt_arg feat (context e)) true) <$> train_events
  ∧ (∀ tr w', batch_update (envr:=E1) train_events test_events 1 w = inr (tr, w') →
       tr = train_events
       ∧ ∃ block, calls w' = calls w ++ block
                  ∧ filter is_update block
                    = (λ e, CUpdate (index (user e)) (index (item e)) (value e)
                              (opt_arg feat (context e)) true) <$> train_events
                  ∧ filter is_shuffle block = [])
  ∧ (KeepsBooks → RanksCandidates → ∀ b, ready b test_events w →
     ∃ w', batch_update (envr:=E1) train_events test_events 1 w
           = inr (train_events, w'))
  ∧ agree (λ out1 out2, rank_and_score <$> out1 = rank_and_score <$> out2)
      ((fit (envr:=E1) train_events test_events 1 ;;
        consume (evaluate (envr:=E1) es)) w1)
      ((fit (envr:=E2) train_events test_events 1 ;;
        consume (evaluate (envr:=E2) es)) w2)
  ∧ (KeepsBooks → RanksCandidates → can_repeat (self w1) = Some false →
     ∃ rs1 w1' rs2 w2',
       (fit (envr:=E1) train_events test_events 1 ;;
        consume (evaluate (envr:=E1) es)) w1 = inr (rs1, w1')
       ∧ (fit (envr:=E2) train_events test_events 1 ;;
          consume (evaluate (envr:=E2) es)) w2 = inr (rs2, w2')
       ∧ length rs1 = length es
       ∧ rank_and_score <$> rs1 = rank_and_score <$> rs2).
Proof.
  intros Hlow feat trained.
  assert (agree (λ out1 out2, rank_and_score <$> out1 = rank_and_score <$> out2)
            ((fit (envr:=E1) train_events test_events 1 ;;
              consume (evaluate (envr:=E1) es)) w1)
            ((fit (envr:=E2) train_events test_events 1 ;;
              consume (evaluate (envr:=E2) es)) w2)) as Hagree.
  { revert w1 w2 Hlow.
    apply (indist_bind eq); [apply indist_fit_1|]. intros _ _ _.
    apply indist_consume_evaluate. }
  split_and!.
  - apply batch_update_one_epoch.
  - done.
  - apply updates_calls_updates.
  - intros tr w' Hrun.
    apply batch_update_single_epoch in Hrun as (-> & steps & MPR & Hcalls).
    split; [done|]. eexists. split; [exact Hcalls|].
    apply single_epoch_block.
  - intros HK HR b Hready.
    destruct (batch_update_loop_runs (E:=E1) b 1 (seq 0 1) train_events test_events w
                Hready) as (tr & w' & Hrun & _).
    pose proof Hrun as Hrun'.
    apply (batch_update_single_epoch (E:=E1)) in Hrun' as [-> _]. by exists w'.
  - exact Hagree.
  - intros HK HR Hcr.
    destruct (fit_total_no_repeat (E:=E1) train_events test_events 1 w1 Hcr)
      as (out1 & v1 & Hfit1 & Hcr1).
    destruct (consume_evaluate_total (E:=E1) es v1 Hcr1) as (rs1 & w1' & Hev1 & Hlen1).
    assert (can_repeat (self w2) = Some false) as Hcr'.
    { destruct Hlow as [<- _]. done. }
    destruct (fit_total_no_repeat (E:=E2) train_events test_events 1 w2 Hcr')
      as (out2 & v2 & Hfit2 & Hcr2).
    destruct (consume_evaluate_total (E:=E2) es v2 Hcr2) as (rs2 & w2' & Hev2 & Hlen2).
    assert ((fit (envr:=E1) train_events test_events 1 ;;
             consume (evaluate (envr:=E1) es)) w1 = inr (rs1, w1')) as Hrun1.
    { by rewrite (bind_inr _ _ _ _ _ Hfit1). }
    assert ((fit (envr:=E2) train_events test_events 1 ;;
             consume (evaluate (envr:=E2) es)) w2 = inr (rs2, w2')) as Hrun2.
    { by rewrite (bind_inr _ _ _ _ _ Hfit2). }
    exists rs1, w1', rs2, w2'. split_and!; [done..|].
    rewrite Hrun1, Hrun2 in Hagree. by destruct Hagree.
Qed.

End Reproducible.

(** * The concrete collaborator *)

Module BaselineFacts.
Import Baseline.

#[local] Open Scope ev_scope.

#[export] Instance recommender_keeps_books feat : KeepsBooks (rcm := recommender feat).
Proof.
  split; try done.
  - intros u r. simpl. apply bool_decide_eq_true.
  - intros i f r j _. simpl. apply eq_true_iff_eq.
    rewrite andb_true_iff, !bool_decide_eq_true, not_elem_of_union, elem_of_singleton.
    tauto.
Qed.

#[export] Instance recommender_ranks_candidates feat :
  RanksCandidates (rcm := recommender feat).
Proof. split; intros; simpl; [done|apply length_fmap]. Qed.

#[export] Instance environment_shuffle_permutes :
  ShufflePermutes (envr := environment).
Proof.
  intros l g. simpl. destruct (Nat.even g.1); [apply reverse_Permutation|done].
Qed.

#[export] Instance still_shuffle_permutes : ShufflePermutes (envr := still).
Proof. by intros l g. Qed.

(** [configured] is what [set_can_repeat] makes of a fresh Evaluator, and
    [warm] holds the Evaluator that the first three phases of
    [fit [ev 0 0] [ev 0 1; ev 1 2]] build. *)
Lemma configured_by_set_can_repeat feat b :
  set_can_repeat b (fresh feat) = inr (tt, configured feat b).
Proof. reflexivity. Qed.

Lemma warm_by_fit_phases :
  ∃ w,
    (rec_call CInitModel (init_model (Recommender := recommender false)) ;;
     for_each [ev 0 0]
       (λ e, __validate (rcm := recommender false) e ;;
             observed_add (index (user e)) (index (item e))) ;;
     for_each [ev 0 1; ev 1 2] (__validate (rcm := recommender false)))
      (configured false false) = inr (tt, w)
    ∧ self w = self warm.
Proof. eexists. split; vm_compute; reflexivity. Qed.

(** ** The defects, at concrete inputs *)

(** C2 — the candidate universe of [batch_evaluate] is not rebuilt.  Items
    0, 1, 2 are registered, user 0 has observed item 0, user 1 nothing, and
    repeats are not allowed.  For the first test event (user 0, item 1) the
    candidates are all items minus the observed ones plus the true item.
    For the second (user 1, item 2) they should be all three items; the
    code hands [recommend] items 1 and 2 only, item 0 having been removed
    from the shared set while the first event was processed.  The same two
    calls are what [fit [ev 0 0] [ev 0 1; ev 1 2]] records. *)
Theorem batch_evaluate_universe_shrinks :
  ∃ MPR w' cands1 cands2,
    batch_evaluate (rcm := recommender false) [ev 0 1; ev 1 2] warm = inr (MPR, w')
    ∧ calls w' = [CRecommend 0 cands1 None; CRecommend 1 cands2 None]
    ∧ list_to_set cands1 = candidates false (set_seq 0 3) {[0]} 1
    ∧ list_to_set cands2 = ({[1; 2]} : gset nat)
    ∧ candidates false (set_seq 0 3) ∅ 2 = {[0; 1; 2]}
    ∧ list_to_set cands2 ≠ candidates false (set_seq 0 3) ∅ 2
    ∧ ∃ out w,
        fit (rcm := recommender false) (envr := environment)
          [ev 0 0] [ev 0 1; ev 1 2] 1 (configured false false) = inr (out, w)
        ∧ filter is_scoring_call (calls w)
          = [CRecommend 0 cands1 None; CRecommend 1 cands2 None].
Proof.
  eexists _, _, _, _. split; [vm_compute; reflexivity|].
  split; [vm_compute; reflexivity|].
  split_and!; try (apply (bool_decide_unpack _); vm_compute; exact I).
  eexists _, _. split; vm_compute; reflexivity.
Qed.

(** C3 — [__update] refreshes the item feature under the user's index.  For
    a feature-aware recommender and an event of user 0 on item 1, the calls
    of [__update] are [update_user_feature(0, ...)],
    [update_item_feature(0, ...)] and [update]: the item's feature vector
    is filed under index 0, the user's, and no
    [update_item_feature(1, ...)] is made.  ([__recommend] uses the item's
    index.) *)
Theorem update_refreshes_item_feature_at_user_index :
  ∃ w' out w'',
    __update (rcm := recommender true) (ev 0 1) false (fresh true) = inr (tt, w')
    ∧ calls w' = [CInitModel; CUpdateUserFeature 0 [0%Z];
                  CUpdateItemFeature 0 [1%Z; 7%Z];
                  CUpdate 0 1 1%Z (Some []) false]
    ∧ (CUpdateItemFeature (index (item (ev 0 1))) (feature (item (ev 0 1))) ∉ calls w')
    ∧ (__recommend (rcm := recommender true) (ev 0 1) [1; 0] (fresh true)
       = inr (out, w''))
    ∧ calls w'' = [CInitModel; CUpdateUserFeature 0 [0%Z];
                   CUpdateItemFeature 1 [1%Z; 7%Z];
                   CRecommend 0 [1; 0] (Some [])].
Proof.
  eexists _, _, _. split; [vm_compute; reflexivity|].
  split; [vm_compute; reflexivity|].
  split.
  { intros Hin. vm_compute in Hin.
    repeat (apply elem_of_cons in Hin as [Hin|Hin]; [discriminate Hin|]).
    by apply elem_of_nil in Hin. }
  split; vm_compute; reflexivity.
Qed.

(** C9, as stated, fails: with two epochs the caller's [train_events] comes
    back reordered. *)
Lemma fit_shuffles_train_events :
  ∃ out w',
    fit (rcm := recommender false) (envr := environment)
      [ev 0 0; ev 0 1] [] 2 (fresh false) = inr (out, w')
    ∧ out.1 = [ev 0 1; ev 0 0]
    ∧ out.1 ≠ [ev 0 0; ev 0 1].
Proof.
  eexists _, _. split; [vm_compute; reflexivity|].
  split; [reflexivity|]. simpl. intros [=].
Qed.

(** C10, as stated, fails: with zero epochs [fit] never reads the repeat
    policy, and a non-empty test set is folded in without fault. *)
Lemma fit_zero_epochs_without_policy :
  can_repeat (self (fresh false)) = None
  ∧ ∃ out w',
      fit (rcm := recommender false) (envr := environment)
        [ev 0 0] [ev 0 1] 0 (fresh false) = inr (out, w').
Proof. split; [reflexivity|]. eexists _, _. vm_compute. reflexivity. Qed.

(** ** The theorems at work on concrete runs *)

Lemma evaluate_no_leakage_witness :
  ∃ rs' w',
    [ev 0 0; ev 0 1] !! 1 = Some (ev 0 1)
    ∧ consume (take 2 (evaluate (rcm := recommender false) (envr := environment)
                         [ev 0 0; ev 0 1])) (configured false false)
      = inr (rs', w')
    ∧ ∃ rs res wj cands block,
        rs' = rs ++ [res]
        ∧ consume (take 1 (evaluate (rcm := recommender false) (envr := environment)
                             [ev 0 0; ev 0 1])) (configured false false)
          = inr (rs, wj)
        ∧ evaluate_body (rcm := recommender false) (envr := environment) (ev 0 1) wj
          = inr (res, w')
        ∧ calls w' = calls wj ++ block
        ∧ serve_then_learn (ev 0 1) cands block
        ∧ (KeepsBooks (rcm := recommender false) → ∃ b,
             let seen := default ∅ (users (rec (self wj)) !! index (user (ev 0 1))) in
             can_repeat (self wj) = Some b
             ∧ cands = elements (candidates b (set_seq 0 (n_item (rec (self w'))))
                                   seen (index (item (ev 0 1))))
             ∧ users (rec (self w')) !! index (user (ev 0 1))
               = Some (seen ∪ {[index (item (ev 0 1))]})).
Proof.
  eexists _, _. split; [reflexivity|]. split; [vm_compute; reflexivity|].
  apply (evaluate_no_leakage (R := recommender false) (E := environment)
           [ev 0 0; ev 0 1] 1 (ev 0 1) (configured false false));
    [reflexivity|vm_compute; reflexivity].
Defined.

Lemma evaluate_rank_bounds_witness :
  ∃ rs' w',
    [ev 0 0; ev 0 1] !! 1 = Some (ev 0 1)
    ∧ consume (take 2 (evaluate (rcm := recommender false) (envr := environment)
                         [ev 0 0; ev 0 1])) (configured false false)
      = inr (rs', w')
    ∧ ∃ rs res wj b unobserved recos,
        let r1 := validate_rec (rcm := recommender false)
                    (is_feature_rec (self wj)) (ev 0 1) (rec (self wj)) in
        rs' = rs ++ [res]
        ∧ consume (take 1 (evaluate (rcm := recommender false) (envr := environment)
                             [ev 0 0; ev 0 1])) (configured false false)
          = inr (rs, wj)
        ∧ can_repeat (self wj) = Some b
        ∧ unobserved_of b (set_seq 0 (n_item r1)) r1
            (index (user (ev 0 1))) (index (item (ev 0 1)))
          = Some unobserved
        ∧ recos = (recommend_out (rcm := recommender false)
                     (is_feature_rec (self wj)) (ev 0 1) (elements unobserved) r1).1.1
        ∧ index (item (ev 0 1)) ∈ unobserved
        ∧ recos !! rank res = Some (index (item (ev 0 1)))
        ∧ 0 ≤ rank res < size unobserved.
Proof.
  eexists _, _. split; [reflexivity|]. split; [vm_compute; reflexivity|].
  refine (proj1 (evaluate_rank_bounds (R := recommender false) (E := environment)
                   [ev 0 0; ev 0 1] 1 (ev 0 1) (configured false false) _ _ _ _));
    [reflexivity|vm_compute; reflexivity].
Defined.


Lemma unset_can_repeat_faults_witness :
  can_repeat (self (fresh false)) = None
  ∧ (KeepsBooks (rcm := recommender false) → 1 ≤ 1 →
     fit (rcm := recommender false) (envr := environment)
       [ev 0 0] [ev 0 1; ev 1 2] 1 (fresh false) = inl AttributeError)
  ∧ batch_evaluate (rcm := recommender false) [ev 0 1; ev 1 2] (fresh false)
    = inl AttributeError
  ∧ (∀ k, consume (take (S k) (evaluate (rcm := recommender false)
                                 (envr := environment) [ev 0 1; ev 1 2]))
            (fresh false)
          = inl AttributeError).
Proof.
  split; [reflexivity|].
  apply (unset_can_repeat_faults (R := recommender false) (E := environment)
           [ev 0 0] (ev 0 1) [ev 1 2] 1 (fresh false)).
  reflexivity.
Defined.

Lemma fit_shuffles_in_place_witness :
  ∃ s' w',
    fit_at (rcm := recommender false) (envr := environment)
      0 0 2 lists (configured false false) = inr (s', w')
    ∧ s' !!! 0 = [ev 0 1; ev 0 0]
    ∧ (∀ l, l ≠ 0 → s' !! l = lists !! l)
    ∧ (2 ≤ 1 → s' = lists)
    ∧ (ShufflePermutes (envr := environment) → s' !!! 0 ≡ₚ lists !!! 0)
    ∧ ∃ new,
        calls w' = calls (configured false false) ++ new
        ∧ length (omap shuffle_of new) = (if decide (2 ≤ 1) then 0 else 2)
        ∧ shuffled_through (lists !!! 0) (omap shuffle_of new) (s' !!! 0).
Proof.
  eexists _, _. split; [vm_compute; reflexivity|]. split; [vm_compute; reflexivity|].
  eapply (fit_shuffles_in_place (R := recommender false) (E := environment)
            0 0 2 lists (configured false false)).
  vm_compute; reflexivity.
Defined.


Lemma fit_phases_witness :
  ∃ w',
    fit_phased (rcm := recommender false) (envr := environment)
      [ev 0 0] [ev 0 1; ev 1 2] 1 (configured false false)
    = inr (([ev 0 0], [ev 0 1; ev 1 2]), w')
    ∧ fit (rcm := recommender false) (envr := environment)
        [ev 0 0] [ev 0 1; ev 1 2] 1 (configured false false)
      = inr (([ev 0 0], [ev 0 1; ev 1 2]), w')
    ∧ calls w'
      = [CInitModel; CInitModel; CAddUser 0 None; CAddItem 0 None; CObserve 0 0;
         CAddItem 1 None; CAddUser 1 None; CAddItem 2 None;
         CUpdate 0 0 1%Z None true;
         CRecommend 0 [2; 1] None; CRecommend 1 [2; 1] None; CLog 1 (Num (100 # 2));
         CObserve 0 1; CUpdate 0 1 1%Z None false;
         CObserve 1 2; CUpdate 1 2 1%Z None false].
Proof.
  eexists. split; [vm_compute; reflexivity|]. split; [|vm_compute; reflexivity].
  rewrite (proj1 (fit_phases (R := recommender false) (E := environment)
                    [ev 0 0] [ev 0 1; ev 1 2] 1 (configured false false))).
  vm_compute; reflexivity.
Defined.

Lemma batch_evaluate_mpr_witness :
  ∃ MPR w',
    batch_evaluate (rcm := recommender false) [ev 0 1; ev 1 2] warm = inr (MPR, w')
    ∧ MPR = Num (100 # 2)
    ∧ let pct := λ s : Scoring,
        (inject_Z (Z.of_nat (sc_pos s))
         / inject_Z (Z.of_nat (length (sc_cands s)) - 1) * 100)%Q in
      ∃ steps,
        sc_event <$> steps = [ev 0 1; ev 1 2]
        ∧ (∀ b, can_repeat (self warm) = Some b →
             scored_from (rcm := recommender false) b (is_feature_rec (self warm))
               (set_seq 0 (n_item (rec (self warm)))) (rec (self warm)) steps)
        ∧ (can_repeat (self warm) = None → [ev 0 1; ev 1 2] = [])
        ∧ (∀ b steps',
             scored_from (rcm := recommender false) b (is_feature_rec (self warm))
               (set_seq 0 (n_item (rec (self warm)))) (rec (self warm)) steps' →
             can_repeat (self warm) = Some b →
             sc_event <$> steps' = [ev 0 1; ev 1 2] →
             steps' = steps)
        ∧ Forall (λ s, length (sc_recos s) = length (sc_cands s)
                       ∧ sc_recos s !! sc_pos s = Some (index (item (sc_event s)))
                       ∧ (∀ k, k < sc_pos s →
                            sc_recos s !! k ≠ Some (index (item (sc_event s))))
                       ∧ sc_pos s < length (sc_cands s)) steps
        ∧ MPR = np_mean ((λ s, if decide (length (sc_cands s) = 1) then NaN
                               else Num (pct s)) <$> steps)
        ∧ ([ev 0 1; ev 1 2] ≠ [] → Forall (λ s, 2 ≤ length (sc_cands s)) steps →
           MPR = Num (foldr Qplus 0%Q (pct <$> steps)
                      / inject_Z (Z.of_nat (length [ev 0 1; ev 1 2])))%Q
           ∧ in_percent MPR).
Proof.
  eexists _, _. split; [vm_compute; reflexivity|]. split; [reflexivity|].
  eapply (batch_evaluate_mpr (R := recommender false) (G := Env)
            [ev 0 1; ev 1 2] warm).
  vm_compute; reflexivity.
Defined.

Lemma single_epoch_deterministic_witness :
  low_eq (configured false false) (configured false false)
  ∧ (∃ w',
       batch_update (rcm := recommender false) (envr := environment)
         [ev 0 0; ev 1 1] [ev 0 1; ev 1 2] 1 warm
       = inr ([ev 0 0; ev 1 1], w')
       ∧ calls w'
         = [CUpdate 0 0 1%Z None true; CUpdate 1 1 1%Z None true;
            CRecommend 0 [2; 1] None; CRecommend 1 [2; 1] None;
            CLog 1 (Num (100 # 2))])
  ∧ ∃ rs1 w1' rs2 w2',
      (fit (rcm := recommender false) (envr := environment)
         [ev 0 0; ev 1 1] [ev 0 1; ev 1 2] 1 ;;
       consume (evaluate (rcm := recommender false) (envr := environment)
                  [ev 1 3; ev 0 3; ev 0 0])) (configured false false)
      = inr (rs1, w1')
      ∧ (fit (rcm := recommender false) (envr := still)
           [ev 0 0; ev 1 1] [ev 0 1; ev 1 2] 1 ;;
         consume (evaluate (rcm := recommender false) (envr := still)
                    [ev 1 3; ev 0 3; ev 0 0])) (configured false false)
        = inr (rs2, w2')
      ∧ length rs1 = length [ev 1 3; ev 0 3; ev 0 0]
      ∧ rank_and_score <$> rs1 = rank_and_score <$> rs2.
Proof.
  assert (low_eq (configured false false) (configured false false)) as Hlow
    by (by split).
  split; [exact Hlow|].
  pose proof (single_epoch_deterministic (R := recommender false) environment still
                [ev 0 0; ev 1 1] [ev 0 1; ev 1 2] [ev 1 3; ev 0 3; ev 0 0]
                warm (configured false false) (configured false false) Hlow) as H.
  cbv zeta in H. destruct H as (Heq & _ & _ & _ & _ & _ & Hruns).
  split.
  - eexists. split; [rewrite Heq; vm_compute; reflexivity|vm_compute; reflexivity].
  - apply Hruns; [apply recommender_keeps_books|apply recommender_ranks_candidates|].
    reflexivity.
Defined.

End BaselineFacts.

(** * The further properties on concrete runs *)

Module CoverageFacts.
Import Baseline BaselineFacts.

#[local] Open Scope ev_scope.

Lemma validate_registers_once_witness :
  ∃ w1,
    __validate (rcm := recommender false) (ev 0 1) (configured false false)
    = inr (tt, w1)
    ∧ is_new_user (Recommender := recommender false)
        (index (user (ev 0 1))) (rec (self w1)) = false
    ∧ is_new_item (Recommender := recommender false)
        (index (item (ev 0 1))) (rec (self w1)) = false
    ∧ __validate (rcm := recommender false) (ev 0 1) w1 = inr (tt, w1).
Proof.
  eapply (validate_registers_once (R := recommender false) (G := Env)
           (ev 0 1) (configured false false)).
Defined.

Lemma validate_keeps_history_witness :
  ∃ w1,
    __validate (rcm := recommender false) (ev 1 5) warm = inr (tt, w1)
    ∧ users (rec (self w1)) !! 0 = Some {[0]}
    ∧ users (rec (self w1)) !! 1 = Some ∅
    ∧ n_item (rec (self w1)) = 4
    ∧ ∃ new, calls w1 = calls warm ++ new ∧ length new ≤ 2.
Proof.
  eexists. split; [vm_compute; reflexivity|].
  destruct (validate_keeps_history (R := recommender false) (G := Env)
              (ev 1 5) warm _ eq_refl)
    as (Hkeep & _ & _ & _ & Hn & new & Hnew & _ & _ & Hlen).
  split_and!.
  - apply Hkeep. vm_compute; reflexivity.
  - apply Hkeep. vm_compute; reflexivity.
  - exact Hn.
  - exists new. split; [exact Hnew|exact Hlen].
Defined.

Lemma batch_evaluate_only_looks_witness :
  ∃ MPR w',
    batch_evaluate (rcm := recommender false) [ev 0 1; ev 1 2] warm = inr (MPR, w')
    ∧ same_config warm w' ∧ env w' = env warm
    ∧ (KeepsBooks (rcm := recommender false) →
       books_kept (rcm := recommender false) warm w')
    ∧ ∃ new,
        calls w' = calls warm ++ new
        ∧ Forall is_scoring_call new
        ∧ omap recommend_user new = (λ e, index (user e)) <$> [ev 0 1; ev 1 2].
Proof.
  eexists _, _. split; [vm_compute; reflexivity|].
  eapply (batch_evaluate_only_looks (R := recommender false) (G := Env)
           [ev 0 1; ev 1 2] warm).
  vm_compute; reflexivity.
Defined.

Lemma batch_evaluate_no_repeat_outcome_witness :
  can_repeat (self warm) = Some false
  ∧ ((∃ MPR w', batch_evaluate (rcm := recommender false) [ev 0 1; ev 2 2] warm
                = inr (MPR, w'))
     ↔ ∀ e, e ∈ [ev 0 1; ev 2 2] →
            is_Some (users (rec (self warm)) !! index (user e)))
  ∧ (batch_evaluate (rcm := recommender false) [ev 0 1; ev 2 2] warm = inl KeyError
     ↔ ∃ e, e ∈ [ev 0 1; ev 2 2] ∧ users (rec (self warm)) !! index (user e) = None)
  ∧ batch_evaluate (rcm := recommender false) [ev 0 1; ev 2 2] warm ≠ inl IndexError
  ∧ batch_evaluate (rcm := recommender false) [ev 0 1; ev 2 2] warm
    ≠ inl AttributeError.
Proof.
  split; [reflexivity|].
  eapply (batch_evaluate_no_repeat_outcome (R := recommender false) (G := Env)
           [ev 0 1; ev 2 2] warm).
  reflexivity.
Defined.

Lemma batch_evaluate_repeat_outcome_witness :
  can_repeat (self warm_repeat) = Some true
  ∧ ((∃ MPR w', batch_evaluate (rcm := recommender false) [ev 0 1; ev 1 3] warm_repeat
                = inr (MPR, w'))
     ↔ ∀ e, e ∈ [ev 0 1; ev 1 3] → index (item e) < n_item (rec (self warm_repeat)))
  ∧ (batch_evaluate (rcm := recommender false) [ev 0 1; ev 1 3] warm_repeat
     = inl IndexError
     ↔ ∃ e, e ∈ [ev 0 1; ev 1 3] ∧ n_item (rec (self warm_repeat)) ≤ index (item e))
  ∧ batch_evaluate (rcm := recommender false) [ev 0 1; ev 1 3] warm_repeat
    ≠ inl KeyError
  ∧ batch_evaluate (rcm := recommender false) [ev 0 1; ev 1 3] warm_repeat
    ≠ inl AttributeError.
Proof.
  split; [reflexivity|].
  eapply (batch_evaluate_repeat_outcome (R := recommender false) (G := Env)
           [ev 0 1; ev 1 3] warm_repeat).
  reflexivity.
Defined.

Lemma batch_evaluate_repeat_targets_witness :
  ∃ MPR w',
    can_repeat (self warm_repeat) = Some true
    ∧ batch_evaluate (rcm := recommender false) [ev 0 0; ev 1 2] warm_repeat
      = inr (MPR, w')
    ∧ ∃ new,
        calls w' = calls warm_repeat ++ new
        ∧ omap recommend_targets new
          = (λ _, elements (set_seq 0 (n_item (rec (self warm_repeat))) : gset nat))
              <$> [ev 0 0; ev 1 2].
Proof.
  eexists _, _. split; [reflexivity|]. split; [vm_compute; reflexivity|].
  eapply (batch_evaluate_repeat_targets (R := recommender false) (G := Env)
           [ev 0 0; ev 1 2] warm_repeat); [reflexivity|].
  vm_compute; reflexivity.
Defined.

Lemma batch_evaluate_no_repeat_targets_witness :
  ∃ MPR w',
    can_repeat (self warm) = Some false
    ∧ batch_evaluate (rcm := recommender false) [ev 0 1; ev 1 2] warm = inr (MPR, w')
    ∧ ∃ new targets,
        calls w' = calls warm ++ new
        ∧ targets = omap recommend_targets new
        ∧ Forall2 (λ e cands, ∃ observed,
                     users (rec (self warm)) !! index (user e) = Some observed
                     ∧ ∀ c, c ∈ cands →
                         c = index (item e)
                         ∨ ((c ∉ observed)
                            ∧ (c < n_item (rec (self warm))
                               ∨ c ∈ (λ e', index (item e')) <$> [ev 0 1; ev 1 2])))
            [ev 0 1; ev 1 2] targets
        ∧ ∀ k e' cands cands',
            targets !! k = Some cands → targets !! S k = Some cands' →
            [ev 0 1; ev 1 2] !! S k = Some e' →
            ∀ c, c ∈ cands' → c ∈ cands ∨ c = index (item e').
Proof.
  eexists _, _. split; [reflexivity|]. split; [vm_compute; reflexivity|].
  eapply (batch_evaluate_no_repeat_targets (R := recommender false) (G := Env)
           [ev 0 1; ev 1 2] warm); [reflexivity|].
  vm_compute; reflexivity.
Defined.

Lemma batch_evaluate_nan_witness :
  ∃ MPR w',
    batch_evaluate (rcm := recommender false) [ev 0 1; ev 1 2] warm = inr (MPR, w')
    ∧ ∃ new,
        calls w' = calls warm ++ new
        ∧ (MPR = NaN
           ↔ [ev 0 1; ev 1 2] = []
             ∨ ∃ cands, cands ∈ omap recommend_targets new ∧ length cands = 1).
Proof.
  eexists _, _. split; [vm_compute; reflexivity|].
  eapply (batch_evaluate_nan (R := recommender false) (G := Env)
           [ev 0 1; ev 1 2] warm).
  vm_compute; reflexivity.
Defined.

Lemma percentile_end_points_witness :
  2 ≤ 4 ∧ 1 ≤ 2 ∧ 2 < 4
  ∧ ∃ q0 q q' q1,
      percentile 0 4 = Num q0 ∧ percentile 1 4 = Num q
      ∧ percentile 2 4 = Num q' ∧ percentile (4 - 1) 4 = Num q1
      ∧ (q0 == 0)%Q ∧ (q <= q')%Q ∧ (q1 == 100)%Q.
Proof.
  split_and!; [lia..|]. apply (percentile_end_points 1 2 4); lia.
Defined.

Lemma batch_update_epochs_witness :
  ∃ tr w',
    batch_update (rcm := recommender false) (envr := environment)
      [ev 0 0; ev 1 1] [ev 0 1; ev 1 2] 2 warm = inr (tr, w')
    ∧ ∃ new,
        calls w' = calls warm ++ new
        ∧ omap log_epoch new = seq 1 2
        ∧ length (filter is_shuffle new) = (if decide (2 ≠ 1) then 2 else 0)
        ∧ omap recommend_user new
          = concat (replicate 2 ((λ e, index (user e)) <$> [ev 0 1; ev 1 2]))
        ∧ (ShufflePermutes (envr := environment) →
           omap update_flag new = replicate (2 * length [ev 0 0; ev 1 1]) true
           ∧ filter is_update new
             ≡ₚ concat (replicate 2
                          (update_call (is_feature_rec (self warm)) true
                             <$> [ev 0 0; ev 1 1]))).
Proof.
  eexists _, _. split; [vm_compute; reflexivity|].
  eapply (batch_update_epochs (R := recommender false) (E := environment)
           [ev 0 0; ev 1 1] [ev 0 1; ev 1 2] 2 warm).
  vm_compute; reflexivity.
Defined.

Lemma fit_observed_witness :
  ∃ out w',
    fit (rcm := recommender false) (envr := environment)
      [ev 0 0] [ev 0 1; ev 1 2] 2 (configured false false) = inr (out, w')
    ∧ ∀ u,
        users (rec (self w')) !! u
        = if decide (u ∈ (λ e, index (user e)) <$> [ev 0 0] ++ [ev 0 1; ev 1 2])
          then Some (items_of u [ev 0 0] ∪ items_of u [ev 0 1; ev 1 2])
          else None.
Proof.
  eexists _, _. split; [vm_compute; reflexivity|].
  eapply (fit_observed (R := recommender false) (E := environment)
           [ev 0 0] [ev 0 1; ev 1 2] 2 (configured false false)).
  vm_compute; reflexivity.
Defined.

Lemma fit_runs_no_repeat_witness :
  can_repeat (self (configured false false)) = Some false
  ∧ ∃ out w',
      fit (rcm := recommender false) (envr := environment)
        [ev 0 0; ev 1 4] [ev 0 1; ev 2 2] 3 (configured false false) = inr (out, w')
      ∧ can_repeat (self w') = Some false.
Proof.
  split; [reflexivity|].
  eapply (fit_runs_no_repeat (R := recommender false) (E := environment)
           [ev 0 0; ev 1 4] [ev 0 1; ev 2 2] 3 (configured false false)).
  reflexivity.
Defined.

Lemma evaluate_runs_no_repeat_witness :
  can_repeat (self (configured false false)) = Some false
  ∧ ∃ rs w',
      consume (take 2 (evaluate (rcm := recommender false) (envr := environment)
                         [ev 0 4; ev 1 1; ev 0 2])) (configured false false)
      = inr (rs, w')
      ∧ length rs = 2 `min` length [ev 0 4; ev 1 1; ev 0 2]
      ∧ can_repeat (self w') = Some false.
Proof.
  split; [reflexivity|].
  eapply (evaluate_runs_no_repeat (R := recommender false) (E := environment)
           [ev 0 4; ev 1 1; ev 0 2] 2 (configured false false)).
  reflexivity.
Defined.

Lemma evaluate_observed_witness :
  ∃ rs w',
    consume (take 2 (evaluate (rcm := recommender false) (envr := environment)
                       [ev 0 1; ev 1 2; ev 0 2])) warm
    = inr (rs, w')
    ∧ length rs = 2 `min` length [ev 0 1; ev 1 2; ev 0 2]
    ∧ (∀ u, users (rec (self w')) !! u
            = if decide (u ∈ (λ e, index (user e)) <$> take 2 [ev 0 1; ev 1 2; ev 0 2])
              then Some (default ∅ (users (rec (self warm)) !! u)
                           ∪ items_of u (take 2 [ev 0 1; ev 1 2; ev 0 2]))
              else users (rec (self warm)) !! u)
    ∧ n_item (rec (self warm)) ≤ n_item (rec (self w'))
    ∧ n_item (rec (self w')) ≤ n_item (rec (self warm)) + length rs.
Proof.
  eexists _, _. split; [vm_compute; reflexivity|].
  eapply (evaluate_observed (R := recommender false) (E := environment)
           [ev 0 1; ev 1 2; ev 0 2] 2 warm).
  vm_compute; reflexivity.
Defined.

Lemma evaluate_repeat_outcome_witness :
  can_repeat (self warm_repeat) = Some true
  ∧ ((∃ res w',
        consume (take 1 (evaluate (rcm := recommender false) (envr := environment)
                           (ev 0 5 :: [ev 1 1]))) warm_repeat
        = inr ([res], w'))
     ↔ 5 < 4)
  ∧ (consume (take 1 (evaluate (rcm := recommender false) (envr := environment)
                        (ev 0 5 :: [ev 1 1]))) warm_repeat
     = inl IndexError
     ↔ 4 ≤ 5).
Proof.
  split; [reflexivity|].
  eapply (evaluate_repeat_outcome (R := recommender false) (E := environment)
           (ev 0 5) [ev 1 1] warm_repeat).
  reflexivity.
Defined.

Lemma fit_marks_and_updates_witness :
  ∃ s' w',
    fit_at (rcm := recommender false) (envr := environment)
      0 0 2 lists (configured false false) = inr (s', w')
    ∧ s' !!! 0 = [ev 0 1; ev 0 0]
    ∧ ∃ new,
        calls w' = calls (configured false false) ++ new
        ∧ omap observe_pair new = observed_pair <$> (lists !!! 0 ++ s' !!! 0)
        ∧ filter is_online_update new
          = update_call (is_feature_rec (self (configured false false))) false
              <$> s' !!! 0
        ∧ (0 ≠ 0 ∨ 2 ≤ 1 → s' !!! 0 = lists !!! 0)
        ∧ (ShufflePermutes (envr := environment) →
           s' !!! 0 ≡ₚ lists !!! 0
           ∧ omap update_flag new
             = replicate (2 * length (lists !!! 0)) true
                 ++ replicate (length (lists !!! 0)) false)
        ∧ (2 = 1 →
           filter is_update new
           = (update_call (is_feature_rec (self (configured false false))) true
                <$> lists !!! 0)
               ++ (update_call (is_feature_rec (self (configured false false))) false
                     <$> lists !!! 0)).
Proof.
  eexists _, _. split; [vm_compute; reflexivity|]. split; [vm_compute; reflexivity|].
  eapply (fit_marks_and_updates (R := recommender false) (E := environment)
            0 0 2 lists (configured false false)).
  vm_compute; reflexivity.
Defined.

Lemma evaluator_dispatch_witness :
  ∃ out w',
    fit (rcm := recommender true) (envr := environment)
      [ev 0 0] [ev 0 1] 1 (configured true false) = inr (out, w')
    ∧ calls w'
      = [CInitModel; CInitModel; CAddUser 0 (Some []);
         CAddItem 0 (Some [0%Z; 7%Z]); CObserve 0 0;
         CAddItem 1 (Some [1%Z; 7%Z]); CUpdateUserFeature 0 [0%Z];
         CUpdateItemFeature 0 [0%Z; 7%Z]; CUpdate 0 0 1%Z (Some []) true;
         CUpdateUserFeature 0 [0%Z]; CUpdateItemFeature 1 [1%Z; 7%Z];
         CRecommend 0 [1] (Some []); CLog 1 NaN; CObserve 0 1;
         CUpdateUserFeature 0 [0%Z]; CUpdateItemFeature 0 [1%Z; 7%Z];
         CUpdate 0 1 1%Z (Some []) false]
    ∧ same_config (configured true false) w'
    ∧ ∃ new, calls w' = calls (configured true false) ++ new
             ∧ Forall (dispatch_ok true) new
             ∧ grouped true new.
Proof.
  eexists _, _. split; [vm_compute; reflexivity|]. split; [vm_compute; reflexivity|].
  eapply (proj1 (evaluator_dispatch (R := recommender true) (E := environment)
                   [ev 0 0] [ev 0 1] 1 [] 0 (configured true false))).
  vm_compute; reflexivity.
Defined.

End CoverageFacts.
